(** * SimpleVolumeViewer: a shallow embedding of [img_block_viewer.py]

    The development follows the text order of the Python source:
    general utilities ([GetNonconflitName], [MergeFullDict]), the SWC
    tree splitter ([SplitSWCTree]), the transfer-function scaling helpers
    ([UpdatePropertyOTFScale], [UpdatePropertyCTFScale], [GetColorScale]),
    the point picker ([PointPicker.PickAt]), the point set holder and the
    object registry of [GUIControl].

    Part I holds the definitions, Part II the lemmas and theorems. *)

From Stdlib Require Import ZArith QArith Reals Lra Lia List.
From Stdlib Require Import DecimalString DecimalNat.
From Stdlib Require Lqa.
From Stdlib Require Import Sorted.
From stdpp Require Import gmap strings list.

(* ===================================================================== *)
(** * Part I: definitions                                                 *)
(* ===================================================================== *)

(** ** Python outcomes

    A Python call either returns, raises, or (for a [while] loop run with
    a step budget) is cut off.  [OutOfFuel] is never a Python result: the
    theorems about loops show that enough fuel avoids it. *)

Inductive PyExn : Type :=
| ValueError
| IndexError
| TypeError
| NameError
| KeyError
| AttributeError.

Inductive result (A : Type) : Type :=
| Ok (a : A)
| Raise (e : PyExn)
| OutOfFuel.

Arguments Ok {A} a.
Arguments Raise {A} e.
Arguments OutOfFuel {A}.

Definition bind {A B : Type} (r : result A) (k : A -> result B) : result B :=
  match r with
  | Ok a => k a
  | Raise e => Raise e
  | OutOfFuel => OutOfFuel
  end.

Notation "'let*' x ':=' r 'in' k" := (bind r (fun x => k))
  (at level 10, x name, r at level 100, k at level 200).

Fixpoint mapR {A B : Type} (f : A -> result B) (l : list A) : result (list B) :=
  match l with
  | [] => Ok []
  | a :: l' => let* b := f a in let* bs := mapR f l' in Ok (b :: bs)
  end.

(** ** GetNonconflitName (source lines 273-279) *)

Definition zero_char : Ascii.ascii := Ascii.ascii_of_nat 48.

Fixpoint zeros (n : nat) : string :=
  match n with
  | 0 => ""
  | S n' => String zero_char (zeros n')
  end.

(** ["%.3d" % i] for a non-negative [i]: the decimal digits of [i],
    left-padded with zeros to at least three digits. *)
Definition fmt_03d (i : nat) : string :=
  let s := NilEmpty.string_of_uint (Nat.to_uint i) in
  zeros (3 - String.length s) +:+ s.

(** The [while name in name_set] loop; one unit of fuel per test of the
    loop condition. *)
Fixpoint GetNonconflitName_loop (fuel : nat) (prefix : string)
    (name_set : gset string) (i : nat) (name : string) : option string :=
  match fuel with
  | 0 => None
  | S fuel' =>
      if decide (name ∈ name_set)
      then GetNonconflitName_loop fuel' prefix name_set (S i)
             (prefix +:+ "." +:+ fmt_03d i)
      else Some name
  end.

Definition GetNonconflitName (fuel : nat) (prefix : string)
    (name_set : gset string) : option string :=
  GetNonconflitName_loop fuel prefix name_set 1 prefix.

(** The [k]-th name the loop tests: the prefix itself, then the numbered
    names. *)
Definition candidate (prefix : string) (k : nat) : string :=
  match k with
  | 0 => prefix
  | S _ => prefix +:+ "." +:+ fmt_03d k
  end.

(** Reading a decimal numeral back; leading zeros do not matter. *)
Definition parse_nat (s : string) : option nat :=
  Nat.of_uint <$> NilEmpty.uint_of_string s.

(** ** numpy indexing

    An index [k] into an axis of length [len] is valid when
    [-len <= k < len]; negative indices count from the end. *)

Definition np_index (len : nat) (k : Z) : option nat :=
  if ((0 <=? k) && (k <? Z.of_nat len))%Z then Some (Z.to_nat k)
  else if ((- Z.of_nat len <=? k) && (k <? 0))%Z
       then Some (Z.to_nat (k + Z.of_nat len))
       else None.

Definition np_get {A : Type} (a : list A) (k : Z) : result A :=
  match np_index (length a) k with
  | Some j => match a !! j with Some v => Ok v | None => Raise IndexError end
  | None => Raise IndexError
  end.

Definition np_set {A : Type} (a : list A) (k : Z) (v : A) : result (list A) :=
  match np_index (length a) k with
  | Some j => Ok (<[j := v]> a)
  | None => Raise IndexError
  end.

(** ** SplitSWCTree (source lines 470-503)

    The [int32] entries are integers of [Z]; the one sum computed on
    them, [max_id + 2], wraps around as [int32] addition does. *)

(** The value of an [int32] sum: the result modulo 2^32, in
    [-2^31, 2^31). *)
Definition int32_wrap (z : Z) : Z :=
  ((z + 2147483648) mod 4294967296 - 2147483648)%Z.

(** A row of [tr[0]]: [(id, parent_id, type)]. *)
Record swc_row : Type := SwcRow { row_id : Z; row_parent : Z; row_type : Z }.

Definition max_list (l : list Z) : result Z :=
  match l with
  | [] => Raise ValueError
  | x :: l' => Ok (fold_left Z.max l' x)
  end.

(** [np.zeros(n, dtype=np.int32)] *)
Definition np_zeros (n : Z) : result (list Z) :=
  if (n <? 0)%Z then Raise ValueError else Ok (replicate (Z.to_nat n) 0%Z).

(** [arr[idx] = np.arange(len(idx))]: the writes happen in order, so a
    repeated index keeps the last value. *)
Fixpoint assign_arange (arr : list Z) (idx : list Z) (k : Z) : result (list Z) :=
  match idx with
  | [] => Ok arr
  | i :: idx' => let* arr' := np_set arr i k in assign_arange arr' idx' (k + 1)%Z
  end.

Definition count_where (P : Z -> bool) (a : list Z) : Z :=
  Z.of_nat (length (filter (fun x => P x = true) a)).

(** [np.histogram(a, bins=edges)[0]] for an explicit, increasing sequence
    of bin edges: [len(edges) - 1] bins, each half-open [[lo, hi)], except
    the last one, which also contains its right edge. *)
Fixpoint histogram (a : list Z) (edges : list Z) : list Z :=
  match edges with
  | lo :: ((hi :: rest) as edges') =>
      (match rest with
       | [] => count_where (fun x => (lo <=? x) && (x <=? hi))%Z a
       | _ :: _ => count_where (fun x => (lo <=? x) && (x <? hi))%Z a
       end) :: histogram a edges'
  | _ => []
  end.

(** [np.arange(n)] *)
Definition np_arange (n : nat) : list Z := map Z.of_nat (seq 0 n).

(** [np.nonzero(a - 1)[0]] *)
Definition nonzero_minus_1 (a : list Z) : list Z :=
  map (fun p => Z.of_nat (fst p))
      (filter (fun p => (snd p - 1)%Z <> 0%Z) (zip (seq 0 (length a)) a)).

(** The upward walk of one filament.  [parent] is column 1 of the
    relabelled [tr_idx].  The loop condition reads [n_child[i]] before it
    compares [i] with [-1], as the source does. *)
Fixpoint walk_up (fuel : nat) (n_child parent : list Z) (i : Z)
    (filament : list Z) : result (list Z) :=
  match fuel with
  | 0 => OutOfFuel
  | S fuel' =>
      let* c := np_get n_child i in
      if ((c =? 1) && negb (i =? -1))%Z
      then let* p := np_get parent i in
           walk_up fuel' n_child parent p (filament ++ [i])
      else Ok (if (i =? -1)%Z then filament else filament ++ [i])
  end.

Definition one_process (fuel : nat) (n_child parent : list Z) (eid : Z)
    : result (list Z) :=
  let* p := np_get parent eid in
  let* filament := walk_up fuel n_child parent p [eid] in
  Ok (rev filament).

Definition SplitSWCTree (fuel : nat) (tr0 : list swc_row) : result (list (list Z)) :=
  let ids := map row_id tr0 in
  let parents := map row_parent tr0 in
  let* max_id := max_list ids in
  let n_id := length tr0 in
  let* arr_full := np_zeros (int32_wrap (max_id + 2)) in
  let* arr_full := np_set arr_full (-1) (-1)%Z in
  let* arr_full := assign_arange arr_full ids 0 in
  let* _ := mapR (np_get arr_full) ids in
  let* parent := mapR (np_get arr_full) parents in
  let n_child := histogram (tail parent) (np_arange n_id) in
  let id_bounds := nonzero_minus_1 n_child in
  mapR (one_process fuel n_child parent) id_bounds.

(** The input invariants of a skeleton tree, as a decidable check:
    distinct non-negative ids, exactly one root (parent [-1]), and every
    node reaching the root by parent links within the tree, so that every
    other parent is present and there is no cycle. *)
Definition parent_of (tr0 : list swc_row) (i : Z) : option Z :=
  row_parent <$> find (fun r => bool_decide (row_id r = i)) tr0.

Fixpoint reaches_root (fuel : nat) (tr0 : list swc_row) (i : Z) : bool :=
  match fuel with
  | 0 => false
  | S fuel' =>
      match parent_of tr0 i with
      | Some p => if (p =? -1)%Z then true else reaches_root fuel' tr0 p
      | None => false
      end
  end.

Definition valid_tree (tr0 : list swc_row) : bool :=
  bool_decide (NoDup (map row_id tr0))
  && forallb (fun r => (0 <=? row_id r)%Z) tr0
  && bool_decide (length (filter (fun r => row_parent r = (-1)%Z) tr0) = 1)
  && forallb (fun r => reaches_root (length tr0) tr0 (row_id r)) tr0.

(** Position of a node id among the rows (the dense index the splitter
    relabels it to). *)
Fixpoint index_of (ids : list Z) (i : Z) : option Z :=
  match ids with
  | [] => None
  | j :: ids' => if (j =? i)%Z then Some 0%Z else Z.succ <$> index_of ids' i
  end.

(** The (node, parent) edges of the input tree in index space, the root's
    sentinel pseudo-edge left out. *)
Definition tree_edges (tr0 : list swc_row) : list (Z * Z) :=
  omap (fun r =>
          if (row_parent r =? -1)%Z then None
          else c ← index_of (map row_id tr0) (row_id r);
               p ← index_of (map row_id tr0) (row_parent r);
               Some (c, p))
       tr0.

(** The (node, parent) edges implied by consecutive entries of a
    root-to-leaf segment. *)
Fixpoint consecutive_edges (seg : list Z) : list (Z * Z) :=
  match seg with
  | a :: ((b :: _) as seg') => (b, a) :: consecutive_edges seg'
  | _ => []
  end.

Definition segment_edges (segs : list (list Z)) : list (Z * Z) :=
  concat (map consecutive_edges segs).

(** Number of segments a node index occurs in. *)
Definition occurrences (i : Z) (segs : list (list Z)) : nat :=
  length (filter (fun s => i ∈ s) segs).

(** The tree of the worked example: root 1 with children 2 and 3, node 2
    with children 4 and 5; the rows are sorted, parents first. *)
Definition example_tree : list swc_row :=
  [SwcRow 1 (-1) 0; SwcRow 2 1 0; SwcRow 3 1 0; SwcRow 4 2 0; SwcRow 5 2 0].

(** The smallest tree with an edge: a root and its only child. *)
Definition two_node_tree : list swc_row :=
  [SwcRow 1 (-1) 0; SwcRow 2 1 0].

(** ** MergeFullDict (source lines 281-302)

    Configuration values are what [json.loads] and the default
    configuration literals produce.  A dict is kept as an association list
    in insertion order with distinct keys, as a Python dict iterates.  The
    values are trees: the inputs of a merge share no sub-object. *)

#[local] Set Warnings "-register-all".

Inductive pyval : Type :=
| PNone
| PBool (b : bool)
| PInt (n : Z)
| PFloat (q : Q)
| PStr (s : string)
| PList (l : list pyval)
| PDict (d : list (string * pyval)).

(** [type(v)] *)
Inductive pytype : Type := TNone | TBool | TInt | TFloat | TStr | TList | TDict.

Definition type_of (v : pyval) : pytype :=
  match v with
  | PNone => TNone
  | PBool _ => TBool
  | PInt _ => TInt
  | PFloat _ => TFloat
  | PStr _ => TStr
  | PList _ => TList
  | PDict _ => TDict
  end.

Definition pytype_eqb (a b : pytype) : bool :=
  match a, b with
  | TNone, TNone | TBool, TBool | TInt, TInt | TFloat, TFloat
  | TStr, TStr | TList, TList | TDict, TDict => true
  | _, _ => false
  end.

(** [d[key]] and [d[key] = v] on a dict: an existing key keeps its place,
    a new key goes last. *)
Fixpoint dict_get (key : string) (d : list (string * pyval)) : option pyval :=
  match d with
  | [] => None
  | (k, v) :: d' => if String.eqb k key then Some v else dict_get key d'
  end.

Fixpoint dict_set (key : string) (v : pyval) (d : list (string * pyval))
    : list (string * pyval) :=
  match d with
  | [] => [(key, v)]
  | (k, w) :: d' =>
      if String.eqb k key then (k, v) :: d' else (k, w) :: dict_set key v d'
  end.

(** What a merge leaves behind: the container as mutated so far, the
    warnings printed, and the exception that stopped it, if any. *)
Record merged : Type := Merged {
  m_value : pyval;
  m_log : list string;
  m_exn : option PyExn
}.

(** The line [dbg_print(2, ...)] prints, since [debug_level] is 4. *)
Definition mismatch_warning : string :=
  "Warning: DeepUpdate() key type mismatch! value discard.".

(** [DeepUpdate(d_contain, d_update)].  The recursive call receives
    [d_contain[key]] whatever it is.  When it is not a dict and the update
    has an item, the first statement of the loop body that touches it
    raises [TypeError]: [key not in d_contain] on a number, a bool or
    [None]; the item assignment or the item read with a string key on a
    str or a list. *)
Fixpoint DeepUpdate (d_contain : pyval) (d_update : pyval) {struct d_update} : merged :=
  match d_update with
  | PDict items =>
      (fix loop (items : list (string * pyval)) (cur : pyval) (log : list string)
         {struct items} : merged :=
         match items with
         | [] => Merged cur log None
         | (key, value) :: rest =>
             match cur with
             | PDict d =>
                 match dict_get key d with
                 | None => loop rest (PDict (dict_set key value d)) log
                 | Some old =>
                     match value with
                     | PDict _ =>
                         let r := DeepUpdate old value in
                         let cur' := PDict (dict_set key (m_value r) d) in
                         match m_exn r with
                         | Some e => Merged cur' (log ++ m_log r) (Some e)
                         | None => loop rest cur' (log ++ m_log r)
                         end
                     | _ =>
                         if pytype_eqb (type_of old) (type_of value)
                         then loop rest (PDict (dict_set key value d)) log
                         else loop rest cur (log ++ [mismatch_warning])
                     end
                 end
             | _ => Merged cur log (Some TypeError)
             end
         end) items d_contain []
  | _ => Merged d_contain [] (Some AttributeError)
  end.

Definition MergeFullDict (d_contain d_update : pyval) : merged :=
  DeepUpdate d_contain d_update.

(** A base with a leaf under ["a"], and an override that supplies a dict
    for ["a"] and a same-typed leaf for ["c"]. *)
Definition leaf_base : pyval :=
  PDict [("a", PInt 1); ("c", PInt 1)].

Definition dict_override : pyval :=
  PDict [("a", PDict [("b", PInt 2)]); ("c", PInt 5)].

(** ** A state-and-exception monad

    For the code that mutates an object and may raise on the way: the
    state is returned in every case, so what was written before an
    exception stays written. *)

Definition stM (S A : Type) : Type := S -> result A * S.

Definition st_ret {S A : Type} (a : A) : stM S A := fun s => (Ok a, s).

Definition st_raise {S A : Type} (e : PyExn) : stM S A := fun s => (Raise e, s).

Definition st_bind {S A B : Type} (m : stM S A) (k : A -> stM S B) : stM S B :=
  fun s =>
    match m s with
    | (Ok a, s') => k a s'
    | (Raise e, s') => (Raise e, s')
    | (OutOfFuel, s') => (OutOfFuel, s')
    end.

Definition st_get {S : Type} : stM S S := fun s => (Ok s, s).

Definition st_put {S : Type} (s : S) : stM S unit := fun _ => (Ok tt, s).

(** Lifting an optional value, with the exception its absence raises. *)
Definition st_some {S A : Type} (e : PyExn) (o : option A) : stM S A :=
  match o with
  | Some a => st_ret a
  | None => st_raise e
  end.

Notation "'do*' x ':=' m 'in' k" := (st_bind m (fun x => k))
  (at level 10, x name, m at level 100, k at level 200).

(** ** Transfer-function scaling (source lines 505-560)

    Numbers are exact rationals.  A toolkit curve is the array of its
    control points, which the toolkit keeps ordered by position; the
    source uses [GetSize], [GetNodeValue(k, out)] and [SetNodeValue(k, v)]
    of it.  [SetNodeValue] is the toolkit's, not the repository's: it
    writes the node at index [k] and, when the write has changed the
    node's position, sorts the array again by position (a stable sort), so
    that a later index may name another node than before. *)

Section NodeArray.
Context {A : Type} (key : A -> Q).

(** One step of the stable sort: [n] goes before the first node whose
    position is not smaller. *)
Fixpoint insert_by (n : A) (l : list A) : list A :=
  match l with
  | [] => [n]
  | m :: l' =>
      if Qle_bool (key n) (key m) then n :: m :: l' else m :: insert_by n l'
  end.

(** Sorting by position, nodes at the same position keeping their
    order. *)
Definition sort_by (l : list A) : list A := fold_right insert_by [] l.

(** [SetNodeValue(k, v)] on the node array.  An index out of range
    writes nothing (the toolkit reports an error and returns -1). *)
Definition SetNodeValue (k : nat) (v : A) (nodes : list A) : list A :=
  match nodes !! k with
  | None => nodes
  | Some old =>
      if Qeq_bool (key old) (key v) then <[k := v]> nodes
      else sort_by (<[k := v]> nodes)
  end.

End NodeArray.

(** Positions in order: each at most the next. *)
Fixpoint sortedb (l : list Q) : bool :=
  match l with
  | x :: ((y :: _) as l') => Qle_bool x y && sortedb l'
  | _ => true
  end.

(** The writes of the positions [news], one per node and from the first
    node on, to nodes at the positions [cur], [done] being the positions
    already written: every write leaves the positions in order, so no
    write makes the toolkit move a node. *)
Fixpoint writes_in_order (done news cur : list Q) : bool :=
  match news, cur with
  | x :: news', _ :: cur' =>
      sortedb (done ++ x :: cur') && writes_in_order (done ++ [x]) news' cur'
  | _, _ => true
  end.

(** A node of the opacity curve: position, opacity, midpoint, sharpness. *)
Record otf_node : Type := OtfNode {
  otf_x : Q; otf_y : Q; otf_midpoint : Q; otf_sharpness : Q
}.

(** A node of the color curve: position, R, G, B, midpoint, sharpness. *)
Record ctf_node : Type := CtfNode {
  ctf_x : Q; ctf_r : Q; ctf_g : Q; ctf_b : Q; ctf_midpoint : Q; ctf_sharpness : Q
}.

Definition otf_set_x (x : Q) (n : otf_node) : otf_node :=
  OtfNode x (otf_y n) (otf_midpoint n) (otf_sharpness n).

Definition ctf_set_x (x : Q) (n : ctf_node) : ctf_node :=
  CtfNode x (ctf_r n) (ctf_g n) (ctf_b n) (ctf_midpoint n) (ctf_sharpness n).

(** The two sections of [prop_conf] the scaler reads; [None] stands for
    a missing key. *)
Record otf_conf : Type := OtfConf {
  AddPoint : option (list (list Q));
  opacity_scale : option Q
}.

Record ctf_conf : Type := CtfConf {
  AddRGBPoint : option (list (list Q));
  trans_scale : option Q
}.

Record PropConf : Type := MkPropConf {
  opacity_transfer_function : option otf_conf;
  color_transfer_function : option ctf_conf
}.

(** A volume property object: its two current curves, the configuration
    it was authored with, and the property it was copied from, if any.
    Properties live in a store and refer to each other by address. *)
Record VolumeProperty : Type := MkVolumeProperty {
  ScalarOpacity : list otf_node;
  RGBTransferFunction : list ctf_node;
  prop_conf : PropConf;
  ref_prop : option nat
}.

Abbreviation prop_store := (gmap nat VolumeProperty).

(** Dereferencing an address.  Python references never dangle; the
    model answers [AttributeError] for an address outside the store. *)
Definition deref (a : nat) : stM prop_store VolumeProperty :=
  do* h := st_get in st_some AttributeError (h !! a).

(** [if hasattr(obj_prop, 'ref_prop'): obj_prop = obj_prop.ref_prop],
    followed by [obj_prop.prop_conf]. *)
Definition authored_conf (obj_prop : nat) : stM prop_store PropConf :=
  do* prop := deref obj_prop in
  match ref_prop prop with
  | Some r => do* rp := deref r in st_ret (prop_conf rp)
  | None => st_ret (prop_conf prop)
  end.

Definition set_ScalarOpacity (a : nat) (pf : list otf_node) : stM prop_store unit :=
  do* prop := deref a in
  do* h := st_get in
  st_put (<[a := MkVolumeProperty pf (RGBTransferFunction prop)
                   (prop_conf prop) (ref_prop prop)]> h).

Definition set_RGBTransferFunction (a : nat) (ctf : list ctf_node) : stM prop_store unit :=
  do* prop := deref a in
  do* h := st_get in
  st_put (<[a := MkVolumeProperty (ScalarOpacity prop) ctf
                   (prop_conf prop) (ref_prop prop)]> h).

(** [pf.SetNodeValue(k, v)] on the curve of the property at [a]. *)
Definition otf_SetNodeValue (a : nat) (k : nat) (v : otf_node) : stM prop_store unit :=
  do* prop := deref a in
  set_ScalarOpacity a (SetNodeValue otf_x k v (ScalarOpacity prop)).

Definition ctf_SetNodeValue (a : nat) (k : nat) (v : ctf_node) : stM prop_store unit :=
  do* prop := deref a in
  set_RGBTransferFunction a (SetNodeValue ctf_x k v (RGBTransferFunction prop)).

(** [tbl[k][0]] on a list of rows. *)
Definition row_position (tbl : list (list Q)) (k : nat) : option Q :=
  row ← tbl !! k; row !! 0.

(** The second loop of [UpdatePropertyOTFScale], over the pairs
    [(k, v[k])] of the nodes read by the first loop. *)
Fixpoint otf_scale_loop (a : nat) (otf_s : Q) (otf_v : list (list Q))
    (kv : list (nat * otf_node)) : stM prop_store unit :=
  match kv with
  | [] => st_ret tt
  | (k, vk) :: kv' =>
      do* x := st_some IndexError (row_position otf_v k) in
      do* _ := otf_SetNodeValue a k (otf_set_x (otf_s * x) vk) in
      otf_scale_loop a otf_s otf_v kv'
  end.

Fixpoint ctf_scale_loop (a : nat) (ctf_s : Q) (ctf_v : list (list Q))
    (kv : list (nat * ctf_node)) : stM prop_store unit :=
  match kv with
  | [] => st_ret tt
  | (k, vk) :: kv' =>
      do* x := st_some IndexError (row_position ctf_v k) in
      do* _ := ctf_SetNodeValue a k (ctf_set_x (ctf_s * x) vk) in
      ctf_scale_loop a ctf_s ctf_v kv'
  end.

Definition enumerate {A : Type} (l : list A) : list (nat * A) :=
  zip (seq 0 (length l)) l.

(** With [otf_s = None] the function returns the pair (authored points,
    current nodes); otherwise it returns Python's [None]. *)
Definition UpdatePropertyOTFScale (obj_prop : nat) (otf_s : option Q)
    : stM prop_store (option (list (list Q) * list otf_node)) :=
  do* prop := deref obj_prop in
  let pf := ScalarOpacity prop in
  do* conf := authored_conf obj_prop in
  do* otf := st_some KeyError (opacity_transfer_function conf) in
  do* otf_v := st_some KeyError (AddPoint otf) in
  let v := pf in
  match otf_s with
  | None => st_ret (Some (otf_v, v))
  | Some s =>
      do* _ := otf_scale_loop obj_prop s otf_v (enumerate v) in
      st_ret None
  end.

Definition UpdatePropertyCTFScale (obj_prop : nat) (ctf_s : option Q)
    : stM prop_store (option (list (list Q) * list ctf_node)) :=
  do* prop := deref obj_prop in
  let ctf := RGBTransferFunction prop in
  do* conf := authored_conf obj_prop in
  do* ctfc := st_some KeyError (color_transfer_function conf) in
  do* ctf_v := st_some KeyError (AddRGBPoint ctfc) in
  let v := ctf in
  match ctf_s with
  | None => st_ret (Some (ctf_v, v))
  | Some s =>
      do* _ := ctf_scale_loop obj_prop s ctf_v (enumerate v) in
      st_ret None
  end.

(** [otf_v[-1][0]] *)
Definition last_position (tbl : list (list Q)) : option Q :=
  row ← last tbl; row !! 0.

(** Unpacking the result of a query call into two names raises
    [TypeError] on Python's [None].  A zero divisor, which numpy answers
    with [inf] or [nan], is outside the model: the statements about the
    quotients assume a nonzero final authored position. *)
Definition GetColorScale (obj_prop : nat) : stM prop_store (Q * Q) :=
  do* r1 := UpdatePropertyOTFScale obj_prop None in
  do* ov := st_some TypeError r1 in
  do* r2 := UpdatePropertyCTFScale obj_prop None in
  do* cv := st_some TypeError r2 in
  do* o_last := st_some IndexError (last (snd ov)) in
  do* otf_last := st_some IndexError (last_position (fst ov)) in
  do* c_last := st_some IndexError (last (snd cv)) in
  do* ctf_last := st_some IndexError (last_position (fst cv)) in
  st_ret (otf_x o_last / otf_last, ctf_x c_last / ctf_last)%Q.

(** The argument of [SetColorScale]: a number, or a sequence whose first
    two entries are the opacity and the color scale. *)
Inductive scale_arg : Type :=
| ScaleNumber (s : Q)
| ScaleSeq (l : list Q).

Definition SetColorScale (obj_prop : nat) (scale : scale_arg)
    : stM prop_store unit :=
  do* ss := match scale with
            | ScaleSeq l =>
                do* o := st_some IndexError (l !! 0) in
                do* c := st_some IndexError (l !! 1) in
                st_ret (o, c)
            | ScaleNumber s => st_ret (s, s)
            end in
  do* _ := UpdatePropertyOTFScale obj_prop (Some (fst ss)) in
  do* _ := UpdatePropertyCTFScale obj_prop (Some (snd ss)) in
  st_ret tt.

(** A computation that never writes the store. *)
Definition read_only {A : Type} (m : stM prop_store A) : Prop :=
  forall h, snd (m h) = h.

(** The fields of a node other than its position. *)
Definition otf_values (n : otf_node) : Q * Q * Q :=
  (otf_y n, otf_midpoint n, otf_sharpness n).

Definition ctf_values (n : ctf_node) : Q * Q * Q * Q * Q :=
  (ctf_r n, ctf_g n, ctf_b n, ctf_midpoint n, ctf_sharpness n).

(** [vtkPiecewiseFunction.AddPoint(x, y)]: the nodes stay ordered by
    position and a node already at [x] is replaced; midpoint 0.5 and
    sharpness 0 are the toolkit's defaults. *)
Fixpoint piecewise_AddPoint (x y : Q) (pf : list otf_node) : list otf_node :=
  match pf with
  | [] => [OtfNode x y (1 # 2) 0]
  | n :: pf' =>
      match (x ?= otf_x n)%Q with
      | Lt => OtfNode x y (1 # 2) 0 :: n :: pf'
      | Eq => OtfNode x y (1 # 2) 0 :: pf'
      | Gt => n :: piecewise_AddPoint x y pf'
      end
  end.

(** The opacity block of [AddObjectProperty] (source lines 1074-1082):
    the curve is built from the first two authored points only. *)
Definition point_xy (otf_v : list (list Q)) (k : nat) : option (Q * Q) :=
  row ← otf_v !! k; x ← row !! 0; y ← row !! 1; Some (x, y).

Definition build_otf (c : otf_conf) : result (list otf_node) :=
  match AddPoint c, opacity_scale c with
  | Some otf_v, Some otf_s =>
      match point_xy otf_v 0, point_xy otf_v 1 with
      | Some (x0, y0), Some (x1, y1) =>
          Ok (piecewise_AddPoint (otf_s * x1) y1
                (piecewise_AddPoint (otf_s * x0) y0 []))
      | _, _ => Raise IndexError
      end
  | _, _ => Raise KeyError
  end.

(** [vtkColorTransferFunction.AddRGBPoint(x, r, g, b)], same ordering
    and replacement rule. *)
Fixpoint ctf_AddRGBPoint (nd : ctf_node) (ctf : list ctf_node) : list ctf_node :=
  match ctf with
  | [] => [nd]
  | n :: ctf' =>
      match (ctf_x nd ?= ctf_x n)%Q with
      | Lt => nd :: n :: ctf'
      | Eq => nd :: ctf'
      | Gt => n :: ctf_AddRGBPoint nd ctf'
      end
  end.

(** The color block of [AddObjectProperty] (source lines 1084-1095):
    every authored row [x, r, g, b] becomes a node at [x * ctf_s]. *)
Fixpoint build_ctf_rows (ctf_s : Q) (rows : list (list Q)) (ctf : list ctf_node)
    : result (list ctf_node) :=
  match rows with
  | [] => Ok ctf
  | [x; r; g; b] :: rows' =>
      build_ctf_rows ctf_s rows'
        (ctf_AddRGBPoint (CtfNode (x * ctf_s) r g b (1 # 2) 0) ctf)
  | _ :: _ => Raise TypeError
  end.

Definition build_ctf (c : ctf_conf) : result (list ctf_node) :=
  match AddRGBPoint c, trans_scale c with
  | Some ctf_v, Some ctf_s => build_ctf_rows ctf_s ctf_v []
  | _, _ => Raise KeyError
  end.

(** The volume property [AddObjectProperty] creates from a configuration
    that has both sections and no [copy_from]. *)
Definition new_volume_property (otf : otf_conf) (ctf : ctf_conf)
    : result VolumeProperty :=
  let* pf := build_otf otf in
  let* cf := build_ctf ctf in
  Ok (MkVolumeProperty pf cf (MkPropConf (Some otf) (Some ctf)) None).

(** The authored tables the scaler reads for the property at [a]. *)
Definition authored_tables (h : prop_store) (a : nat)
    : option (list (list Q) * list (list Q)) :=
  match fst (authored_conf a h) with
  | Ok conf =>
      otf ← opacity_transfer_function conf;
      otf_v ← AddPoint otf;
      ctf ← color_transfer_function conf;
      ctf_v ← AddRGBPoint ctf;
      Some (otf_v, ctf_v)
  | _ => None
  end.

(** [xs] lists the positions [tbl[k][0]] of all rows of [tbl]. *)
Definition positions_of (tbl : list (list Q)) (xs : list Q) : Prop :=
  Forall2 (fun row x => row !! 0 = Some x) tbl xs.

(** A configuration with three authored opacity points. *)
Definition three_point_otf : otf_conf :=
  OtfConf (Some [[0; 0]; [100; 1 # 2]; [200; 1]]%Q) (Some 1%Q).

Definition two_point_ctf : ctf_conf :=
  CtfConf (Some [[0; 0; 0; 0]; [255; 1; 1; 1]]%Q) (Some 1%Q).

Definition three_point_store : prop_store :=
  match new_volume_property three_point_otf two_point_ctf with
  | Ok prop => {[ 0 := prop ]}
  | _ => ∅
  end.

(** The default ["volume"] property of the scene (source lines 131-149),
    at scale 40, as [AddObjectProperty] creates it. *)
Definition default_otf : otf_conf :=
  OtfConf (Some [[20; 0]; [255; 2 # 10]]%Q) (Some 40%Q).

Definition default_ctf : ctf_conf :=
  CtfConf (Some [[0; 0; 0; 0]; [64; 1; 0; 0]; [128; 0; 0; 1];
                 [192; 0; 1; 0]; [255; 0; 2 # 10; 0]]%Q) (Some 40%Q).

Definition default_store : prop_store :=
  match new_volume_property default_otf default_ctf with
  | Ok prop => {[ 0 := prop ]}
  | _ => ∅
  end.

(** ** PointPicker.PickAt (source lines 635-668)

    Coordinates are real numbers.  The point array [p] (3 x N) is kept
    as the list of its N columns. *)

Section RayPicker.
Local Open Scope R_scope.

Record vec3 : Type := Vec3 { vx : R; vy : R; vz : R }.

Definition vsub (a b : vec3) : vec3 := Vec3 (vx a - vx b) (vy a - vy b) (vz a - vz b).
Definition vscale (a : vec3) (s : R) : vec3 := Vec3 (vx a * s) (vy a * s) (vz a * s).
Definition vneg (a : vec3) : vec3 := Vec3 (- vx a) (- vy a) (- vz a).
Definition vdot (a b : vec3) : R := vx a * vx b + vy a * vy b + vz a * vz b.

(** [np.linalg.norm] of a column *)
Definition vnorm (a : vec3) : R := sqrt (vdot a a).

(** The state [init] stores: the points, the rotation block
    [cam_m[0:3,0:3]] by rows, the translation column [cam_m[0:3,3]], the
    screen size and the pixel scale. *)
Record PointPicker : Type := MkPointPicker {
  pp_p : list vec3;
  cam_rot : vec3 * vec3 * vec3;
  cam_trans : vec3;
  screen_dims : R * R;
  pixel_scale : R * R
}.

(** [M.T @ w] for the matrix with rows [r0], [r1], [r2] *)
Definition transpose_mul (m : vec3 * vec3 * vec3) (w : vec3) : vec3 :=
  let '(r0, r1, r2) := m in
  Vec3 (vx r0 * vx w + vx r1 * vy w + vx r2 * vz w)
       (vy r0 * vx w + vy r1 * vy w + vy r2 * vz w)
       (vz r0 * vx w + vz r1 * vy w + vz r2 * vz w).

Definition cam_min_view_distance : R := 0.
Definition selection_angle_tol : R := 1 / 100.

(** Camera position in world coordinates, [- M.T @ cam_m[0:3, 3:4]] *)
Definition ray_origin (pk : PointPicker) : vec3 :=
  vneg (transpose_mul (cam_rot pk) (cam_trans pk)).

(** Direction of the picker line through the pixel [posxy] *)
Definition ray_direction (pk : PointPicker) (posxy : R * R) : vec3 :=
  let cx := (fst posxy - fst (screen_dims pk) / 2) * fst (pixel_scale pk) in
  let cy := (snd posxy - snd (screen_dims pk) / 2) * snd (pixel_scale pk) in
  transpose_mul (cam_rot pk) (Vec3 cx cy (-1)).

(** [t = (v.T @ u) / (v.T @ v)] for one point *)
Definition ray_t (pk : PointPicker) (posxy : R * R) (q : vec3) : R :=
  let v := ray_direction pk posxy in
  let u := vsub q (ray_origin pk) in
  vdot v u / vdot v v.

(** [dist = norm(u - v * t)] for one point *)
Definition ray_dist (pk : PointPicker) (posxy : R * R) (q : vec3) : R :=
  let v := ray_direction pk posxy in
  let u := vsub q (ray_origin pk) in
  vnorm (vsub u (vscale v (ray_t pk posxy q))).

Definition angle_dist (pk : PointPicker) (posxy : R * R) (q : vec3) : R :=
  ray_dist pk posxy q / ray_t pk posxy q.

(** One entry of [in_view_tol] *)
Definition in_view_tol (pk : PointPicker) (posxy : R * R) (q : vec3) : bool :=
  (if Rlt_dec cam_min_view_distance (ray_t pk posxy q) then true else false)
  && (if Rlt_dec (angle_dist pk posxy q) selection_angle_tol then true else false).

(** The test of [in_view_tol] as a proposition: the points the picker
    considers. *)
Definition qualifies (pk : PointPicker) (posxy : R * R) (q : vec3) : Prop :=
  cam_min_view_distance < ray_t pk posxy q
  /\ angle_dist pk posxy q < selection_angle_tol.

(** [np.flatnonzero] of a mask *)
Definition flatnonzero (mask : list bool) : list nat :=
  map fst (filter (fun kb => snd kb = true) (zip (seq 0 (length mask)) mask)).

(** [np.argmin]: the first index of the least entry. *)
Fixpoint argmin_from (best_i : nat) (best : R) (k : nat) (l : list R) : nat :=
  match l with
  | [] => best_i
  | x :: l' =>
      if Rlt_dec x best then argmin_from k x (S k) l'
      else argmin_from best_i best (S k) l'
  end.

Definition argmin (l : list R) : option nat :=
  match l with
  | [] => None
  | x :: l' => Some (argmin_from 0 x 1 l')
  end.

(** What [PickAt] returns: an index with the coordinates of that point,
    or the pair of an empty index array and an empty 3 x 0 array. *)
Inductive pick_result : Type :=
| Picked (ID_selected : nat) (xyz : vec3)
| NoSelection.

Definition PickAt (pk : PointPicker) (posxy : R * R) : result pick_result :=
  let p := pp_p pk in
  let ID_selected := flatnonzero (map (in_view_tol pk posxy) p) in
  match ID_selected with
  | [] => Ok NoSelection
  | _ :: _ =>
      let* ads := mapR (fun i => match p !! i with
                                 | Some q => Ok (angle_dist pk posxy q)
                                 | None => Raise IndexError
                                 end) ID_selected in
      match argmin ads with
      | None => Raise ValueError
      | Some j =>
          match ID_selected !! j with
          | None => Raise IndexError
          | Some i =>
              match p !! i with
              | Some q => Ok (Picked i q)
              | None => Raise IndexError
              end
          end
      end
  end.

End RayPicker.

(** ** PointSetHolder (source lines 670-680)

    [points] is the 3 x N array, kept as the list of its N columns, so
    [np.append(self.points, points, axis=1)] is list append. *)

Record PointSetHolder : Type := MkPointSetHolder {
  points : list vec3;
  range_map : gmap string (nat * nat)
}.

(** [__init__] *)
Definition PointSetHolder_init : PointSetHolder := MkPointSetHolder [] ∅.

Definition AddPoints (self : PointSetHolder) (pts : list vec3) (name : string)
    : PointSetHolder :=
  MkPointSetHolder (points self ++ pts) (range_map self).

(** A series of calls on a fresh holder. *)
Definition add_all (calls : list (list vec3 * string)) : PointSetHolder :=
  foldl (fun h c => AddPoints h (fst c) (snd c)) PointSetHolder_init calls.

(** ** GUIControl.RemoveObjects (source lines 1347-1355) *)

(** The fields of [GUIControl] the removal touches.  Toolkit objects are
    opaque handles; [renderers] keeps the insertion order of the dict;
    [printed] collects what [dbg_print] writes. *)
Record GUIControl : Type := MkGUIControl {
  renderers : list (string * nat);
  scene_objects : gmap string nat;
  main_renderer_name : option string;
  printed : list string
}.

Definition dbg_print_warning (msg : string) : stM GUIControl unit :=
  fun g => (Ok tt, MkGUIControl (renderers g) (scene_objects g)
                     (main_renderer_name g) (printed g ++ ["Warning: " +:+ msg])).

Definition renderer_named (g : GUIControl) (name : string) : option nat :=
  snd <$> find (fun kv => String.eqb (fst kv) name) (renderers g).

(** [GetMainRenderer]: an unset or empty name is false in Python. *)
Definition GetMainRenderer : stM GUIControl (option nat) :=
  do* g := st_get in
  match main_renderer_name g with
  | Some (String c n) =>
      do* r := st_some KeyError (renderer_named g (String c n)) in st_ret (Some r)
  | _ =>
      match renderers g with
      | (first, r) :: _ =>
          do* _ := st_put (MkGUIControl (renderers g) (scene_objects g)
                             (Some first) (printed g)) in
          st_ret (Some r)
      | [] => st_ret None
      end
  end.

(** The name [re] is bound nowhere in the module (the renderer was bound
    to [ren] on the line before), so evaluating [re.RemoveActor(obj)]
    raises [NameError]. *)
Definition re_RemoveActor (obj : nat) : stM GUIControl unit :=
  st_raise NameError.

Definition del_scene_object (name : string) : stM GUIControl unit :=
  do* g := st_get in
  match scene_objects g !! name with
  | Some _ => st_put (MkGUIControl (renderers g) (delete name (scene_objects g))
                        (main_renderer_name g) (printed g))
  | None => st_raise KeyError
  end.

Definition RemoveObjects (name : string) : stM GUIControl unit :=
  do* g := st_get in
  match scene_objects g !! name with
  | None => dbg_print_warning ("RemoveObjects(): object non-exist: " +:+ name)
  | Some obj =>
      do* ren := GetMainRenderer in
      do* _ := re_RemoveActor obj in
      del_scene_object name
  end.

(** A registry as the default scene leaves it, reduced to one object. *)
Definition example_gui : GUIControl :=
  MkGUIControl [("0", 1); ("1", 2)] {["3d_cursor" := 7]} None [].

(** ** Reading a merged configuration

    [conf[k1][k2]...]: following keys down nested dicts, as the callers of
    [MergeFullDict] read the result. *)
Fixpoint get_path (v : pyval) (path : list string) : option pyval :=
  match path with
  | [] => Some v
  | k :: path' =>
      match v with
      | PDict d =>
          match dict_get k d with
          | Some w => get_path w path'
          | None => None
          end
      | _ => None
      end
  end.

(** The loop of [DeepUpdate] over the items of the update, with the
    function called on nested dicts as a parameter; [DeepUpdate] on a
    dict is this loop with [DeepUpdate] itself. *)
Section DeepUpdateLoop.
Variable rec : pyval -> pyval -> merged.

Fixpoint DeepUpdate_items
    (items : list (string * pyval)) (cur : pyval) (log : list string) : merged :=
  match items with
  | [] => Merged cur log None
  | (key, value) :: rest =>
      match cur with
      | PDict d =>
          match dict_get key d with
          | None => DeepUpdate_items rest (PDict (dict_set key value d)) log
          | Some old =>
              match value with
              | PDict _ =>
                  let r := rec old value in
                  let cur' := PDict (dict_set key (m_value r) d) in
                  match m_exn r with
                  | Some e => Merged cur' (log ++ m_log r) (Some e)
                  | None => DeepUpdate_items rest cur' (log ++ m_log r)
                  end
              | _ =>
                  if pytype_eqb (type_of old) (type_of value)
                  then DeepUpdate_items rest (PDict (dict_set key value d)) log
                  else DeepUpdate_items rest cur (log ++ [mismatch_warning])
              end
          end
      | _ => Merged cur log (Some TypeError)
      end
  end.

End DeepUpdateLoop.

(** A Python dict has each key once, at every level. *)
Fixpoint unique_keys (v : pyval) : Prop :=
  match v with
  | PDict d =>
      NoDup (map fst d)
      /\ (fix all (d : list (string * pyval)) : Prop :=
            match d with
            | [] => True
            | (_, w) :: d' => unique_keys w /\ all d'
            end) d
  | _ => True
  end.

(** The default scene's ["volume"] property section and a user file that
    overrides its two scales, as configuration values. *)
Definition scene_base : pyval :=
  PDict [("object_properties",
          PDict [("volume",
                  PDict [("opacity_transfer_function",
                          PDict [("opacity_scale", PFloat 40)]);
                         ("color_transfer_function",
                          PDict [("trans_scale", PFloat 40)]);
                         ("interpolation", PStr "cubic")])])].

Definition scene_override : pyval :=
  PDict [("object_properties",
          PDict [("volume",
                  PDict [("opacity_transfer_function",
                          PDict [("opacity_scale", PFloat 2)]);
                         ("interpolation", PStr "linear")])]);
         ("objects", PDict [])].

(** Every path readable in [c] is readable in [c'], with a value of the
    same type. *)
Definition keeps_types (c c' : pyval) : Prop :=
  forall path old,
    get_path c path = Some old ->
    exists new, get_path c' path = Some new /\ type_of new = type_of old.

(** Merging [value] again under a key that holds [e] changes nothing. *)
Definition step_noop (e value : pyval) : Prop :=
  match value with
  | PDict _ => m_value (DeepUpdate e value) = e /\ m_exn (DeepUpdate e value) = None
  | _ => pytype_eqb (type_of e) (type_of value) = true -> e = value
  end.

Definition fixed_for (c : pyval) (key : string) (value : pyval) : Prop :=
  exists d e, c = PDict d /\ dict_get key d = Some e /\ step_noop e value.

(** ** What a rescaling may change

    [h'] differs from [h] at most in the two curves of the property at
    [a]: the same addresses are in use, every other property is the same,
    and the property at [a] has the same authored configuration, the same
    source property, and curves with the same number of nodes, each node
    carrying the values of some node of that curve in [h]. *)
Definition same_but_curves (p p' : VolumeProperty) : Prop :=
  length (ScalarOpacity p') = length (ScalarOpacity p)
  /\ length (RGBTransferFunction p') = length (RGBTransferFunction p)
  /\ prop_conf p' = prop_conf p
  /\ ref_prop p' = ref_prop p
  /\ (forall n', n' ∈ ScalarOpacity p' ->
      exists n, n ∈ ScalarOpacity p /\ otf_values n' = otf_values n)
  /\ (forall n', n' ∈ RGBTransferFunction p' ->
      exists n, n ∈ RGBTransferFunction p /\ ctf_values n' = ctf_values n).

Definition only_curves_changed (a : nat) (h h' : prop_store) : Prop :=
  forall b,
    match h !! b, h' !! b with
    | Some p, Some p' => (b <> a -> p' = p) /\ same_but_curves p p'
    | None, None => True
    | _, _ => False
    end.

(** A computation that keeps a relation to the store [h0] it started
    from. *)
Definition keeps_rel (R : prop_store -> prop_store -> Prop) (h0 : prop_store)
    {A : Type} (m : stM prop_store A) : Prop :=
  forall h, R h0 h -> R h0 (snd (m h)).

(** ** GUIControl.AddObjectProperty and ModifyObjectProperty
    (source lines 1055-1127)

    The part of [GUIControl] these two methods use: the registry of
    property names and the store of the property objects it refers to.
    What [dbg_print] writes is not part of this state. *)

Record PropertyBook : Type := MkPropertyBook {
  object_properties : gmap string nat;
  property_store : prop_store
}.

(** Running a store computation inside the book. *)
Definition in_store {A : Type} (m : stM prop_store A) : stM PropertyBook A :=
  fun b =>
    let '(r, h) := m (property_store b) in
    (r, MkPropertyBook (object_properties b) h).

(** [self.object_properties[name]] *)
Definition property_named (name : string) : stM PropertyBook nat :=
  do* b := st_get in st_some KeyError (object_properties b !! name).

(** [self.object_properties.update({name: obj})] *)
Definition register_property (name : string) (obj : nat) : stM PropertyBook unit :=
  do* b := st_get in
  st_put (MkPropertyBook (<[name := obj]> (object_properties b)) (property_store b)).

(** A new property object, at an address not in use. *)
Definition new_property (p : VolumeProperty) : stM PropertyBook nat :=
  do* b := st_get in
  let a := fresh (dom (property_store b)) in
  do* _ := st_put (MkPropertyBook (object_properties b)
                     (<[a := p]> (property_store b))) in
  st_ret a.

Definition ModifyObjectProperty (name : string) (conf : PropConf)
    : stM PropertyBook unit :=
  do* obj_prop := property_named name in
  if String.prefix "volume" name then
    do* _ := match opacity_transfer_function conf with
             | Some otf_conf =>
                 match opacity_scale otf_conf with
                 | Some otf_s =>
                     do* _ := in_store (UpdatePropertyOTFScale obj_prop (Some otf_s)) in
                     st_ret tt
                 | None => st_ret tt
                 end
             | None => st_ret tt
             end in
    match color_transfer_function conf with
    | Some ctf_conf =>
        match trans_scale ctf_conf with
        | Some ctf_s =>
            do* _ := in_store (UpdatePropertyCTFScale obj_prop (Some ctf_s)) in
            st_ret tt
        | None => st_ret tt
        end
    | None => st_ret tt
    end
  else st_ret tt.

Section AddObjectProperty.

(** The curves a property gets from its own sections (source lines
    1074-1107), which depend on the toolkit's default curves, are a
    parameter. *)
Variable own_curves : PropConf -> result (list otf_node * list ctf_node).

(** [copy_from] is the value under that key of [prop_conf], if present.
    With a name that does not start with ["volume"], the last line reads
    [object_property], which was never assigned: [UnboundLocalError], a
    [NameError]. *)
Definition AddObjectProperty (name : string) (copy_from : option string)
    (conf : PropConf) : stM PropertyBook unit :=
  if String.prefix "volume" name then
    match copy_from with
    | Some source =>
        do* ref_prop := property_named source in
        do* ref := in_store (deref ref_prop) in
        do* volume_property :=
          new_property (MkVolumeProperty (ScalarOpacity ref)
                          (RGBTransferFunction ref) conf (Some ref_prop)) in
        do* _ := register_property name volume_property in
        ModifyObjectProperty name conf
    | None =>
        match own_curves conf with
        | Ok (otf, ctf) =>
            do* volume_property :=
              new_property (MkVolumeProperty otf ctf conf None) in
            register_property name volume_property
        | Raise e => st_raise e
        | OutOfFuel => fun b => (OutOfFuel, b)
        end
    end
  else st_raise NameError.

End AddObjectProperty.

(** The default scene's ["volume"] property, registered. *)
Definition default_book : PropertyBook :=
  MkPropertyBook {[ "volume" := 0 ]} default_store.

(** The configuration [EasyObjectImporter] writes for [colorscale = s]:
    [copy_from] is ["volume"], the two sections hold a scale only. *)
Definition colorscale_conf (s : Q) : PropConf :=
  MkPropConf (Some (OtfConf None (Some s))) (Some (CtfConf None (Some s))).

(** ** The stages of SplitSWCTree

    Column 1 of the relabelled [tr_idx] (source lines 475-482): the parent
    of every row as a row index, [-1] for the root. *)
Definition relabel_parents (tr0 : list swc_row) : result (list Z) :=
  let ids := map row_id tr0 in
  let parents := map row_parent tr0 in
  let* max_id := max_list ids in
  let* arr_full := np_zeros (int32_wrap (max_id + 2)) in
  let* arr_full := np_set arr_full (-1) (-1)%Z in
  let* arr_full := assign_arange arr_full ids 0 in
  let* _ := mapR (np_get arr_full) ids in
  mapR (np_get arr_full) parents.

(** [n_child] (source lines 484-485) *)
Definition child_counts (tr0 : list swc_row) (parent : list Z) : list Z :=
  histogram (tail parent) (np_arange (length tr0)).

(** Ids the relabelling handles as intended: distinct, non-negative, and
    every parent id either the sentinel [-1] or the id of a row. *)
Definition proper_ids (tr0 : list swc_row) : Prop :=
  NoDup (map row_id tr0)
  /\ Forall (fun r => (0 <= row_id r)%Z) tr0
  /\ Forall (fun r => row_parent r = (-1)%Z \/ row_parent r ∈ map row_id tr0) tr0.

(** A filament as the walk builds it, leaf first: each entry is followed
    by its parent. *)
Fixpoint is_chain (parent : list Z) (filament : list Z) : Prop :=
  match filament with
  | x :: ((y :: _) as filament') =>
      np_get parent x = Ok y /\ is_chain parent filament'
  | _ => True
  end.

(** The row index of a parent id: [-1] for the sentinel. *)
Definition parent_index (ids : list Z) (pid : Z) : Z :=
  if (pid =? -1)%Z then (-1)%Z else default (-1)%Z (index_of ids pid).

(** One segment, as [one_process] returns it: root end first. *)
Definition segment_shape (n_child parent : list Z) (eid : Z) (seg : list Z)
    : Prop :=
  exists top middle,
    seg = top ++ middle ++ [eid]
    /\ Forall (fun e => np_get n_child e = Ok 1%Z) middle
    /\ ((top = [] /\ exists h, head seg = Some h /\ np_get parent h = Ok (-1)%Z)
        \/ exists t c, top = [t] /\ np_get n_child t = Ok c /\ c <> 1%Z).

(** Ids for which [max_id + 2] stays inside [int32]. *)
Definition int32_ids (tr0 : list swc_row) : Prop :=
  Forall (fun r => (row_id r < 2147483646)%Z) tr0.

(** The order the source assumes ("tr is well and sorted"): distinct
    non-negative ids, and every parent id is -1 or the id of an earlier
    row. *)
Definition sorted_rows (tr0 : list swc_row) : Prop :=
  NoDup (map row_id tr0)
  /\ Forall (fun r => (0 <= row_id r)%Z) tr0
  /\ forall j r, tr0 !! j = Some r ->
       row_parent r = (-1)%Z
       \/ exists k, k < j /\ map row_id tr0 !! k = Some (row_parent r).

(** ** Smooth rotation on a timer (source lines 683-732)

    Times are exact rationals.  The camera is kept as the list of the
    angles passed to [Azimuth], in call order; the clock ([time.time()])
    and the timer id the interactor hands out are inputs. *)

Record execSmoothRotation : Type := MkSmoothRotation {
  degree_per_sec : Q;
  rot_time_start : option Q;
  time_last_update : option Q;
  azimuth_calls : list Q;
  render_calls : nat
}.

(** [__init__]: both times are [None] until [startat]. *)
Definition execSmoothRotation_init (dps : Q) : execSmoothRotation :=
  MkSmoothRotation dps None None [] 0.

Definition startat (time_start : Q) (r : execSmoothRotation) : execSmoothRotation :=
  MkSmoothRotation (degree_per_sec r) (Some time_start) (Some time_start)
    (azimuth_calls r) (render_calls r).

(** [__call__]: comparing or subtracting with [None] raises [TypeError]. *)
Definition execSmoothRotation_call (time_now : Q) : stM execSmoothRotation unit :=
  fun r =>
    match rot_time_start r with
    | None => (Raise TypeError, r)
    | Some ts =>
        if Qlt_le_dec time_now ts then (Ok tt, r)
        else match time_last_update r with
             | None => (Raise TypeError, r)
             | Some tl =>
                 let t_last_elapsed := (time_now - tl)%Q in
                 (Ok tt,
                  MkSmoothRotation (degree_per_sec r) (Some ts) (Some time_now)
                    (azimuth_calls r ++ [(degree_per_sec r * t_last_elapsed)%Q])
                    (S (render_calls r)))
             end
    end.

Record timerHandler : Type := MkTimerHandler {
  exec_obj : execSmoothRotation;
  timerId : option Z;
  th_time_start : Q;
  duration : Q;
  observers : nat;
  destroyed_timers : list Z
}.

Definition timerHandler_init (dur : Q) (e : execSmoothRotation) : timerHandler :=
  MkTimerHandler e None 0%Q dur 0 [].

(** [stop]: [if self.timerId] is false for [None] and for the id 0. *)
Definition stop (h : timerHandler) : timerHandler :=
  match timerId h with
  | Some id =>
      if (id =? 0)%Z then h
      else MkTimerHandler (exec_obj h) (timerId h) (th_time_start h) (duration h)
             (observers h) (destroyed_timers h ++ [id])
  | None => h
  end.

(** [start], at clock [now], the interactor answering [new_id] to
    [CreateRepeatingTimer]. *)
Definition start (now : Q) (new_id : Z) (h : timerHandler) : timerHandler :=
  MkTimerHandler (startat now (exec_obj h)) (Some new_id) now (duration h)
    (S (observers h)) (destroyed_timers h).

(** [callback], at clock [now]. *)
Definition callback (now : Q) : stM timerHandler unit :=
  fun h =>
    let expired := Qlt_le_dec (duration h) (now - th_time_start h) in
    let h1 := if expired then stop h else h in
    let t_now := if expired then (th_time_start h + duration h)%Q else now in
    let '(r, e) := execSmoothRotation_call t_now (exec_obj h1) in
    (r, MkTimerHandler e (timerId h1) (th_time_start h1) (duration h1)
          (observers h1) (destroyed_timers h1)).

(** The interactor delivering one [TimerEvent] per clock reading. *)
Fixpoint timer_events (clocks : list Q) : stM timerHandler unit :=
  match clocks with
  | [] => st_ret tt
  | now :: clocks' => do* _ := callback now in timer_events clocks'
  end.

Definition Qsum (l : list Q) : Q := fold_right Qplus 0%Q l.

(** What holds of a started handler between timer events. *)
Definition rotation_inv (dps dur t0 : Q) (h : timerHandler) : Prop :=
  th_time_start h = t0 /\ duration h = dur
  /\ degree_per_sec (exec_obj h) = dps
  /\ rot_time_start (exec_obj h) = Some t0
  /\ length (azimuth_calls (exec_obj h)) = render_calls (exec_obj h)
  /\ exists tl,
       time_last_update (exec_obj h) = Some tl
       /\ (t0 <= tl)%Q /\ (tl <= t0 + dur)%Q
       /\ (Qsum (azimuth_calls (exec_obj h)) == dps * (tl - t0))%Q.

(** The time handed to the rotation for a clock reading. *)
Definition clamped (dur t0 now : Q) : Q :=
  if Qlt_le_dec dur (now - t0) then (t0 + dur)%Q else now.

(** ** Keyboard modifiers and the left mouse button (source lines 772-797)

    The modifier keys the interactor reports are inputs.  Strings are ASCII:
    [str.upper] is modelled on the letters a-z only. *)

Definition upper_char (c : Ascii.ascii) : Ascii.ascii :=
  let n := Ascii.nat_of_ascii c in
  if (97 <=? n) && (n <=? 122) then Ascii.ascii_of_nat (n - 32) else c.

(** [u.upper()] *)
Fixpoint upper (u : string) : string :=
  match u with
  | EmptyString => EmptyString
  | String c u' => String (upper_char c) (upper u')
  end.

(** The characters ['C'], ['A'] and ['S'] *)
Definition char_C : Ascii.ascii := Ascii.ascii_of_nat 67.
Definition char_A : Ascii.ascii := Ascii.ascii_of_nat 65.
Definition char_S : Ascii.ascii := Ascii.ascii_of_nat 83.

(** ['C' in u], for a one-character string *)
Fixpoint char_in (c : Ascii.ascii) (u : string) : bool :=
  match u with
  | EmptyString => false
  | String d u' => Ascii.eqb c d || char_in c u'
  end.

Definition is_ascii (u : string) : Prop :=
  Forall (fun c => Ascii.nat_of_ascii c < 128) (String.list_ascii_of_string u).

(** The expression
    ['C' if c else ' ' + 'A' if a else ' ' + 'S' if s else ' '].  A
    conditional expression binds weaker than [+] and nests to the right,
    so this reads ['C' if c else ((' ' + 'A') if a else ((' ' + 'S') if s
    else ' '))]. *)
Definition modifier_text (c a s : bool) : string :=
  if c then "C"
  else if a then " " +:+ "A"
  else if s then " " +:+ "S"
  else " ".

Definition is_kbd_modifier (ctrl alt shift : bool) (u : string) : bool :=
  let m := modifier_text ctrl alt shift in
  let u := upper u in
  let p := modifier_text (char_in char_C u) (char_in char_A u) (char_in char_S u) in
  String.eqb p m.

(** The first of Ctrl, Alt, Shift that is set. *)
Inductive modifier : Type := Ctrl | Alt | Shift.

Definition first_modifier (c a s : bool) : option modifier :=
  if c then Some Ctrl else if a then Some Alt else if s then Some Shift else None.

(** The calls the style makes on its base class. *)
Inductive button : Type := LeftButton | MiddleButton.

Inductive base_call : Type :=
| ButtonDown (b : button)
| ButtonUp (b : button).

Record MyInteractorStyle : Type := MkStyle {
  left_button_press_event_release_fn : option button;
  base_calls : list base_call
}.

(** [__init__] *)
Definition MyInteractorStyle_init : MyInteractorStyle := MkStyle None [].

Definition left_button_press_event (ctrl alt shift : bool)
    (self : MyInteractorStyle) : MyInteractorStyle :=
  if is_kbd_modifier ctrl alt shift ""
  then MkStyle (Some LeftButton) (base_calls self ++ [ButtonDown LeftButton])
  else if is_kbd_modifier ctrl alt shift "S"
  then MkStyle (Some MiddleButton) (base_calls self ++ [ButtonDown MiddleButton])
  else self.

Definition left_button_release_event (self : MyInteractorStyle)
    : MyInteractorStyle :=
  match left_button_press_event_release_fn self with
  | Some b => MkStyle (left_button_press_event_release_fn self)
                (base_calls self ++ [ButtonUp b])
  | None => MkStyle None (base_calls self ++ [ButtonUp LeftButton])
  end.

(** Left-button events as the interactor delivers them. *)
Inductive left_event : Type :=
| Press (ctrl alt shift : bool)
| Release.

Definition deliver (self : MyInteractorStyle) (e : left_event) : MyInteractorStyle :=
  match e with
  | Press c a s => left_button_press_event c a s self
  | Release => left_button_release_event self
  end.

Definition is_release (e : left_event) : bool :=
  match e with Release => true | Press _ _ _ => false end.

(** The button a press goes down with, if any. *)
Definition press_button (e : left_event) : option button :=
  match e with
  | Press false false false => Some LeftButton
  | Press false false true => Some MiddleButton
  | _ => None
  end.

(** Every [Up] is the one of the latest [Down] before it, the left
    button's if there is none; [cur] is the latest [Down] so far. *)
Fixpoint ups_follow_downs (cur : option button) (calls : list base_call) : Prop :=
  match calls with
  | [] => True
  | ButtonDown b :: calls' => ups_follow_downs (Some b) calls'
  | ButtonUp b :: calls' =>
      b = default LeftButton cur /\ ups_follow_downs cur calls'
  end.

Definition downs (calls : list base_call) : list button :=
  omap (fun c => match c with ButtonDown b => Some b | ButtonUp _ => None end) calls.

Definition ups (calls : list base_call) : list button :=
  omap (fun c => match c with ButtonUp b => Some b | ButtonDown _ => None end) calls.

(** ** Naming imported objects (source lines 963-968, 1408-1409, 1332)

    [GUIControl.GetNonconflitName]: for a [name_book] other than ['scene']
    and ['property'] the local [index] is never bound, and reading it
    raises [UnboundLocalError], a [NameError]. *)
Definition GUIControl_GetNonconflitName (fuel : nat)
    (scene_objects object_properties : gmap string nat)
    (name_prefix name_book : string) : result string :=
  let* index :=
    if String.eqb name_book "scene" then Ok (dom scene_objects)
    else if String.eqb name_book "property" then Ok (dom object_properties)
    else Raise NameError in
  match GetNonconflitName fuel name_prefix index with
  | Some name => Ok name
  | None => OutOfFuel
  end.

(** Objects registered one after another, each under the name asked for
    it just before, as [EasyObjectImporter] does:
    [name = self.GetNonconflitName(prefix)], then [AddObjects] ends on
    [self.scene_objects.update({name: scene_object})]. *)
Fixpoint import_objects (fuel : nat) (name_prefix : string) (objs : list nat)
    (scene_objects object_properties : gmap string nat)
    : result (list string * gmap string nat) :=
  match objs with
  | [] => Ok ([], scene_objects)
  | obj :: objs' =>
      let* name := GUIControl_GetNonconflitName fuel scene_objects
                     object_properties name_prefix "scene" in
      let* rest := import_objects fuel name_prefix objs'
                     (<[name := obj]> scene_objects) object_properties in
      Ok (name :: fst rest, snd rest)
  end.

(** A picker looking down the negative z axis from the origin, with one
    point a little off the axis and one on it. *)
Definition axis_picker : PointPicker :=
  MkPointPicker
    [Vec3 (1 / 1000) 0 (-1); Vec3 0 0 (-1)]
    (Vec3 1 0 0, Vec3 0 1 0, Vec3 0 0 1)
    (Vec3 0 0 0) (0%R, 0%R) (1%R, 1%R).

(** ** Cameras (source lines 595-602 and 799-812)

    A camera is kept as its position and its focal point, over the real
    numbers.  [SetRoll] and [SetViewUp] turn a camera about its own axis
    and move neither of the two, so they are left out. *)

Section Cameras.
Local Open Scope R_scope.

Record vtkCamera : Type := MkCamera { Position : vec3; FocalPoint : vec3 }.

Definition vadd (a b : vec3) : vec3 := Vec3 (vx a + vx b) (vy a + vy b) (vz a + vz b).
Definition vdiv (a : vec3) (s : R) : vec3 := Vec3 (vx a / s) (vy a / s) (vz a / s).

(** [AlignCameraDirection(cam2, cam1, dist)] *)
Definition AlignCameraDirection (cam2 cam1 : vtkCamera) (dist : R) : vtkCamera :=
  let r := vsub (Position cam1) (FocalPoint cam1) in
  let r := vscale (vdiv r (vnorm r)) dist in
  MkCamera r (Vec3 0 0 0).

(** [mouse_wheel_action], on the active camera of the first renderer *)
Definition mouse_wheel_action (direction : Z) (cam : vtkCamera) : vtkCamera :=
  let fp := FocalPoint cam in
  let p := Position cam in
  let new_p := vadd fp (vscale (vsub p fp) (powerRZ (12 / 10) (- direction))) in
  MkCamera new_p fp.

End Cameras.

(** ** The pick ray, in the words of the specification

    The pick ray is the line through the camera position and the point of
    the view plane that belongs to the pixel.  [cam_m] takes world
    coordinates to camera coordinates ([vec_cam = cam_m * vec_world]); the
    camera sits at the origin of its own coordinates and looks down the
    negative z axis, the view plane at distance 1. *)

Section PickRay.
Local Open Scope R_scope.

(** The point [o + v * s] of the picker line [r = v * t + o] *)
Definition pick_ray (pk : PointPicker) (posxy : R * R) (s : R) : vec3 :=
  vadd (ray_origin pk) (vscale (ray_direction pk posxy) s).

(** [M @ w] for the matrix with rows [r0], [r1], [r2] *)
Definition mat_mul (m : vec3 * vec3 * vec3) (w : vec3) : vec3 :=
  let '(r0, r1, r2) := m in Vec3 (vdot r0 w) (vdot r1 w) (vdot r2 w).

(** World coordinates to camera coordinates: [cam_m] applied to a point. *)
Definition to_camera (pk : PointPicker) (w : vec3) : vec3 :=
  vadd (mat_mul (cam_rot pk) w) (cam_trans pk).

(** The rotation block of a rigid camera matrix has orthonormal rows. *)
Definition orthonormal (m : vec3 * vec3 * vec3) : Prop :=
  let '(r0, r1, r2) := m in
  vdot r0 r0 = 1 /\ vdot r1 r1 = 1 /\ vdot r2 r2 = 1
  /\ vdot r0 r1 = 0 /\ vdot r0 r2 = 0 /\ vdot r1 r2 = 0.

(** The point of the view plane that belongs to a pixel, in camera
    coordinates: the offset from the screen centre times the pixel scale,
    at depth 1 in front of the camera. *)
Definition pixel_on_view_plane (pk : PointPicker) (posxy : R * R) : vec3 :=
  Vec3 ((fst posxy - fst (screen_dims pk) / 2) * fst (pixel_scale pk))
       ((snd posxy - snd (screen_dims pk) / 2) * snd (pixel_scale pk))
       (-1).

End PickRay.

(* ===================================================================== *)
(** * Part II: lemmas and theorems                                        *)
(* ===================================================================== *)

(** ** GetNonconflitName *)

Section NameAllocator.

Lemma parse_nat_zeros (n : nat) (s : string) :
  parse_nat (zeros n +:+ s) = parse_nat s.
Proof.
  induction n as [|n IH]; [reflexivity|].
  rewrite <- IH. unfold parse_nat.
  change (zeros (S n) +:+ s) with (String zero_char (zeros n +:+ s)).
  cbn [NilEmpty.uint_of_string].
  destruct (NilEmpty.uint_of_string (zeros n +:+ s)) as [d|]; reflexivity.
Qed.

Lemma parse_nat_fmt_03d (i : nat) : parse_nat (fmt_03d i) = Some i.
Proof.
  unfold fmt_03d. rewrite parse_nat_zeros. unfold parse_nat.
  rewrite NilEmpty.usu. cbn. by rewrite Unsigned.of_to.
Qed.

Lemma fmt_03d_inj (i j : nat) : fmt_03d i = fmt_03d j -> i = j.
Proof.
  intros E. apply (f_equal parse_nat) in E.
  rewrite !parse_nat_fmt_03d in E. congruence.
Qed.

Lemma string_app_length (s t : string) :
  String.length (s +:+ t) = String.length s + String.length t.
Proof.
  induction s as [|c s IH]; [reflexivity|].
  change (String c s +:+ t) with (String c (s +:+ t)).
  cbn [String.length]. by rewrite IH.
Qed.

Lemma candidate_inj (prefix : string) (j k : nat) :
  candidate prefix j = candidate prefix k -> j = k.
Proof.
  destruct j as [|j], k as [|k]; cbn; intros E; [done | | |].
  - apply (f_equal String.length) in E.
    rewrite !string_app_length in E. cbn in E. lia.
  - apply (f_equal String.length) in E.
    rewrite !string_app_length in E. cbn in E. lia.
  - apply String.app_inj in E. apply String.app_inj in E.
    by apply fmt_03d_inj.
Qed.

(** Pigeonhole: the candidates are pairwise distinct, so at most
    [size name_set] of them in a row can be taken. *)
Lemma candidates_taken_bound (prefix : string) (name_set : gset string) (m : nat) :
  (forall k, k < m -> candidate prefix k ∈ name_set) -> m <= size name_set.
Proof.
  intros Hin.
  set (l := candidate prefix <$> seq 0 m).
  assert (Hnd : NoDup l).
  { apply NoDup_fmap_2_strong; [|apply NoDup_seq].
    intros x y _ _. apply candidate_inj. }
  assert (Hsub : (list_to_set l : gset string) ⊆ name_set).
  { intros x Hx. apply elem_of_list_to_set in Hx.
    apply list_elem_of_fmap in Hx as (k & -> & Hk).
    apply elem_of_seq in Hk. apply Hin. lia. }
  apply subseteq_size in Hsub.
  rewrite size_list_to_set in Hsub by done.
  unfold l in Hsub. by rewrite length_fmap, length_seq in Hsub.
Qed.

Lemma GetNonconflitName_loop_spec (prefix : string) (name_set : gset string) :
  forall fuel m,
    (forall k, k < m -> candidate prefix k ∈ name_set) ->
    size name_set - m < fuel ->
    exists r,
      GetNonconflitName_loop fuel prefix name_set (S m) (candidate prefix m)
        = Some (candidate prefix r)
      /\ m <= r
      /\ (candidate prefix r ∉ name_set)
      /\ (forall k, k < r -> candidate prefix k ∈ name_set).
Proof.
  induction fuel as [|fuel IH]; intros m Hm Hfuel; [lia|].
  cbn [GetNonconflitName_loop]. case_decide as Hin.
  - assert (Hm' : forall k, k < S m -> candidate prefix k ∈ name_set).
    { intros k Hk. destruct (decide (k = m)) as [->|]; [done|]. apply Hm. lia. }
    pose proof (candidates_taken_bound _ _ _ Hm') as Hb.
    destruct (IH (S m) Hm') as (r & Hr & Hle & Hout & Hall); [lia|].
    exists r. split; [exact Hr|]. split; [lia|done].
  - exists m. done.
Qed.

Lemma GetNonconflitName_fresh (prefix : string) (name_set : gset string) :
  exists r,
    (forall fuel, size name_set < fuel ->
       GetNonconflitName fuel prefix name_set = Some (candidate prefix r))
    /\ (candidate prefix r ∉ name_set)
    /\ (forall k, k < r -> candidate prefix k ∈ name_set).
Proof.
  destruct (GetNonconflitName_loop_spec prefix name_set (S (size name_set)) 0)
    as (r & Hr & _ & Hout & Hall); [lia | lia |].
  exists r. split; [|done].
  intros fuel Hfuel.
  destruct (GetNonconflitName_loop_spec prefix name_set fuel 0)
    as (r' & Hr' & _ & Hout' & Hall'); [lia | lia |].
  unfold GetNonconflitName. cbn [candidate] in Hr'. rewrite Hr'.
  f_equal. f_equal.
  destruct (Nat.lt_trichotomy r r') as [Hlt | [-> | Hlt]]; [|done|].
  - by apply Hall' in Hlt.
  - by apply Hall in Hlt.
Qed.

End NameAllocator.

(** C7. [GetNonconflitName] terminates on every prefix and finite name
    set (any fuel above the size of the set is enough).  It returns the
    prefix itself when the prefix is not in the set; otherwise it returns
    [prefix + "." + counter] for the smallest positive counter, printed
    with at least three zero-padded digits, whose name is not in the set.
    In particular it maps ["x"] to ["x"] over the empty set, to ["x.001"]
    over [{"x"}] and to ["x.002"] over [{"x", "x.001"}]. *)
Theorem GetNonconflitName_spec (prefix : string) (name_set : gset string) :
  (exists name,
     (forall fuel, size name_set < fuel ->
        GetNonconflitName fuel prefix name_set = Some name)
     /\ (name ∉ name_set)
     /\ (prefix ∉ name_set -> name = prefix)
     /\ (prefix ∈ name_set ->
         exists counter,
           1 <= counter
           /\ name = prefix +:+ "." +:+ fmt_03d counter
           /\ (forall j, 1 <= j < counter ->
                 prefix +:+ "." +:+ fmt_03d j ∈ name_set)))
  /\ (forall fuel, 0 < fuel -> GetNonconflitName fuel "x" ∅ = Some "x")
  /\ (forall fuel, 1 < fuel -> GetNonconflitName fuel "x" {["x"]} = Some "x.001")
  /\ (forall fuel, 2 < fuel ->
        GetNonconflitName fuel "x" {["x"; "x.001"]} = Some "x.002").
Proof.
  split.
  - destruct (GetNonconflitName_fresh prefix name_set) as (r & Hret & Hout & Hall).
    exists (candidate prefix r). repeat split; try done.
    + intros Hp. destruct r as [|r]; [done|].
      exfalso. apply Hp. apply (Hall 0). lia.
    + intros Hp. destruct r as [|r]; [done|].
      exists (S r). split; [lia|]. split; [done|].
      intros j Hj. destruct j as [|j]; [lia|].
      apply (Hall (S j)). lia.
  - repeat split; intros fuel Hfuel.
    + destruct fuel as [|fuel]; [lia|]. reflexivity.
    + do 2 (destruct fuel as [|fuel]; [lia|]). reflexivity.
    + do 3 (destruct fuel as [|fuel]; [lia|]). reflexivity.
Qed.

(** ** SplitSWCTree *)

Section SkeletonDecomposer.

Lemma bind_Ok {A B : Type} (r : result A) (k : A -> result B) (b : B) :
  bind r k = Ok b -> exists a, r = Ok a /\ k a = Ok b.
Proof. destruct r as [a| |]; cbn; [eauto | done | done]. Qed.

Lemma mapR_Ok_ext {A B : Type} (f g : A -> result B) (l : list A) :
  (forall a b, f a = Ok b -> g a = Ok b) ->
  forall bs, mapR f l = Ok bs -> mapR g l = Ok bs.
Proof.
  intros Hfg. induction l as [|a l IH]; intros bs; cbn; [done|].
  intros H. apply bind_Ok in H as (b & Hb & H).
  apply bind_Ok in H as (bs' & Hbs & H).
  by rewrite (Hfg _ _ Hb), (IH _ Hbs).
Qed.

(** More fuel never changes a result the walk has already produced. *)
Lemma walk_up_fuel_mono (n_child parent : list Z) (k : nat) :
  forall fuel i filament r,
    walk_up fuel n_child parent i filament = Ok r ->
    walk_up (fuel + k) n_child parent i filament = Ok r.
Proof.
  induction fuel as [|fuel IH]; intros i filament r; cbn; [done|].
  destruct (np_get n_child i) as [c| |]; cbn; [|done|done].
  destruct ((c =? 1)%Z && negb (i =? -1)%Z); [|done].
  destruct (np_get parent i) as [p| |]; cbn; [|done|done].
  apply IH.
Qed.

Lemma SplitSWCTree_fuel_mono (tr0 : list swc_row) (fuel k : nat) segs :
  SplitSWCTree fuel tr0 = Ok segs -> SplitSWCTree (fuel + k) tr0 = Ok segs.
Proof.
  unfold SplitSWCTree.
  destruct (max_list _) as [max_id| |]; cbn; [|done|done].
  destruct (np_zeros _) as [a0| |]; cbn; [|done|done].
  destruct (np_set a0 _ _) as [a1| |]; cbn; [|done|done].
  destruct (assign_arange a1 _ _) as [a2| |]; cbn; [|done|done].
  destruct (mapR (np_get a2) (map row_id tr0)) as [ids'| |]; cbn; [|done|done].
  destruct (mapR (np_get a2) (map row_parent tr0)) as [parent| |]; cbn; [|done|done].
  apply mapR_Ok_ext. intros eid seg. unfold one_process.
  destruct (np_get parent eid) as [p| |]; cbn; [|done|done].
  destruct (walk_up fuel _ _ _ _) as [fil| |] eqn:E; cbn; [|done|done].
  by rewrite (walk_up_fuel_mono _ _ k _ _ _ _ E).
Qed.

(** The splitter on the worked example, in index space (index = id - 1):
    four segments, none of which contains the last row. *)
Lemma SplitSWCTree_example (k : nat) :
  SplitSWCTree (5 + k) example_tree = Ok [[0]; [0; 1]; [0; 2]; [1; 3]]%Z.
Proof. apply SplitSWCTree_fuel_mono. vm_compute. reflexivity. Qed.

Lemma SplitSWCTree_example_any_fuel (fuel : nat) segs :
  SplitSWCTree fuel example_tree = Ok segs ->
  segs = [[0]; [0; 1]; [0; 2]; [1; 3]]%Z.
Proof.
  intros H.
  assert (Hk : SplitSWCTree (fuel + 5) example_tree = Ok segs)
    by (by apply SplitSWCTree_fuel_mono).
  replace (fuel + 5) with (5 + fuel) in Hk by lia.
  rewrite SplitSWCTree_example in Hk. congruence.
Qed.

End SkeletonDecomposer.

(** C1 (the code departs from the claim).  A root with one child
    satisfies the input invariants and the splitter returns no segment at
    all for it.  The worked example satisfies them too, the splitter
    returns on it, and the last node (id 5, index 4) is in none of the
    returned segments: the child-count histogram has one bin fewer than
    there are nodes, so the last row never starts a segment. *)
Theorem SplitSWCTree_misses_last_node :
  valid_tree two_node_tree = true
  /\ (forall k, SplitSWCTree (2 + k) two_node_tree = Ok [])
  /\ valid_tree example_tree = true
  /\ forall k, exists segs,
       SplitSWCTree (5 + k) example_tree = Ok segs
       /\ occurrences 4 segs = 0
       /\ forall seg, seg ∈ segs -> (4 : Z) ∉ seg.
Proof.
  split; [vm_compute; reflexivity|].
  split; [intros k; apply SplitSWCTree_fuel_mono; vm_compute; reflexivity|].
  split; [vm_compute; reflexivity|].
  intros k. eexists. split; [apply SplitSWCTree_example|].
  split; [vm_compute; reflexivity|].
  intros seg Hseg Hin.
  repeat (apply elem_of_cons in Hseg as [-> | Hseg];
          [repeat (apply elem_of_cons in Hin as [Hin | Hin]; [done|]);
           by apply elem_of_nil in Hin|]).
  by apply elem_of_nil in Hseg.
Qed.

(** C2 (as stated, refuted).  On the worked example the splitter never
    returns exactly three segments that cover all five nodes with every
    leaf in exactly one of them. *)
Lemma SplitSWCTree_example_not_three :
  ~ exists fuel segs,
      SplitSWCTree fuel example_tree = Ok segs
      /\ length segs = 3
      /\ (forall i : Z, (0 <= i < 5)%Z -> 1 <= occurrences i segs)
      /\ 2 <= occurrences 0 segs
      /\ 2 <= occurrences 1 segs
      /\ occurrences 2 segs = 1
      /\ occurrences 3 segs = 1
      /\ occurrences 4 segs = 1.
Proof.
  intros (fuel & segs & H & Hlen & _).
  apply SplitSWCTree_example_any_fuel in H as ->. cbn in Hlen. lia.
Qed.

(** C2 (amended).  On the worked example the splitter returns more than
    three segments: the one-node segment of the root and the segments
    root-to-2, root-to-3 and 2-to-4 (ids) are among them.  Nodes 1 to 4
    are covered, the root and the branch node each appear in at least two
    segments, and the leaves 3 and 4 each appear in exactly one. *)
Theorem SplitSWCTree_example_amended (k : nat) :
  exists segs,
    SplitSWCTree (5 + k) example_tree = Ok segs
    /\ 3 < length segs
    /\ ([0]%Z : list Z) ∈ segs
    /\ ([0; 1]%Z : list Z) ∈ segs
    /\ ([0; 2]%Z : list Z) ∈ segs
    /\ ([1; 3]%Z : list Z) ∈ segs
    /\ (forall i : Z, (0 <= i < 4)%Z -> 1 <= occurrences i segs)
    /\ 2 <= occurrences 0 segs
    /\ 2 <= occurrences 1 segs
    /\ occurrences 2 segs = 1
    /\ occurrences 3 segs = 1.
Proof.
  eexists. split; [apply SplitSWCTree_example|].
  split; [cbn; lia|].
  do 4 (split; [set_solver|]).
  split.
  - intros i Hi.
    assert (i = 0 \/ i = 1 \/ i = 2 \/ i = 3)%Z as [-> | [-> | [-> | ->]]] by lia;
      vm_compute; lia.
  - repeat split; vm_compute; lia.
Qed.

(** C3 (the code departs from the claim).  On the worked example the
    edges implied by the returned segments are (1,0), (2,0) and (3,1),
    while the tree has the four edges (1,0), (2,0), (3,1) and (4,1), all
    in index space, written (node, parent): the edge of the last node is
    missing, so the two multisets differ. *)
Theorem SplitSWCTree_loses_an_edge :
  valid_tree example_tree = true
  /\ tree_edges example_tree = [(1, 0); (2, 0); (3, 1); (4, 1)]%Z
  /\ forall k, exists segs,
       SplitSWCTree (5 + k) example_tree = Ok segs
       /\ segment_edges segs = [(1, 0); (2, 0); (3, 1)]%Z
       /\ ~ segment_edges segs ≡ₚ tree_edges example_tree.
Proof.
  split; [vm_compute; reflexivity|].
  split; [vm_compute; reflexivity|].
  intros k. eexists. split; [apply SplitSWCTree_example|].
  split; [vm_compute; reflexivity|].
  intros Hp. apply Permutation_length in Hp. vm_compute in Hp. lia.
Qed.

(** ** MergeFullDict *)

Section ConfigMerger.

Lemma dict_set_get key old d :
  dict_get key d = Some old -> dict_set key old d = d.
Proof.
  induction d as [|[k w] d IH]; cbn; [done|].
  destruct (String.eqb k key); [by intros [= ->] | intros H; by rewrite IH].
Qed.

(** Whatever the leaf, a non-empty dict supplied for it stops the merge
    with [TypeError], before any later key is looked at. *)
Lemma DeepUpdate_dict_over_leaf d key old k v sub rest :
  dict_get key d = Some old ->
  type_of old <> TDict ->
  DeepUpdate (PDict d) (PDict ((key, PDict ((k, v) :: sub)) :: rest))
  = Merged (PDict d) [] (Some TypeError).
Proof.
  intros Hget Hleaf. cbn. rewrite Hget.
  destruct old; cbn; rewrite ?dict_set_get by done; done.
Qed.

End ConfigMerger.

(** C6 (the code departs from the claim).  When the override supplies a
    non-empty dict for a key whose base value is a leaf, the merge raises
    [TypeError]: no warning is printed and the remaining key ["c"] is not
    merged.  The sibling path, a leaf of another type over a leaf, does
    what the claim says: the value is dropped with a warning and the merge
    goes on to ["c"].  The exception does not depend on the example: any
    non-empty dict supplied for any existing non-dict value raises it. *)
Theorem MergeFullDict_dict_over_leaf_raises :
  MergeFullDict leaf_base dict_override = Merged leaf_base [] (Some TypeError)
  /\ MergeFullDict leaf_base (PDict [("a", PStr "x"); ("c", PInt 5)])
     = Merged (PDict [("a", PInt 1); ("c", PInt 5)]) [mismatch_warning] None
  /\ (forall d key old k v sub rest,
        dict_get key d = Some old ->
        type_of old <> TDict ->
        MergeFullDict (PDict d) (PDict ((key, PDict ((k, v) :: sub)) :: rest))
        = Merged (PDict d) [] (Some TypeError)).
Proof.
  split; [reflexivity|]. split; [reflexivity|].
  intros d key old k v sub rest. apply DeepUpdate_dict_over_leaf.
Qed.

(** ** Transfer-function scaling *)

(** One step of a run: rewrite the first computation of a bind. *)
Ltac st_step H :=
  unfold st_bind at 1; rewrite H; cbn [st_some st_ret].

Section TransferFunctionScaler.

Lemma read_only_ret {A : Type} (a : A) : read_only (st_ret a).
Proof. done. Qed.

Lemma read_only_raise {A : Type} (e : PyExn) : read_only (@st_raise _ A e).
Proof. done. Qed.

Lemma read_only_some {A : Type} (e : PyExn) (o : option A) :
  read_only (st_some e o).
Proof. by destruct o. Qed.

Lemma read_only_get : read_only (@st_get prop_store).
Proof. done. Qed.

Lemma read_only_bind {A B : Type} (m : stM prop_store A) (k : A -> stM prop_store B) :
  read_only m -> (forall a, read_only (k a)) -> read_only (st_bind m k).
Proof.
  intros Hm Hk h. unfold st_bind. specialize (Hm h).
  destruct (m h) as [[a|e|] h']; cbn in *; subst; [apply Hk|done|done].
Qed.

Lemma read_only_deref a : read_only (deref a).
Proof.
  apply read_only_bind; [apply read_only_get|].
  intros h. apply read_only_some.
Qed.

Lemma read_only_authored_conf a : read_only (authored_conf a).
Proof.
  apply read_only_bind; [apply read_only_deref|]. intros prop.
  destruct (ref_prop prop) as [r|]; [|apply read_only_ret].
  apply read_only_bind; [apply read_only_deref|]. intros rp. apply read_only_ret.
Qed.

Lemma read_only_OTF_query a : read_only (UpdatePropertyOTFScale a None).
Proof.
  unfold UpdatePropertyOTFScale.
  repeat (apply read_only_bind;
          [first [apply read_only_deref | apply read_only_authored_conf
                 | apply read_only_some] | intros ?]).
  apply read_only_ret.
Qed.

Lemma read_only_CTF_query a : read_only (UpdatePropertyCTFScale a None).
Proof.
  unfold UpdatePropertyCTFScale.
  repeat (apply read_only_bind;
          [first [apply read_only_deref | apply read_only_authored_conf
                 | apply read_only_some] | intros ?]).
  apply read_only_ret.
Qed.

Lemma read_only_GetColorScale a : read_only (GetColorScale a).
Proof.
  unfold GetColorScale.
  repeat (apply read_only_bind;
          [first [apply read_only_OTF_query | apply read_only_CTF_query
                 | apply read_only_some] | intros ?]).
  apply read_only_ret.
Qed.

Lemma run_read_only {A : Type} (m : stM prop_store A) h r :
  read_only m -> fst (m h) = r -> m h = (r, h).
Proof. intros Hm <-. specialize (Hm h). by destruct (m h); cbn in *; subst. Qed.

Lemma deref_run a h prop : h !! a = Some prop -> deref a h = (Ok prop, h).
Proof. intros H. unfold deref, st_bind, st_get, st_some. by rewrite H. Qed.

Section NodeArrayProofs.
Context {A : Type} (key : A -> Q).

Lemma length_insert_by (n : A) (l : list A) :
  length (insert_by key n l) = S (length l).
Proof.
  induction l as [|m l IH]; [done|]. cbn.
  destruct (Qle_bool (key n) (key m)); cbn; [done | by rewrite IH].
Qed.

Lemma length_sort_by (l : list A) : length (sort_by key l) = length l.
Proof.
  induction l as [|a l IH]; [done|]. cbn [sort_by fold_right].
  rewrite length_insert_by. cbn. f_equal. exact IH.
Qed.

Lemma length_SetNodeValue (k : nat) (v : A) (nodes : list A) :
  length (SetNodeValue key k v nodes) = length nodes.
Proof.
  unfold SetNodeValue. destruct (nodes !! k) as [old|]; [|done].
  destruct (Qeq_bool (key old) (key v));
    [|rewrite length_sort_by]; apply length_insert.
Qed.

Lemma elem_of_insert_by (x n : A) (l : list A) :
  x ∈ insert_by key n l -> x = n \/ x ∈ l.
Proof.
  induction l as [|m l IH]; cbn.
  - intros Hx. apply list_elem_of_singleton in Hx. by left.
  - destruct (Qle_bool (key n) (key m)).
    + intros Hx. apply elem_of_cons in Hx as [->|Hx]; [by left | by right].
    + intros Hx. apply elem_of_cons in Hx as [->|Hx].
      * right. apply elem_of_cons. by left.
      * destruct (IH Hx) as [->|Hl]; [by left|]. right. apply elem_of_cons. by right.
Qed.

Lemma elem_of_sort_by (x : A) (l : list A) : x ∈ sort_by key l -> x ∈ l.
Proof.
  induction l as [|m l IH]; cbn; [done|].
  intros Hx. apply elem_of_insert_by in Hx as [->|Hx]; apply elem_of_cons;
    [by left | right; by apply IH].
Qed.

Lemma elem_of_list_insert_inv (x v : A) (k : nat) (l : list A) :
  x ∈ <[k := v]> l -> x = v \/ x ∈ l.
Proof.
  intros Hx. apply list_elem_of_lookup in Hx as [i Hi].
  destruct (decide (i = k)) as [->|Hne].
  - apply list_lookup_insert_Some in Hi as [(_ & -> & _)|[Hne _]]; [by left | done].
  - rewrite list_lookup_insert_ne in Hi by done. right.
    by eapply list_elem_of_lookup_2.
Qed.

(** A write brings in no node but the one written. *)
Lemma elem_of_SetNodeValue (x v : A) (k : nat) (nodes : list A) :
  x ∈ SetNodeValue key k v nodes -> x = v \/ x ∈ nodes.
Proof.
  unfold SetNodeValue. destruct (nodes !! k) as [old|]; [|by right].
  destruct (Qeq_bool (key old) (key v)); intros Hx.
  - by apply elem_of_list_insert_inv in Hx.
  - apply elem_of_sort_by in Hx. by apply elem_of_list_insert_inv in Hx.
Qed.

(** Sorting nodes that are in order changes nothing. *)
Lemma sort_by_sorted (l : list A) : sortedb (key <$> l) = true -> sort_by key l = l.
Proof.
  induction l as [|a l IH]; [done|]. intros Hs. cbn [sort_by fold_right].
  change (fold_right (insert_by key) [] l) with (sort_by key l).
  destruct l as [|b l]; [done|].
  cbn in Hs. apply andb_true_iff in Hs as [Hab Hs].
  rewrite IH by done. cbn. by rewrite Hab.
Qed.

(** A write that leaves the nodes in order is a write in place. *)
Lemma SetNodeValue_in_order (k : nat) (v : A) (nodes : list A) :
  sortedb (key <$> <[k := v]> nodes) = true ->
  SetNodeValue key k v nodes = <[k := v]> nodes.
Proof.
  intros Hs. unfold SetNodeValue. destruct (nodes !! k) as [old|] eqn:Hk.
  - destruct (Qeq_bool (key old) (key v)); [done | by apply sort_by_sorted].
  - symmetry. apply list_insert_ge. by apply lookup_ge_None.
Qed.

End NodeArrayProofs.

Lemma otf_SetNodeValue_run a k v h prop :
  h !! a = Some prop ->
  otf_SetNodeValue a k v h
  = (Ok tt, <[a := MkVolumeProperty (SetNodeValue otf_x k v (ScalarOpacity prop))
                     (RGBTransferFunction prop) (prop_conf prop) (ref_prop prop)]> h).
Proof.
  intros H. unfold otf_SetNodeValue, set_ScalarOpacity, st_bind.
  by rewrite !(deref_run _ _ _ H).
Qed.

Lemma ctf_SetNodeValue_run a k v h prop :
  h !! a = Some prop ->
  ctf_SetNodeValue a k v h
  = (Ok tt, <[a := MkVolumeProperty (ScalarOpacity prop)
                     (SetNodeValue ctf_x k v (RGBTransferFunction prop))
                     (prop_conf prop) (ref_prop prop)]> h).
Proof.
  intros H. unfold ctf_SetNodeValue, set_RGBTransferFunction, st_bind.
  by rewrite !(deref_run _ _ _ H).
Qed.

Lemma positions_of_lookup tbl xs j x :
  positions_of tbl xs -> xs !! j = Some x -> row_position tbl j = Some x.
Proof.
  intros HF Hx. destruct (Forall2_lookup_r _ _ _ _ _ HF Hx) as (row & Hrow & Hpos).
  unfold row_position. by rewrite Hrow.
Qed.

Lemma positions_of_last tbl xs x :
  positions_of tbl xs -> last xs = Some x -> last_position tbl = Some x.
Proof.
  intros HF. induction HF as [|row y tbl xs Hrow HF IH]; [done|].
  destruct HF as [|row' y' tbl' xs' Hrow' HF'].
  - intros [= ->]. unfold last_position. cbn. by rewrite Hrow.
  - intros Hl. apply IH in Hl. exact Hl.
Qed.

(** The loop over a stretch [vs] of the curve, with nodes before and
    after it, when every write leaves the nodes in order: node [k] gets the
    node read at [k] with the authored position at [k], scaled. *)
Lemma otf_scale_loop_stretch a s otf_v :
  forall vs done tl xs h prop,
    h !! a = Some prop ->
    ScalarOpacity prop = done ++ vs ++ tl ->
    length vs <= length xs ->
    (forall j x, xs !! j = Some x -> row_position otf_v (length done + j) = Some x) ->
    writes_in_order (otf_x <$> done) (Qmult s <$> xs) (otf_x <$> (vs ++ tl)) = true ->
    otf_scale_loop a s otf_v (zip (seq (length done) (length vs)) vs) h
    = (Ok tt,
       <[a := MkVolumeProperty
                (done ++ zip_with (fun nd x => otf_set_x (s * x) nd) vs xs ++ tl)
                (RGBTransferFunction prop) (prop_conf prop) (ref_prop prop)]> h).
Proof.
  induction vs as [|nd vs IH]; intros done tl xs h prop Hh Hpf Hlen Hpos Hord.
  - cbn. unfold st_ret. f_equal.
    rewrite insert_id; [done|]. rewrite Hh. f_equal.
    destruct prop; cbn in *. by subst.
  - destruct xs as [|x xs]; [cbn in Hlen; lia|].
    cbn [length seq zip zip_with otf_scale_loop].
    assert (Hx : row_position otf_v (length done) = Some x).
    { rewrite <- (Nat.add_0_r (length done)). by apply Hpos. }
    cbn [app fmap list_fmap writes_in_order] in Hord.
    apply andb_true_iff in Hord as [Hsorted Hord].
    unfold st_bind at 1. rewrite Hx. cbn [st_some st_ret].
    unfold st_bind at 1. rewrite (otf_SetNodeValue_run _ _ _ _ _ Hh).
    rewrite Hpf.
    assert (Hwrite : <[length done := otf_set_x (s * x) nd]> (done ++ (nd :: vs) ++ tl)
                     = (done ++ [otf_set_x (s * x) nd]) ++ vs ++ tl).
    { rewrite <- (Nat.add_0_r (length done)) at 1.
      rewrite insert_app_r. cbn. by rewrite <- app_assoc. }
    rewrite SetNodeValue_in_order.
    2:{ rewrite Hwrite, <- app_assoc, fmap_app. exact Hsorted. }
    rewrite Hwrite.
    set (prop1 := MkVolumeProperty _ _ _ _).
    replace (S (length done)) with (length (done ++ [otf_set_x (s * x) nd]))
      by (rewrite length_app; cbn; lia).
    rewrite (IH _ tl xs (<[a := prop1]> h) prop1).
    + rewrite insert_insert_eq. subst prop1. cbn. by rewrite <- app_assoc.
    + apply lookup_insert_eq.
    + done.
    + cbn in Hlen. lia.
    + intros j y Hy. rewrite length_app. cbn.
      replace (length done + 1 + j) with (length done + S j) by lia.
      by apply Hpos.
    + by rewrite fmap_app.
Qed.

Lemma ctf_scale_loop_stretch a s ctf_v :
  forall vs done tl xs h prop,
    h !! a = Some prop ->
    RGBTransferFunction prop = done ++ vs ++ tl ->
    length vs <= length xs ->
    (forall j x, xs !! j = Some x -> row_position ctf_v (length done + j) = Some x) ->
    writes_in_order (ctf_x <$> done) (Qmult s <$> xs) (ctf_x <$> (vs ++ tl)) = true ->
    ctf_scale_loop a s ctf_v (zip (seq (length done) (length vs)) vs) h
    = (Ok tt,
       <[a := MkVolumeProperty (ScalarOpacity prop)
                (done ++ zip_with (fun nd x => ctf_set_x (s * x) nd) vs xs ++ tl)
                (prop_conf prop) (ref_prop prop)]> h).
Proof.
  induction vs as [|nd vs IH]; intros done tl xs h prop Hh Hpf Hlen Hpos Hord.
  - cbn. unfold st_ret. f_equal.
    rewrite insert_id; [done|]. rewrite Hh. f_equal.
    destruct prop; cbn in *. by subst.
  - destruct xs as [|x xs]; [cbn in Hlen; lia|].
    cbn [length seq zip zip_with ctf_scale_loop].
    assert (Hx : row_position ctf_v (length done) = Some x).
    { rewrite <- (Nat.add_0_r (length done)). by apply Hpos. }
    cbn [app fmap list_fmap writes_in_order] in Hord.
    apply andb_true_iff in Hord as [Hsorted Hord].
    unfold st_bind at 1. rewrite Hx. cbn [st_some st_ret].
    unfold st_bind at 1. rewrite (ctf_SetNodeValue_run _ _ _ _ _ Hh).
    rewrite Hpf.
    assert (Hwrite : <[length done := ctf_set_x (s * x) nd]> (done ++ (nd :: vs) ++ tl)
                     = (done ++ [ctf_set_x (s * x) nd]) ++ vs ++ tl).
    { rewrite <- (Nat.add_0_r (length done)) at 1.
      rewrite insert_app_r. cbn. by rewrite <- app_assoc. }
    rewrite SetNodeValue_in_order.
    2:{ rewrite Hwrite, <- app_assoc, fmap_app. exact Hsorted. }
    rewrite Hwrite.
    set (prop1 := MkVolumeProperty _ _ _ _).
    replace (S (length done)) with (length (done ++ [ctf_set_x (s * x) nd]))
      by (rewrite length_app; cbn; lia).
    rewrite (IH _ tl xs (<[a := prop1]> h) prop1).
    + rewrite insert_insert_eq. subst prop1. cbn. by rewrite <- app_assoc.
    + apply lookup_insert_eq.
    + done.
    + cbn in Hlen. lia.
    + intros j y Hy. rewrite length_app. cbn.
      replace (length done + 1 + j) with (length done + S j) by lia.
      by apply Hpos.
    + by rewrite fmap_app.
Qed.

Lemma authored_conf_insert h a prop prop' :
  h !! a = Some prop ->
  prop_conf prop' = prop_conf prop ->
  ref_prop prop' = ref_prop prop ->
  fst (authored_conf a (<[a := prop']> h)) = fst (authored_conf a h).
Proof.
  intros Hh Hconf Href. unfold authored_conf, st_bind.
  rewrite (deref_run _ _ _ Hh), (deref_run a _ prop') by apply lookup_insert_eq.
  rewrite Href. destruct (ref_prop prop) as [r|]; cbn; [|by rewrite Hconf].
  destruct (decide (r = a)) as [->|Hne].
  - rewrite lookup_insert_eq, Hh. cbn. by rewrite Hconf.
  - unfold deref, st_bind, st_get, st_some.
    rewrite lookup_insert_ne by done. by destruct (h !! r).
Qed.

Lemma authored_tables_insert h a prop prop' :
  h !! a = Some prop ->
  prop_conf prop' = prop_conf prop ->
  ref_prop prop' = ref_prop prop ->
  authored_tables (<[a := prop']> h) a = authored_tables h a.
Proof.
  intros. unfold authored_tables. by erewrite authored_conf_insert.
Qed.

(** The authored tables, as the two update functions find them. *)
Lemma authored_tables_run h a otf_v ctf_v :
  authored_tables h a = Some (otf_v, ctf_v) ->
  exists conf otf ctf,
    authored_conf a h = (Ok conf, h)
    /\ opacity_transfer_function conf = Some otf /\ AddPoint otf = Some otf_v
    /\ color_transfer_function conf = Some ctf /\ AddRGBPoint ctf = Some ctf_v.
Proof.
  unfold authored_tables. destruct (fst (authored_conf a h)) as [conf| |] eqn:E; [|done|done].
  intros H. exists conf.
  destruct (opacity_transfer_function conf) as [otf|]; [|done]. cbn in H.
  destruct (AddPoint otf) as [ov|] eqn:E1; [|done]. cbn in H.
  destruct (color_transfer_function conf) as [ctf|]; [|done]. cbn in H.
  destruct (AddRGBPoint ctf) as [cv|] eqn:E2; [|done]. cbn in H.
  injection H as -> ->. exists otf, ctf.
  split; [|done]. apply run_read_only; [apply read_only_authored_conf | done].
Qed.

Lemma UpdatePropertyOTFScale_query_run h a prop otf_v ctf_v :
  h !! a = Some prop ->
  authored_tables h a = Some (otf_v, ctf_v) ->
  UpdatePropertyOTFScale a None h = (Ok (Some (otf_v, ScalarOpacity prop)), h).
Proof.
  intros Hh Ht.
  destruct (authored_tables_run _ _ _ _ Ht) as (conf & otf & ctf & Hc & Ho & Hov & _).
  unfold UpdatePropertyOTFScale.
  st_step (deref_run _ _ _ Hh). st_step Hc. st_step Ho. by st_step Hov.
Qed.

Lemma UpdatePropertyCTFScale_query_run h a prop otf_v ctf_v :
  h !! a = Some prop ->
  authored_tables h a = Some (otf_v, ctf_v) ->
  UpdatePropertyCTFScale a None h = (Ok (Some (ctf_v, RGBTransferFunction prop)), h).
Proof.
  intros Hh Ht.
  destruct (authored_tables_run _ _ _ _ Ht) as (conf & otf & ctf & Hc & _ & _ & Ho & Hov).
  unfold UpdatePropertyCTFScale.
  st_step (deref_run _ _ _ Hh). st_step Hc. st_step Ho. by st_step Hov.
Qed.

Lemma UpdatePropertyOTFScale_run h a prop otf_v ctf_v oxs s :
  h !! a = Some prop ->
  authored_tables h a = Some (otf_v, ctf_v) ->
  positions_of otf_v oxs ->
  length (ScalarOpacity prop) = length otf_v ->
  writes_in_order [] (Qmult s <$> oxs) (otf_x <$> ScalarOpacity prop) = true ->
  UpdatePropertyOTFScale a (Some s) h
  = (Ok None,
     <[a := MkVolumeProperty
              (zip_with (fun nd x => otf_set_x (s * x) nd) (ScalarOpacity prop) oxs)
              (RGBTransferFunction prop) (prop_conf prop) (ref_prop prop)]> h).
Proof.
  intros Hh Ht Hpos Hlen Hord.
  destruct (authored_tables_run _ _ _ _ Ht) as (conf & otf & ctf & Hc & Ho & Hov & _).
  unfold UpdatePropertyOTFScale.
  st_step (deref_run _ _ _ Hh). st_step Hc. st_step Ho. st_step Hov.
  unfold enumerate, st_bind.
  pose proof (otf_scale_loop_stretch a s otf_v (ScalarOpacity prop) [] [] oxs h prop Hh)
    as Hloop.
  cbn [length app fmap list_fmap] in Hloop. rewrite Hloop.
  - by rewrite app_nil_r.
  - by rewrite app_nil_r.
  - apply Forall2_length in Hpos. lia.
  - intros j x Hx. cbn. by eapply positions_of_lookup.
  - by rewrite app_nil_r.
Qed.

Lemma UpdatePropertyCTFScale_run h a prop otf_v ctf_v cxs s :
  h !! a = Some prop ->
  authored_tables h a = Some (otf_v, ctf_v) ->
  positions_of ctf_v cxs ->
  length (RGBTransferFunction prop) = length ctf_v ->
  writes_in_order [] (Qmult s <$> cxs) (ctf_x <$> RGBTransferFunction prop) = true ->
  UpdatePropertyCTFScale a (Some s) h
  = (Ok None,
     <[a := MkVolumeProperty (ScalarOpacity prop)
              (zip_with (fun nd x => ctf_set_x (s * x) nd) (RGBTransferFunction prop) cxs)
              (prop_conf prop) (ref_prop prop)]> h).
Proof.
  intros Hh Ht Hpos Hlen Hord.
  destruct (authored_tables_run _ _ _ _ Ht) as (conf & otf & ctf & Hc & _ & _ & Ho & Hov).
  unfold UpdatePropertyCTFScale.
  st_step (deref_run _ _ _ Hh). st_step Hc. st_step Ho. st_step Hov.
  unfold enumerate, st_bind.
  pose proof (ctf_scale_loop_stretch a s ctf_v (RGBTransferFunction prop) [] [] cxs h prop Hh)
    as Hloop.
  cbn [length app fmap list_fmap] in Hloop. rewrite Hloop.
  - by rewrite app_nil_r.
  - by rewrite app_nil_r.
  - apply Forall2_length in Hpos. lia.
  - intros j x Hx. cbn. by eapply positions_of_lookup.
  - by rewrite app_nil_r.
Qed.

Lemma GetColorScale_run h a prop otf_v ctf_v on cn ox cx :
  h !! a = Some prop ->
  authored_tables h a = Some (otf_v, ctf_v) ->
  last (ScalarOpacity prop) = Some on ->
  last (RGBTransferFunction prop) = Some cn ->
  last_position otf_v = Some ox ->
  last_position ctf_v = Some cx ->
  GetColorScale a h = (Ok (otf_x on / ox, ctf_x cn / cx)%Q, h).
Proof.
  intros Hh Ht Hon Hcn Hox Hcx. unfold GetColorScale.
  st_step (UpdatePropertyOTFScale_query_run _ _ _ _ _ Hh Ht).
  unfold st_bind at 1. cbn [st_some st_ret].
  st_step (UpdatePropertyCTFScale_query_run _ _ _ _ _ Hh Ht).
  unfold st_bind at 1. cbn [st_some st_ret fst snd].
  st_step Hon. st_step Hox. st_step Hcn. by st_step Hcx.
Qed.

Section ZipWith.
Context {A B : Type} (f : A -> B -> A).

Lemma last_zip_with (vs : list A) (xs : list B) v x :
  length xs = length vs -> last vs = Some v -> last xs = Some x ->
  last (zip_with f vs xs) = Some (f v x).
Proof.
  revert xs. induction vs as [|v0 vs IH]; intros [|x0 xs] Hlen Hv Hx; try done.
  destruct vs as [|v1 vs], xs as [|x1 xs]; try done.
  - cbn in *. congruence.
  - change (last (zip_with f (v1 :: vs) (x1 :: xs)) = Some (f v x)).
    apply IH; [cbn in *; lia | done | done].
Qed.

Lemma fmap_zip_with_l {C : Type} (g : A -> C) (vs : list A) (xs : list B) :
  (forall v x, g (f v x) = g v) ->
  length xs = length vs ->
  g <$> zip_with f vs xs = g <$> vs.
Proof.
  intros Hg. revert xs. induction vs as [|v vs IH]; intros [|x xs] Hlen; try done.
  cbn. rewrite Hg. f_equal. apply IH. cbn in Hlen. lia.
Qed.

Lemma fmap_zip_with_r {C : Type} (g : A -> C) (k : B -> C) (vs : list A) (xs : list B) :
  (forall v x, g (f v x) = k x) ->
  length xs = length vs ->
  g <$> zip_with f vs xs = k <$> xs.
Proof.
  intros Hg. revert xs. induction vs as [|v vs IH]; intros [|x xs] Hlen; try done.
  cbn. rewrite Hg. f_equal. apply IH. cbn in Hlen. lia.
Qed.

End ZipWith.

Lemma Qmult_1_l_eq (x : Q) : (1 * x)%Q = x.
Proof. destruct x as [[|n|n] d]; reflexivity. Qed.

End TransferFunctionScaler.

(** C5 (the code departs from the claim).  The default volume property
    has nonzero final authored positions, 255 for both curves.  Rescaled
    by 1/4 and then by 1, both calls returning, its color curve is not back
    at the authored positions 0, 64, 128, 192, 255: the nodes are at 0, 32,
    255/4, 128, 255, and the authored red node is gone.  The loop writes
    node [k] from the authored row [k], but the toolkit sorts the nodes
    again after a write that moves one, so the writes that follow land on
    other nodes and two nodes keep their old positions. *)
Theorem rescale_by_one_does_not_restore :
  authored_tables default_store 0
  = Some ([[20; 0]; [255; 2 # 10]]%Q,
          [[0; 0; 0; 0]; [64; 1; 0; 0]; [128; 0; 0; 1];
           [192; 0; 1; 0]; [255; 0; 2 # 10; 0]]%Q)
  /\ exists h1 h2 prop2,
       SetColorScale 0 (ScaleNumber (1 # 4)) default_store = (Ok tt, h1)
       /\ SetColorScale 0 (ScaleNumber 1) h1 = (Ok tt, h2)
       /\ h2 !! 0 = Some prop2
       /\ Forall2 Qeq (ctf_x <$> RGBTransferFunction prop2)
            [0; 32; 255 # 4; 128; 255]%Q
       /\ ~ Forall2 Qeq (ctf_x <$> RGBTransferFunction prop2)
              [0; 64; 128; 192; 255]%Q
       /\ Forall (fun nd => ~ (ctf_r nd == 1)%Q) (RGBTransferFunction prop2).
Proof.
  split; [vm_compute; reflexivity|].
  exists (snd (SetColorScale 0 (ScaleNumber (1 # 4)) default_store)),
    (snd (SetColorScale 0 (ScaleNumber 1)
            (snd (SetColorScale 0 (ScaleNumber (1 # 4)) default_store)))).
  eexists.
  split; [rewrite (surjective_pairing (SetColorScale _ _ _)) at 1;
          f_equal; vm_compute; reflexivity|].
  split; [rewrite (surjective_pairing (SetColorScale _ _ _)) at 1;
          f_equal; vm_compute; reflexivity|].
  split; [vm_compute; reflexivity|].
  split; [|split].
  - repeat constructor.
  - intros H. inversion H as [|? ? ? ? _ H1]. inversion H1 as [|? ? ? ? Hbad _].
    vm_compute in Hbad. discriminate.
  - repeat constructor; intros Hbad; vm_compute in Hbad; discriminate.
Qed.

(** C10.  Querying the scale is a pure read: [GetColorScale], and the two
    update functions called with scale [None], return the store of volume
    properties exactly as they found it, whether they return or raise; so
    every control point of every current curve and every authored curve
    definition is unchanged. *)
Theorem GetColorScale_is_pure_read (obj_prop : nat) (h : prop_store) :
  snd (UpdatePropertyOTFScale obj_prop None h) = h
  /\ snd (UpdatePropertyCTFScale obj_prop None h) = h
  /\ snd (GetColorScale obj_prop h) = h.
Proof.
  split; [apply read_only_OTF_query|].
  split; [apply read_only_CTF_query | apply read_only_GetColorScale].
Qed.

(** ** PointPicker.PickAt *)

Section Enumerate.
Context {A : Type} (f : A -> bool).

Lemma elem_of_zip_seq (l : list A) :
  forall k i q,
    (i, q) ∈ zip (seq k (length l)) l <-> exists j, i = k + j /\ l !! j = Some q.
Proof.
  induction l as [|a l IH]; intros k i q; cbn.
  - split; [by intros ?%elem_of_nil | by intros (j & _ & ?)].
  - rewrite elem_of_cons, IH. split.
    + intros [[= -> ->] | (j & -> & Hj)].
      * exists 0. split; [lia | done].
      * exists (S j). split; [lia | done].
    + intros ([|j] & -> & Hj); cbn in Hj.
      * left. injection Hj as ->. f_equal. lia.
      * right. exists j. split; [lia | done].
Qed.

(** The indices [flatnonzero] keeps are those of the entries that pass. *)
Lemma flatnonzero_map (l : list A) :
  flatnonzero (map f l)
  = map fst (filter (fun kq => f (snd kq) = true) (enumerate l)).
Proof.
  unfold flatnonzero, enumerate. generalize 0 as k.
  induction l as [|a l IH]; intros k; [done|].
  cbn [map length seq zip zip_with]. rewrite !filter_cons. cbn [snd].
  destruct (f a).
  - rewrite !decide_True by done. cbn. f_equal. apply IH.
  - rewrite !decide_False by done. apply IH.
Qed.

Lemma mapR_lookup {B : Type} (p : list A) (g : A -> B) (sv : list (nat * A)) :
  (forall i q, (i, q) ∈ sv -> p !! i = Some q) ->
  mapR (fun i => match p !! i with
                 | Some q => Ok (g q)
                 | None => Raise IndexError
                 end) (map fst sv)
  = Ok (map (fun kq => g (snd kq)) sv).
Proof.
  induction sv as [|[i q] sv IH]; intros Hsv; [done|].
  cbn. rewrite (Hsv i q) by apply list_elem_of_here. cbn.
  rewrite IH; [done|]. intros i' q' Hin. apply Hsv. by apply list_elem_of_further.
Qed.

End Enumerate.

Section RayPickerProofs.
Local Open Scope R_scope.

Lemma in_view_tol_true pk posxy q :
  in_view_tol pk posxy q = true <-> qualifies pk posxy q.
Proof.
  unfold in_view_tol, qualifies.
  destruct (Rlt_dec _ _), (Rlt_dec _ _); cbn; split; try done; tauto.
Qed.

(** The scan keeps the least entry seen so far. *)
Lemma argmin_from_spec (l : list R) :
  forall (best_i : nat) (best : R) (k : nat),
    (argmin_from best_i best k l = best_i /\ forall x, x ∈ l -> best <= x)
    \/ (exists j m,
          argmin_from best_i best k l = (k + j)%nat
          /\ l !! j = Some m /\ m < best /\ forall x, x ∈ l -> m <= x).
Proof.
  induction l as [|x l IH]; intros best_i best k; cbn.
  - left. split; [done|]. by intros x ?%elem_of_nil.
  - destruct (Rlt_dec x best) as [Hlt | Hge].
    + right. destruct (IH k x (S k)) as [[Hj Hall] | (j & m & Hj & Hm & Hlt' & Hall)].
      * exists 0%nat, x. rewrite Hj. split; [lia|]. split; [done|]. split; [done|].
        intros y [-> | Hy]%elem_of_cons; [lra | by apply Hall].
      * exists (S j), m. rewrite Hj. split; [lia|]. split; [done|]. split; [lra|].
        intros y [-> | Hy]%elem_of_cons; [lra | by apply Hall].
    + destruct (IH best_i best (S k)) as [[Hj Hall] | (j & m & Hj & Hm & Hlt' & Hall)].
      * left. split; [done|].
        intros y [-> | Hy]%elem_of_cons; [lra | by apply Hall].
      * right. exists (S j), m. rewrite Hj. split; [lia|]. split; [done|].
        split; [done|].
        intros y [-> | Hy]%elem_of_cons; [lra | by apply Hall].
Qed.

Lemma argmin_spec (l : list R) :
  l <> [] ->
  exists j m, argmin l = Some j /\ l !! j = Some m /\ forall x, x ∈ l -> m <= x.
Proof.
  destruct l as [|x l]; [done|]. intros _. cbn [argmin].
  destruct (argmin_from_spec l 0 x 1) as [[Hj Hall] | (j & m & Hj & Hm & Hlt & Hall)].
  - exists 0%nat, x. rewrite Hj. split; [done|]. split; [done|].
    intros y [-> | Hy]%elem_of_cons; [lra | by apply Hall].
  - exists (S j), m. rewrite Hj. split; [done|]. split; [done|].
    intros y [-> | Hy]%elem_of_cons; [lra | by apply Hall].
Qed.

(** [t] is the least-squares projection of the point onto the picker
    line: no other parameter brings the line closer to the point. *)
Lemma ray_t_least_squares pk posxy q (s : R) :
  let v := ray_direction pk posxy in
  let u := vsub q (ray_origin pk) in
  vdot v v <> 0 ->
  vdot (vsub u (vscale v (ray_t pk posxy q))) (vsub u (vscale v (ray_t pk posxy q)))
  <= vdot (vsub u (vscale v s)) (vsub u (vscale v s)).
Proof.
  intros v u Hv. unfold ray_t. fold v u.
  set (t := vdot v u / vdot v v).
  assert (Ht : t * vdot v v = vdot v u) by (unfold t; field; exact Hv).
  assert (Hpos : 0 <= vdot v v).
  { unfold vdot.
    pose proof (Rle_0_sqr (vx v)). pose proof (Rle_0_sqr (vy v)).
    pose proof (Rle_0_sqr (vz v)). unfold Rsqr in *. lra. }
  assert (Hexp : forall r,
            vdot (vsub u (vscale v r)) (vsub u (vscale v r))
            = vdot u u - 2 * r * vdot v u + r * r * vdot v v).
  { intros r. unfold vdot, vsub, vscale. cbn. ring. }
  rewrite !Hexp, <- Ht.
  assert (Hsq : 0 <= (s - t) * (s - t) * vdot v v).
  { apply Rmult_le_pos; [apply Rle_0_sqr | done]. }
  clearbody t u v. lra.
Qed.

End RayPickerProofs.

(** What [PickAt] selects, in terms of [qualifies]. *)
Lemma PickAt_selects (pk : PointPicker) (posxy : R * R) :
  (exists r, PickAt pk posxy = Ok r)
  /\ (forall i q,
        PickAt pk posxy = Ok (Picked i q) ->
        pp_p pk !! i = Some q
        /\ qualifies pk posxy q
        /\ forall j q', pp_p pk !! j = Some q' -> qualifies pk posxy q' ->
             (angle_dist pk posxy q <= angle_dist pk posxy q')%R)
  /\ (PickAt pk posxy = Ok NoSelection <->
      forall j q', pp_p pk !! j = Some q' -> ~ qualifies pk posxy q')
  /\ ((exists j q', pp_p pk !! j = Some q' /\ qualifies pk posxy q') ->
      exists i q, PickAt pk posxy = Ok (Picked i q)).
Proof.
  set (sv := filter (fun kq => in_view_tol pk posxy (snd kq) = true)
               (enumerate (pp_p pk))).
  assert (Hsv : forall i q, (i, q) ∈ sv <->
                  pp_p pk !! i = Some q /\ qualifies pk posxy q).
  { intros i q. unfold sv, enumerate.
    rewrite list_elem_of_filter, elem_of_zip_seq, in_view_tol_true. cbn.
    split.
    - intros [Hq (j & -> & Hj)]. done.
    - intros [Hi Hq]. split; [done|]. by exists i. }
  assert (Hrun : PickAt pk posxy =
                 match sv with
                 | [] => Ok NoSelection
                 | _ :: _ =>
                     match argmin (map (fun kq => angle_dist pk posxy (snd kq)) sv) with
                     | None => Raise ValueError
                     | Some j =>
                         match map fst sv !! j with
                         | None => Raise IndexError
                         | Some i =>
                             match pp_p pk !! i with
                             | Some q => Ok (Picked i q)
                             | None => Raise IndexError
                             end
                         end
                     end
                 end).
  { unfold PickAt. rewrite flatnonzero_map. fold sv.
    rewrite (mapR_lookup (pp_p pk) (angle_dist pk posxy) sv).
    - by destruct sv.
    - intros i q Hin. by apply Hsv in Hin as [? _]. }
  assert (Hpick : sv <> [] ->
            exists i q, PickAt pk posxy = Ok (Picked i q)
              /\ (i, q) ∈ sv
              /\ forall j q', (j, q') ∈ sv ->
                   (angle_dist pk posxy q <= angle_dist pk posxy q')%R).
  { intros Hne. rewrite Hrun.
    destruct (argmin_spec (map (fun kq => angle_dist pk posxy (snd kq)) sv))
      as (j & m & Hj & Hm & Hmin).
    { destruct sv; [done | discriminate]. }
    rewrite Hj.
    change (map (fun kq => angle_dist pk posxy (snd kq)) sv)
      with ((fun kq => angle_dist pk posxy (snd kq)) <$> sv) in Hm, Hmin.
    apply list_lookup_fmap_Some in Hm as ([i q] & -> & Hiq). cbn [snd] in *.
    change (map fst sv) with (fst <$> sv).
    rewrite list_lookup_fmap, Hiq. cbn [fmap option_fmap option_map fst].
    assert (Hin : (i, q) ∈ sv) by (apply list_elem_of_lookup; eauto).
    pose proof Hin as [Hp _]%Hsv. rewrite Hp.
    destruct sv as [|s0 sv']; [done|].
    exists i, q. split; [done|]. split; [done|].
    intros j' q' Hin'. apply Hmin.
    apply list_elem_of_fmap. by exists (j', q'). }
  assert (Hcases : sv = [] \/ sv <> []) by (destruct sv; [by left | by right]).
  split; [|split; [|split]].
  - destruct Hcases as [Hnil | Hne].
    + exists NoSelection. by rewrite Hrun, Hnil.
    + destruct (Hpick Hne) as (i & q & Hr & _). eauto.
  - intros i q H.
    destruct Hcases as [Hnil | Hne]; [by rewrite Hrun, Hnil in H|].
    destruct (Hpick Hne) as (i' & q' & Hr & Hin & Hmin).
    rewrite Hr in H. injection H as -> ->.
    apply Hsv in Hin as [Hp Hq]. split; [done|]. split; [done|].
    intros j q'' Hj Hq''. apply (Hmin j). by apply Hsv.
  - split.
    + intros Hno j q' Hj Hq'.
      destruct Hcases as [Hnil | Hne].
      * assert (Hin : (j, q') ∈ sv) by (by apply Hsv).
        rewrite Hnil in Hin. by apply elem_of_nil in Hin.
      * destruct (Hpick Hne) as (i & q & Hr & _). congruence.
    + intros Hall. destruct Hcases as [Hnil | Hne]; [by rewrite Hrun, Hnil|].
      destruct (Hpick Hne) as (i & q & _ & Hin & _).
      apply Hsv in Hin as [Hp Hq]. by destruct (Hall i q).
  - intros (j & q' & Hj & Hq').
    destruct Hcases as [Hnil | Hne].
    + assert (Hin : (j, q') ∈ sv) by (by apply Hsv).
      rewrite Hnil in Hin. by apply elem_of_nil in Hin.
    + destruct (Hpick Hne) as (i & q & Hr & _). eauto.
Qed.

Section PickRayGeometry.
Local Open Scope R_scope.

Lemma vsub_vadd (q o w : vec3) : vsub q (vadd o w) = vsub (vsub q o) w.
Proof. unfold vsub, vadd. cbn. f_equal; ring. Qed.

Lemma vdot_zero_vector (v : vec3) : vdot v v = 0 -> v = Vec3 0 0 0.
Proof.
  destruct v as [x y z]. unfold vdot. cbn. intros H.
  pose proof (Rle_0_sqr x) as Hx. pose proof (Rle_0_sqr y) as Hy.
  pose proof (Rle_0_sqr z) as Hz. unfold Rsqr in *.
  assert (x * x = 0) by lra. assert (y * y = 0) by lra. assert (z * z = 0) by lra.
  f_equal; by apply Rsqr_0_uniq.
Qed.

(** A picker line that is not a single point has a direction that is not
    the zero vector. *)
Lemma pick_ray_direction pk posxy :
  pick_ray pk posxy 1 <> pick_ray pk posxy 0 ->
  vdot (ray_direction pk posxy) (ray_direction pk posxy) <> 0.
Proof.
  intros Hline Hzero. apply Hline. apply vdot_zero_vector in Hzero.
  unfold pick_ray. rewrite Hzero. unfold vadd, vscale. cbn. f_equal; ring.
Qed.

Lemma pick_ray_residual pk posxy q s :
  vsub q (pick_ray pk posxy s)
  = vsub (vsub q (ray_origin pk)) (vscale (ray_direction pk posxy) s).
Proof. unfold pick_ray. apply vsub_vadd. Qed.

Lemma pick_ray_span pk posxy :
  vsub (pick_ray pk posxy 1) (pick_ray pk posxy 0) = ray_direction pk posxy.
Proof.
  unfold pick_ray, vsub, vadd, vscale. destruct (ray_direction pk posxy).
  cbn. f_equal; ring.
Qed.

(** The residual at [t] is perpendicular to the line. *)
Lemma ray_t_perpendicular pk posxy q :
  let v := ray_direction pk posxy in
  let u := vsub q (ray_origin pk) in
  vdot v v <> 0 ->
  vdot (vsub u (vscale v (ray_t pk posxy q))) v = 0.
Proof.
  intros v u Hv. unfold ray_t. fold v u.
  replace (vdot (vsub u (vscale v (vdot v u / vdot v v))) v)
    with (vdot v u - vdot v u / vdot v v * vdot v v)
    by (unfold vdot, vsub, vscale; cbn; ring).
  by field.
Qed.

Lemma mat_mul_transpose_mul m w :
  orthonormal m -> mat_mul m (transpose_mul m w) = w.
Proof.
  destruct m as [[[a1 a2 a3] [b1 b2 b3]] [c1 c2 c3]], w as [x y z].
  unfold orthonormal, mat_mul, transpose_mul, vdot. cbn.
  intros (Haa & Hbb & Hcc & Hab & Hac & Hbc). f_equal.
  - replace (a1 * (a1 * x + b1 * y + c1 * z) + a2 * (a2 * x + b2 * y + c2 * z)
             + a3 * (a3 * x + b3 * y + c3 * z))
      with ((a1 * a1 + a2 * a2 + a3 * a3) * x + (a1 * b1 + a2 * b2 + a3 * b3) * y
            + (a1 * c1 + a2 * c2 + a3 * c3) * z) by ring.
    rewrite Haa, Hab, Hac. ring.
  - replace (b1 * (a1 * x + b1 * y + c1 * z) + b2 * (a2 * x + b2 * y + c2 * z)
             + b3 * (a3 * x + b3 * y + c3 * z))
      with ((a1 * b1 + a2 * b2 + a3 * b3) * x + (b1 * b1 + b2 * b2 + b3 * b3) * y
            + (b1 * c1 + b2 * c2 + b3 * c3) * z) by ring.
    rewrite Hbb, Hab, Hbc. ring.
  - replace (c1 * (a1 * x + b1 * y + c1 * z) + c2 * (a2 * x + b2 * y + c2 * z)
             + c3 * (a3 * x + b3 * y + c3 * z))
      with ((a1 * c1 + a2 * c2 + a3 * c3) * x + (b1 * c1 + b2 * c2 + b3 * c3) * y
            + (c1 * c1 + c2 * c2 + c3 * c3) * z) by ring.
    rewrite Hcc, Hac, Hbc. ring.
Qed.

Lemma mat_mul_linear m a b s :
  mat_mul m (vadd (vneg a) (vscale b s))
  = vadd (vneg (mat_mul m a)) (vscale (mat_mul m b) s).
Proof.
  destruct m as [[r0 r1] r2]. unfold mat_mul, vadd, vneg, vscale, vdot.
  cbn. f_equal; ring.
Qed.

(** With a rigid camera matrix the camera sees the point [o + v * s] of
    the picker line at [s] times the pixel's point of the view plane: the
    line leaves the camera position ([s = 0]) through that point
    ([s = 1]). *)
Lemma pick_ray_in_camera pk posxy s :
  orthonormal (cam_rot pk) ->
  to_camera pk (pick_ray pk posxy s) = vscale (pixel_on_view_plane pk posxy) s.
Proof.
  intros Hrot. unfold to_camera, pick_ray, ray_origin, ray_direction.
  rewrite mat_mul_linear, !mat_mul_transpose_mul by done.
  unfold pixel_on_view_plane, vadd, vneg, vscale. cbn.
  destruct (cam_trans pk). cbn. f_equal; ring.
Qed.

End PickRayGeometry.

(** C4.  [PickAt] never raises.  The points it considers are exactly
    those that qualify: ray parameter [t] above the minimum view distance
    and angular distance under the tolerance.  If some point qualifies, it
    returns the index and the coordinates of a qualifying point whose
    angular distance is the least among the qualifying points; if none
    does, it returns the empty no-selection result.  The quantities are
    the ones the claim names.  A point qualifies exactly when [t] is
    positive and the distance from the point to the ray point at [t],
    divided by [t], is below 1/100.  On a pick ray that is not a single
    point, [t] is the least-squares projection: the offset from the ray
    point at [t] to the point is perpendicular to the ray, and no ray point
    is nearer to the point.  And the ray is the pick ray: with a rigid
    camera matrix the camera sees the ray point at parameter [s] at [s]
    times the pixel's point of the view plane, so the ray leaves the camera
    position through that point and is not a single point (coordinates are
    real numbers). *)
Theorem PickAt_spec (pk : PointPicker) (posxy : R * R) :
  (exists r, PickAt pk posxy = Ok r)
  /\ (forall i q,
        PickAt pk posxy = Ok (Picked i q) ->
        pp_p pk !! i = Some q
        /\ qualifies pk posxy q
        /\ forall j q', pp_p pk !! j = Some q' -> qualifies pk posxy q' ->
             (angle_dist pk posxy q <= angle_dist pk posxy q')%R)
  /\ (PickAt pk posxy = Ok NoSelection <->
      forall j q', pp_p pk !! j = Some q' -> ~ qualifies pk posxy q')
  /\ ((exists j q', pp_p pk !! j = Some q' /\ qualifies pk posxy q') ->
      exists i q, PickAt pk posxy = Ok (Picked i q))
  /\ (forall q,
        (qualifies pk posxy q <->
         (0 < ray_t pk posxy q
          /\ vnorm (vsub q (pick_ray pk posxy (ray_t pk posxy q)))
             / ray_t pk posxy q < 1 / 100)%R)
        /\ angle_dist pk posxy q
           = (vnorm (vsub q (pick_ray pk posxy (ray_t pk posxy q)))
              / ray_t pk posxy q)%R)
  /\ (pick_ray pk posxy 1 <> pick_ray pk posxy 0 ->
      forall q,
        vdot (vsub q (pick_ray pk posxy (ray_t pk posxy q)))
             (vsub (pick_ray pk posxy 1) (pick_ray pk posxy 0)) = 0%R
        /\ forall s,
             (vnorm (vsub q (pick_ray pk posxy (ray_t pk posxy q)))
              <= vnorm (vsub q (pick_ray pk posxy s)))%R)
  /\ (orthonormal (cam_rot pk) ->
      (forall s, to_camera pk (pick_ray pk posxy s)
                 = vscale (pixel_on_view_plane pk posxy) s)
      /\ pick_ray pk posxy 1 <> pick_ray pk posxy 0).
Proof.
  destruct (PickAt_selects pk posxy) as (H1 & H2 & H3 & H4).
  do 4 (split; [done|]). split; [|split].
  - intros q. rewrite pick_ray_residual.
    unfold qualifies, angle_dist, ray_dist, cam_min_view_distance,
      selection_angle_tol. done.
  - intros Hline q. apply pick_ray_direction in Hline.
    rewrite pick_ray_span, pick_ray_residual. split.
    + by apply ray_t_perpendicular.
    + intros s. rewrite pick_ray_residual. unfold vnorm.
      apply sqrt_le_1_alt. by apply ray_t_least_squares.
  - intros Hrot. split; [intros s; by apply pick_ray_in_camera|].
    intros Heq. apply (f_equal (to_camera pk)) in Heq.
    rewrite !pick_ray_in_camera in Heq by done.
    apply (f_equal vz) in Heq. unfold pixel_on_view_plane, vscale in Heq.
    cbn in Heq. lra.
Qed.

(** ** PointSetHolder *)

Section PointCloud.

Lemma add_all_snoc calls pts name :
  add_all (calls ++ [(pts, name)]) = AddPoints (add_all calls) pts name.
Proof. unfold add_all. by rewrite foldl_app. Qed.

Lemma add_all_spec calls :
  points (add_all calls) = concat (map fst calls)
  /\ range_map (add_all calls) = ∅.
Proof.
  induction calls as [|[pts name] calls IH] using rev_ind; [done|].
  rewrite add_all_snoc. destruct IH as [IHp IHr]. cbn.
  rewrite IHp, IHr, map_app, concat_app. cbn. by rewrite app_nil_r.
Qed.

End PointCloud.

(** C8 (as stated, refuted).  After the call the source makes,
    [AddPoints(raw_points.T, '')] on a fresh holder, the name has no entry
    in the name-to-range mapping. *)
Lemma AddPoints_records_no_range :
  ~ exists rg : nat * nat,
      range_map (AddPoints PointSetHolder_init [Vec3 0 0 0; Vec3 1 0 0] "") !! ""
      = Some rg.
Proof. intros [rg H]. cbn in H. by rewrite lookup_empty in H. Qed.

(** C8 (amended).  [AddPoints(points, name)] extends the holder's point
    sequence by exactly the given points, in order, after the existing
    ones, and leaves the name-to-range mapping as it was; so after any
    series of calls on a fresh holder the points are the given ones in
    call order and the mapping is still empty. *)
Theorem AddPoints_appends_only :
  (forall self pts name,
     points (AddPoints self pts name) = points self ++ pts
     /\ range_map (AddPoints self pts name) = range_map self)
  /\ (forall calls,
        points (add_all calls) = concat (map fst calls)
        /\ range_map (add_all calls) = ∅).
Proof. split; [done | apply add_all_spec]. Qed.

(** ** GUIControl.RemoveObjects *)

Section SceneGraph.

Lemma GetMainRenderer_frame g :
  fst (GetMainRenderer g) <> OutOfFuel
  /\ scene_objects (snd (GetMainRenderer g)) = scene_objects g.
Proof.
  unfold GetMainRenderer, st_bind, st_get. cbn.
  destruct (main_renderer_name g) as [[|c n]|].
  - destruct (renderers g) as [|[first r] rs]; done.
  - unfold st_some. destruct (renderer_named g (String c n)); done.
  - destruct (renderers g) as [|[first r] rs]; done.
Qed.

(** For a registered name the call always raises and the entry stays. *)
Lemma RemoveObjects_present_raises g name obj :
  scene_objects g !! name = Some obj ->
  exists e g',
    RemoveObjects name g = (Raise e, g')
    /\ scene_objects g' = scene_objects g.
Proof.
  intros Hobj. unfold RemoveObjects, st_bind at 1, st_get. rewrite Hobj.
  destruct (GetMainRenderer_frame g) as [Hfuel Hso].
  unfold st_bind. destruct (GetMainRenderer g) as [[ren|e|] g']; cbn in *; eauto.
  done.
Qed.

(** For an unregistered name the call returns after printing a warning
    and changes nothing else. *)
Lemma RemoveObjects_absent g name :
  scene_objects g !! name = None ->
  exists g',
    RemoveObjects name g = (Ok tt, g')
    /\ scene_objects g' = scene_objects g
    /\ renderers g' = renderers g
    /\ main_renderer_name g' = main_renderer_name g
    /\ printed g' =
       printed g ++ ["Warning: RemoveObjects(): object non-exist: " +:+ name].
Proof.
  intros Hobj. unfold RemoveObjects, st_bind, st_get. rewrite Hobj.
  eexists. split; [reflexivity|]. done.
Qed.

End SceneGraph.

(** C9 (the code departs from the claim).  On a registry that holds
    ["3d_cursor"], [RemoveObjects("3d_cursor")] raises [NameError] at
    [re.RemoveActor(obj)], before the [del]: the entry is still in
    [scene_objects] afterwards.  The same happens for every registered
    name, whereas for a name that is not registered the call only prints
    a warning and leaves the registry as it was. *)
Theorem RemoveObjects_raises_NameError :
  (exists g',
     RemoveObjects "3d_cursor" example_gui = (Raise NameError, g')
     /\ scene_objects g' !! "3d_cursor" = Some 7)
  /\ (forall g name obj,
        scene_objects g !! name = Some obj ->
        exists e g',
          RemoveObjects name g = (Raise e, g')
          /\ scene_objects g' = scene_objects g)
  /\ (forall g name,
        scene_objects g !! name = None ->
        exists g',
          RemoveObjects name g = (Ok tt, g')
          /\ scene_objects g' = scene_objects g).
Proof.
  split; [|split].
  - eexists. split; [vm_compute; reflexivity|]. reflexivity.
  - apply RemoveObjects_present_raises.
  - intros g name Hn.
    destruct (RemoveObjects_absent g name Hn) as (g' & H & Hso & _).
    eauto.
Qed.

Example ex_fmt : fmt_03d 1 = "001" /\ fmt_03d 12 = "012" /\ fmt_03d 1000 = "1000".
Proof. repeat split; reflexivity. Qed.

Example ex_split : SplitSWCTree 5 example_tree = Ok [[0]; [0; 1]; [0; 2]; [1; 3]]%Z.
Proof. vm_compute. reflexivity. Qed.

Example ex_valid : valid_tree example_tree = true.
Proof. vm_compute. reflexivity. Qed.

(** ** MergeFullDict: what a merge keeps and what it installs *)

Section ConfigMergerPaths.

Lemma DeepUpdate_dict c items :
  DeepUpdate c (PDict items) = DeepUpdate_items DeepUpdate items c [].
Proof. reflexivity. Qed.

Lemma dict_get_set k key v d :
  dict_get k (dict_set key v d) = if String.eqb key k then Some v else dict_get k d.
Proof.
  induction d as [|[k0 w] d IH]; cbn.
  - rewrite String.eqb_sym. by destruct (String.eqb k key).
  - destruct (String.eqb k0 key) eqn:E0; cbn.
    + apply String.eqb_eq in E0 as ->. by destruct (String.eqb key k).
    + destruct (String.eqb k0 k) eqn:E1; [|exact IH].
      apply String.eqb_eq in E1 as ->. by rewrite String.eqb_sym, E0.
Qed.

Lemma leaf_not_dict v :
  match v with PDict _ => False | _ => True end -> type_of v <> TDict.
Proof. by destruct v. Qed.

(** Induction over configuration values that reaches the values stored
    in a dict. *)
Fixpoint pyval_dict_ind (P : pyval -> Prop)
    (Hleaf : forall v, type_of v <> TDict -> P v)
    (Hdict : forall d, Forall (fun kv => P (snd kv)) d -> P (PDict d))
    (v : pyval) : P v :=
  match v with
  | PDict d =>
      Hdict d
        ((fix go (d : list (string * pyval)) : Forall (fun kv => P (snd kv)) d :=
            match d with
            | [] => @List.Forall_nil _ (fun kv => P (snd kv))
            | (k, w) :: d' =>
                @List.Forall_cons _ (fun kv => P (snd kv)) (k, w) d'
                  (pyval_dict_ind P Hleaf Hdict w)
                  (go d')
            end) d)
  | PNone => Hleaf PNone (leaf_not_dict PNone I)
  | PBool b => Hleaf (PBool b) (leaf_not_dict (PBool b) I)
  | PInt n => Hleaf (PInt n) (leaf_not_dict (PInt n) I)
  | PFloat q => Hleaf (PFloat q) (leaf_not_dict (PFloat q) I)
  | PStr s => Hleaf (PStr s) (leaf_not_dict (PStr s) I)
  | PList l => Hleaf (PList l) (leaf_not_dict (PList l) I)
  end.

Lemma keeps_types_refl c : keeps_types c c.
Proof. intros path old H. eauto. Qed.

Lemma keeps_types_trans c1 c2 c3 :
  keeps_types c1 c2 -> keeps_types c2 c3 -> keeps_types c1 c3.
Proof.
  intros H12 H23 path old H.
  destruct (H12 _ _ H) as (mid & Hmid & Ht).
  destruct (H23 _ _ Hmid) as (new & Hnew & Ht').
  exists new. split; [done | congruence].
Qed.

Lemma get_path_leaf v k path :
  type_of v <> TDict -> get_path v (k :: path) = None.
Proof. by destruct v. Qed.

Lemma keeps_types_set_new key v d :
  dict_get key d = None ->
  keeps_types (PDict d) (PDict (dict_set key v d)).
Proof.
  intros Hnone [|k path] old H; cbn in *.
  - injection H as <-. eauto.
  - rewrite dict_get_set. destruct (String.eqb key k) eqn:E.
    + apply String.eqb_eq in E as ->. by rewrite Hnone in H.
    + destruct (dict_get k d); eauto.
Qed.

Lemma keeps_types_set_sub key old new d :
  dict_get key d = Some old ->
  keeps_types old new ->
  keeps_types (PDict d) (PDict (dict_set key new d)).
Proof.
  intros Hold Hsub [|k path] o H; cbn in *.
  - injection H as <-. eauto.
  - rewrite dict_get_set. destruct (String.eqb key k) eqn:E.
    + apply String.eqb_eq in E as ->. rewrite Hold in H. by apply Hsub.
    + destruct (dict_get k d); eauto.
Qed.

Lemma keeps_types_leaf old value :
  type_of old <> TDict ->
  type_of value = type_of old ->
  keeps_types old value.
Proof.
  intros Hleaf Ht [|k path] o H.
  - injection H as <-. eauto.
  - by rewrite get_path_leaf in H.
Qed.

Lemma pytype_eqb_eq a b : pytype_eqb a b = true <-> a = b.
Proof. destruct a, b; cbn; split; congruence. Qed.

Lemma DeepUpdate_items_keeps_types rec items :
  Forall (fun kv => forall c, keeps_types c (m_value (rec c (snd kv)))) items ->
  forall cur log, keeps_types cur (m_value (DeepUpdate_items rec items cur log)).
Proof.
  induction 1 as [|[key value] rest Hrec _ IH]; intros cur log; cbn.
  - apply keeps_types_refl.
  - destruct cur as [| | | | | |d]; try apply keeps_types_refl.
    destruct (dict_get key d) as [old|] eqn:Hget.
    + assert (Hleaf : type_of value <> TDict ->
                match value with
                | PDict _ => True
                | _ =>
                    keeps_types (PDict d)
                      (m_value
                         (if pytype_eqb (type_of old) (type_of value)
                          then DeepUpdate_items rec rest (PDict (dict_set key value d)) log
                          else DeepUpdate_items rec rest (PDict d)
                                 (log ++ [mismatch_warning])))
                end).
      { intros Hv. destruct value; try done;
          (destruct (pytype_eqb _ _) eqn:Et; [|apply IH];
           apply pytype_eqb_eq in Et;
           eapply keeps_types_trans; [|apply IH];
           apply (keeps_types_set_sub _ old); [done|];
           apply keeps_types_leaf; [by rewrite Et | done]). }
      destruct value as [| | | | | |sub]; try (by apply Hleaf).
      cbn in Hrec. specialize (Hrec old).
      pose proof (keeps_types_set_sub key old _ d Hget Hrec) as Hstep.
      destruct (m_exn (rec old (PDict sub))); cbn; [exact Hstep|].
      eapply keeps_types_trans; [exact Hstep | apply IH].
    + eapply keeps_types_trans; [|apply IH]. by apply keeps_types_set_new.
Qed.

Lemma DeepUpdate_keeps_types upd : forall c, keeps_types c (m_value (DeepUpdate c upd)).
Proof.
  induction upd as [v Hleaf | d IH] using pyval_dict_ind; intros c.
  - destruct v; try apply keeps_types_refl. done.
  - rewrite DeepUpdate_dict. by apply DeepUpdate_items_keeps_types.
Qed.

End ConfigMergerPaths.

(** X1.  A merge never removes a path and never changes the type found
    at it: whatever the override is, and whether the merge returns or
    raises, every path that could be read in the base before can be read
    in the container afterwards and holds a value of the same type. *)
Theorem MergeFullDict_keeps_paths_and_types (d_contain d_update : pyval)
    (path : list string) (old : pyval) :
  get_path d_contain path = Some old ->
  exists new,
    get_path (m_value (MergeFullDict d_contain d_update)) path = Some new
    /\ type_of new = type_of old.
Proof. apply DeepUpdate_keeps_types. Qed.

Lemma MergeFullDict_keeps_paths_and_types_witness :
  exists new,
    get_path (m_value (MergeFullDict scene_base scene_override))
      ["object_properties"; "volume"; "interpolation"] = Some new
    /\ type_of new = TStr.
Proof.
  apply (MergeFullDict_keeps_paths_and_types scene_base scene_override
           ["object_properties"; "volume"; "interpolation"] (PStr "cubic")).
  reflexivity.
Defined.

Section ConfigMergerInstalls.

Lemma unique_keys_dict d :
  unique_keys (PDict d) ->
  NoDup (map fst d) /\ Forall (fun kv => unique_keys (snd kv)) d.
Proof.
  cbn. intros [Hnd Hall]. split; [done|]. clear Hnd.
  induction d as [|[k w] d IH]; [constructor|].
  destruct Hall as [Hw Hall]. constructor; [done | by apply IH].
Qed.

(** The warnings already printed stay at the front of the log. *)
Lemma DeepUpdate_items_log rec items :
  forall cur log, exists l,
    m_log (DeepUpdate_items rec items cur log) = log ++ l.
Proof.
  induction items as [|[key value] rest IH]; intros cur log; cbn.
  - exists []. by rewrite app_nil_r.
  - destruct cur as [| | | | | |d]; try (exists []; by rewrite app_nil_r).
    destruct (dict_get key d) as [old|]; [|apply IH].
    assert (Hleaf : exists l,
              m_log (if pytype_eqb (type_of old) (type_of value)
                     then DeepUpdate_items rec rest (PDict (dict_set key value d)) log
                     else DeepUpdate_items rec rest (PDict d)
                            (log ++ [mismatch_warning])) = log ++ l).
    { destruct (pytype_eqb _ _); [apply IH|].
      destruct (IH (PDict d) (log ++ [mismatch_warning])) as [l Hl].
      exists ([mismatch_warning] ++ l). by rewrite Hl, app_assoc. }
    destruct value as [| | | | | |sub]; try exact Hleaf.
    destruct (m_exn (rec old (PDict sub))); cbn; [eauto|].
    destruct (IH (PDict (dict_set key (m_value (rec old (PDict sub))) d))
                (log ++ m_log (rec old (PDict sub)))) as [l Hl].
    exists (m_log (rec old (PDict sub)) ++ l). by rewrite Hl, app_assoc.
Qed.

(** The loop only writes under the keys of its items. *)
Lemma DeepUpdate_items_other_key rec items k :
  k ∉ map fst items ->
  forall d log, exists d',
    m_value (DeepUpdate_items rec items (PDict d) log) = PDict d'
    /\ dict_get k d' = dict_get k d.
Proof.
  induction items as [|[key value] rest IH]; intros Hk d log; cbn.
  - eauto.
  - cbn in Hk. apply not_elem_of_cons in Hk as [Hne Hk].
    assert (Hset : forall v, dict_get k (dict_set key v d) = dict_get k d).
    { intros v. rewrite dict_get_set.
      destruct (String.eqb key k) eqn:E; [|done].
      by apply String.eqb_eq in E. }
    assert (Hstep : forall v log', exists d',
              m_value (DeepUpdate_items rec rest (PDict (dict_set key v d)) log')
              = PDict d' /\ dict_get k d' = dict_get k d).
    { intros v log'. destruct (IH Hk (dict_set key v d) log') as (d' & Hd' & Hg).
      exists d'. split; [done|]. by rewrite Hg, Hset. }
    destruct (dict_get key d) as [old|]; [|apply Hstep].
    assert (Hleaf : exists d',
              m_value (if pytype_eqb (type_of old) (type_of value)
                       then DeepUpdate_items rec rest (PDict (dict_set key value d)) log
                       else DeepUpdate_items rec rest (PDict d)
                              (log ++ [mismatch_warning])) = PDict d'
              /\ dict_get k d' = dict_get k d).
    { destruct (pytype_eqb _ _); [apply Hstep | by apply IH]. }
    destruct value as [| | | | | |sub]; try exact Hleaf.
    destruct (m_exn (rec old (PDict sub))); cbn; [eauto | apply Hstep].
Qed.

(** What a silent, successful run of the loop has installed. *)
Lemma DeepUpdate_items_installs rec items :
  Forall (fun kv => forall c path v,
            m_exn (rec c (snd kv)) = None ->
            m_log (rec c (snd kv)) = [] ->
            path <> [] ->
            get_path (snd kv) path = Some v ->
            type_of v <> TDict ->
            get_path (m_value (rec c (snd kv))) path = Some v) items ->
  NoDup (map fst items) ->
  forall cur log k p v,
    m_exn (DeepUpdate_items rec items cur log) = None ->
    m_log (DeepUpdate_items rec items cur log) = [] ->
    get_path (PDict items) (k :: p) = Some v ->
    type_of v <> TDict ->
    get_path (m_value (DeepUpdate_items rec items cur log)) (k :: p) = Some v.
Proof.
  induction 1 as [|[key value] rest Hrec _ IH];
    intros Hnd cur log k p v He Hl Hv Hleaf; [done|].
  cbn in Hnd. apply NoDup_cons in Hnd as [Hkey Hnd].
  specialize (IH Hnd).
  assert (Hv' : (if String.eqb key k then get_path value p
                 else get_path (PDict rest) (k :: p)) = Some v).
  { cbn in Hv. by destruct (String.eqb key k). }
  clear Hv. cbn [DeepUpdate_items] in He, Hl |- *.
  destruct cur as [| | | | | |d]; try done.
  (* what the rest of the loop does to the entry written under [key] *)
  assert (Hrest : forall w log',
            m_exn (DeepUpdate_items rec rest (PDict (dict_set key w d)) log') = None ->
            m_log (DeepUpdate_items rec rest (PDict (dict_set key w d)) log') = [] ->
            (if String.eqb key k then get_path w p
             else get_path (PDict rest) (k :: p)) = Some v ->
            get_path (m_value (DeepUpdate_items rec rest
                                 (PDict (dict_set key w d)) log')) (k :: p) = Some v).
  { intros w log' He' Hl' Hw.
    destruct (String.eqb key k) eqn:E.
    - apply String.eqb_eq in E as <-.
      destruct (DeepUpdate_items_other_key rec rest key Hkey (dict_set key w d) log')
        as (d' & -> & Hg).
      cbn. rewrite Hg, dict_get_set, String.eqb_refl. exact Hw.
    - by apply IH. }
  destruct (dict_get key d) as [old|] eqn:Hget; [|by apply Hrest].
  destruct (pytype_eqb TDict (type_of value)) eqn:Hisdict.
  - destruct value as [| | | | | |sub]; try done.
    cbn in Hrec. specialize (Hrec old).
    destruct (m_exn (rec old (PDict sub))) eqn:Hexn; [done|].
    destruct (DeepUpdate_items_log rec rest
                (PDict (dict_set key (m_value (rec old (PDict sub))) d))
                (log ++ m_log (rec old (PDict sub)))) as [l Hlog].
    rewrite Hl in Hlog. symmetry in Hlog.
    apply app_eq_nil in Hlog as [Hlog _]. apply app_eq_nil in Hlog as [_ Hsublog].
    apply Hrest; [done | done |].
    destruct (String.eqb key k); [|done].
    destruct p as [|k' p']; [cbn in Hv'; by injection Hv' as <-|].
    by apply Hrec.
  - assert (He2 :
      m_exn (if pytype_eqb (type_of old) (type_of value)
             then DeepUpdate_items rec rest (PDict (dict_set key value d)) log
             else DeepUpdate_items rec rest (PDict d) (log ++ [mismatch_warning]))
      = None) by (by destruct value).
    assert (Hl2 :
      m_log (if pytype_eqb (type_of old) (type_of value)
             then DeepUpdate_items rec rest (PDict (dict_set key value d)) log
             else DeepUpdate_items rec rest (PDict d) (log ++ [mismatch_warning]))
      = []) by (by destruct value).
    assert (Hgoal :
      get_path
        (m_value
           (if pytype_eqb (type_of old) (type_of value)
            then DeepUpdate_items rec rest (PDict (dict_set key value d)) log
            else DeepUpdate_items rec rest (PDict d) (log ++ [mismatch_warning])))
        (k :: p) = Some v).
    { destruct (pytype_eqb (type_of old) (type_of value)).
      - by apply Hrest.
      - destruct (DeepUpdate_items_log rec rest (PDict d)
                    (log ++ [mismatch_warning])) as [l Hlog].
        rewrite Hl2 in Hlog. symmetry in Hlog.
        apply app_eq_nil in Hlog as [Hlog _].
        by apply app_eq_nil in Hlog as [_ ?]. }
    by destruct value.
Qed.

Lemma DeepUpdate_installs upd :
  forall c path v,
    unique_keys upd ->
    m_exn (DeepUpdate c upd) = None ->
    m_log (DeepUpdate c upd) = [] ->
    path <> [] ->
    get_path upd path = Some v ->
    type_of v <> TDict ->
    get_path (m_value (DeepUpdate c upd)) path = Some v.
Proof.
  induction upd as [u Hleaf | d IH] using pyval_dict_ind;
    intros c path v Hu He Hl Hpath Hv Hvleaf.
  - destruct path as [|k p]; [done|]. by rewrite get_path_leaf in Hv.
  - destruct path as [|k p]; [done|].
    apply unique_keys_dict in Hu as [Hnd Hall].
    rewrite DeepUpdate_dict in *.
    apply DeepUpdate_items_installs; try done.
    apply Forall_forall. intros kv Hin c' path' v' He' Hl' Hp' Hv' Hleaf'.
    rewrite Forall_forall in IH, Hall.
    by apply IH; [| apply Hall | | | | |].
Qed.

End ConfigMergerInstalls.

(** X2.  A merge that returns without a warning has installed the
    override: for an override whose dicts have each key once, if the merge
    raises nothing and prints nothing, then every non-dict value that can
    be read in the override at a path can be read at the same path in the
    merged container. *)
Theorem MergeFullDict_installs_override (d_contain d_update : pyval)
    (path : list string) (v : pyval) :
  unique_keys d_update ->
  m_exn (MergeFullDict d_contain d_update) = None ->
  m_log (MergeFullDict d_contain d_update) = [] ->
  path <> [] ->
  get_path d_update path = Some v ->
  type_of v <> TDict ->
  get_path (m_value (MergeFullDict d_contain d_update)) path = Some v.
Proof. apply DeepUpdate_installs. Qed.

Lemma MergeFullDict_installs_override_witness :
  get_path (m_value (MergeFullDict scene_base scene_override))
    ["object_properties"; "volume"; "opacity_transfer_function"; "opacity_scale"]
  = Some (PFloat 2).
Proof.
  apply (MergeFullDict_installs_override scene_base scene_override).
  - cbn. repeat split; by apply (bool_decide_unpack _).
  - reflexivity.
  - reflexivity.
  - done.
  - reflexivity.
  - done.
Defined.

Section ConfigMergerIdempotent.

(** A pass over items that are all settled in [c] leaves [c] as it is. *)
Lemma DeepUpdate_items_fixed items c :
  Forall (fun kv => fixed_for c (fst kv) (snd kv)) items ->
  forall log,
    m_value (DeepUpdate_items DeepUpdate items c log) = c
    /\ m_exn (DeepUpdate_items DeepUpdate items c log) = None.
Proof.
  induction 1 as [|[key value] rest Hfix _ IH]; intros log; [done|].
  destruct Hfix as (d & e & -> & Hget & Hnoop). cbn in Hget, Hnoop.
  cbn [DeepUpdate_items]. rewrite Hget.
  destruct (pytype_eqb TDict (type_of value)) eqn:Hisdict.
  - destruct value as [| | | | | |sub]; try done.
    destruct Hnoop as [Hval Hexn]. cbn zeta. rewrite Hexn, Hval.
    rewrite (dict_set_get _ _ _ Hget). apply IH.
  - assert (Hgoal : forall r1 r2,
              r1 = DeepUpdate_items DeepUpdate rest (PDict (dict_set key value d)) log ->
              r2 = DeepUpdate_items DeepUpdate rest (PDict d) (log ++ [mismatch_warning]) ->
              m_value (if pytype_eqb (type_of e) (type_of value) then r1 else r2)
              = PDict d
              /\ m_exn (if pytype_eqb (type_of e) (type_of value) then r1 else r2)
                 = None).
    { intros r1 r2 -> ->.
      destruct (pytype_eqb (type_of e) (type_of value)) eqn:Et; [|apply IH].
      assert (e = value) as <- by (destruct value; try done; by apply Hnoop).
      rewrite (dict_set_get _ _ _ Hget). apply IH. }
    destruct value; try done; by apply Hgoal.
Qed.

Lemma dict_get_in key value d :
  NoDup (map fst d) -> (key, value) ∈ d -> dict_get key d = Some value.
Proof.
  induction d as [|[k w] d IH]; intros Hnd Hin; [by apply elem_of_nil in Hin|].
  cbn in *. apply NoDup_cons in Hnd as [Hk Hnd].
  apply elem_of_cons in Hin as [[= -> ->] | Hin].
  - by rewrite String.eqb_refl.
  - destruct (String.eqb k key) eqn:E; [|by apply IH].
    apply String.eqb_eq in E as ->. exfalso. apply Hk.
    apply list_elem_of_In, in_map_iff. exists (key, value).
    split; [done | by apply list_elem_of_In].
Qed.

(** Merging a dict into itself changes nothing. *)
Lemma DeepUpdate_self v :
  unique_keys v -> type_of v = TDict ->
  m_value (DeepUpdate v v) = v /\ m_exn (DeepUpdate v v) = None.
Proof.
  induction v as [u Hleaf | d IH] using pyval_dict_ind; intros Hu Ht; [done|].
  apply unique_keys_dict in Hu as [Hnd Hall].
  rewrite DeepUpdate_dict. apply DeepUpdate_items_fixed.
  apply Forall_forall. intros [key value] Hin.
  exists d, value. split; [done|]. split; [by apply dict_get_in|].
  rewrite Forall_forall in IH, Hall.
  specialize (IH _ Hin). specialize (Hall _ Hin). cbn in IH, Hall.
  destruct value; try done. by apply IH.
Qed.

Lemma fixed_for_other_key rest key value d' e log :
  key ∉ map fst rest ->
  dict_get key d' = Some e ->
  step_noop e value ->
  fixed_for (m_value (DeepUpdate_items DeepUpdate rest (PDict d') log)) key value.
Proof.
  intros Hkey Hget Hnoop.
  destruct (DeepUpdate_items_other_key DeepUpdate rest key Hkey d' log)
    as (d1 & Hd1 & Hg).
  exists d1, e. split; [done|]. split; [congruence | done].
Qed.

(** After a pass that raised nothing, every item is settled. *)
Lemma DeepUpdate_items_settles items :
  Forall (fun kv =>
            unique_keys (snd kv)
            /\ forall c, m_exn (DeepUpdate c (snd kv)) = None ->
                 step_noop (m_value (DeepUpdate c (snd kv))) (snd kv)) items ->
  NoDup (map fst items) ->
  forall cur log,
    m_exn (DeepUpdate_items DeepUpdate items cur log) = None ->
    Forall (fun kv =>
              fixed_for (m_value (DeepUpdate_items DeepUpdate items cur log))
                (fst kv) (snd kv)) items.
Proof.
  induction 1 as [|[key value] rest [Huniq Hrec] _ IH]; intros Hnd cur log He;
    [constructor|].
  cbn in Hnd, Huniq, Hrec. apply NoDup_cons in Hnd as [Hkey Hnd].
  specialize (IH Hnd). cbn [DeepUpdate_items] in He |- *.
  destruct cur as [| | | | | |d]; try done.
  (* the step for [key] writes [w], settled for [value]; the rest follows *)
  assert (Hstep : forall w log',
            m_exn (DeepUpdate_items DeepUpdate rest (PDict (dict_set key w d)) log')
            = None ->
            step_noop w value ->
            Forall (fun kv =>
                      fixed_for
                        (m_value (DeepUpdate_items DeepUpdate rest
                                    (PDict (dict_set key w d)) log'))
                        (fst kv) (snd kv)) ((key, value) :: rest)).
  { intros w log' He' Hw. constructor; [|by apply IH].
    apply (fixed_for_other_key rest key value (dict_set key w d) w);
      [done | | done].
    by rewrite dict_get_set, String.eqb_refl. }
  destruct (dict_get key d) as [old|] eqn:Hget.
  - destruct (pytype_eqb TDict (type_of value)) eqn:Hisdict.
    + destruct value as [| | | | | |sub]; try done.
      destruct (m_exn (DeepUpdate old (PDict sub))) eqn:Hexn; [done|].
      apply Hstep; [done|]. by apply Hrec.
    + assert (Hgoal :
        forall r,
          r = (if pytype_eqb (type_of old) (type_of value)
               then DeepUpdate_items DeepUpdate rest (PDict (dict_set key value d)) log
               else DeepUpdate_items DeepUpdate rest (PDict d)
                      (log ++ [mismatch_warning])) ->
          m_exn r = None ->
          Forall (fun kv => fixed_for (m_value r) (fst kv) (snd kv))
            ((key, value) :: rest)).
      { intros r -> He'.
        destruct (pytype_eqb (type_of old) (type_of value)) eqn:Et.
        - apply Hstep; [done|]. by destruct value.
        - constructor; [|by apply IH].
          apply (fixed_for_other_key rest key value d old); [done | done |].
          destruct value; try done; cbn in *; congruence. }
      destruct value; try done; by apply Hgoal.
  - apply Hstep; [done|].
    destruct value as [| | | | | |sub]; try done.
    by apply DeepUpdate_self.
Qed.

Lemma DeepUpdate_idempotent upd :
  forall c,
    unique_keys upd ->
    m_exn (DeepUpdate c upd) = None ->
    m_value (DeepUpdate (m_value (DeepUpdate c upd)) upd) = m_value (DeepUpdate c upd)
    /\ m_exn (DeepUpdate (m_value (DeepUpdate c upd)) upd) = None.
Proof.
  induction upd as [u Hleaf | d IH] using pyval_dict_ind; intros c Hu He.
  - by destruct u.
  - apply unique_keys_dict in Hu as [Hnd Hall].
    rewrite !DeepUpdate_dict in *.
    apply DeepUpdate_items_fixed. apply DeepUpdate_items_settles; try done.
    apply Forall_forall. intros [key value] Hin.
    rewrite Forall_forall in IH, Hall.
    specialize (IH _ Hin). specialize (Hall _ Hin). cbn in IH, Hall |- *.
    split; [done|]. intros c' He'.
    destruct value as [| | | | | |sub]; try done.
    by apply IH.
Qed.

End ConfigMergerIdempotent.

(** X3.  Merging is idempotent: for an override whose dicts have each
    key once, if the merge raises nothing, then merging the same override
    into the result once more raises nothing and leaves the result as it
    is. *)
Theorem MergeFullDict_idempotent (d_contain d_update : pyval) :
  unique_keys d_update ->
  m_exn (MergeFullDict d_contain d_update) = None ->
  m_value (MergeFullDict (m_value (MergeFullDict d_contain d_update)) d_update)
  = m_value (MergeFullDict d_contain d_update)
  /\ m_exn (MergeFullDict (m_value (MergeFullDict d_contain d_update)) d_update)
     = None.
Proof. apply DeepUpdate_idempotent. Qed.

Lemma MergeFullDict_idempotent_witness :
  m_value (MergeFullDict (m_value (MergeFullDict scene_base scene_override))
             scene_override)
  = m_value (MergeFullDict scene_base scene_override)
  /\ m_exn (MergeFullDict (m_value (MergeFullDict scene_base scene_override))
              scene_override) = None.
Proof.
  apply (MergeFullDict_idempotent scene_base scene_override).
  - cbn. repeat split; by apply (bool_decide_unpack _).
  - reflexivity.
Defined.

(** ** Transfer-function scaling: frame, bounds and sequences *)

Section ScalerFrame.

Lemma same_but_curves_refl p : same_but_curves p p.
Proof. do 4 (split; [done|]). split; intros n Hn; by exists n. Qed.

Lemma only_curves_changed_refl a h : only_curves_changed a h h.
Proof.
  intros b. destruct (h !! b); [|done]. split; [done|apply same_but_curves_refl].
Qed.

Lemma keeps_rel_ret R h0 {A : Type} (x : A) : keeps_rel R h0 (st_ret x).
Proof. by intros h. Qed.

Lemma keeps_rel_read_only R h0 {A : Type} (m : stM prop_store A) :
  read_only m -> keeps_rel R h0 m.
Proof. intros Hm h HR. by rewrite Hm. Qed.

Lemma keeps_rel_bind R h0 {A B : Type} (m : stM prop_store A)
    (k : A -> stM prop_store B) :
  keeps_rel R h0 m -> (forall x, keeps_rel R h0 (k x)) ->
  keeps_rel R h0 (st_bind m k).
Proof.
  intros Hm Hk h HR. unfold st_bind. specialize (Hm h HR).
  destruct (m h) as [[x|e|] h']; cbn in *; [by apply Hk | done | done].
Qed.

(** A write into a curve of the property at [a] keeps the relation to the
    starting store [h0], when the node written carries the values of a
    node of the curve in [h0]. *)
Lemma otf_SetNodeValue_keeps a h0 k v :
  (forall p0, h0 !! a = Some p0 ->
     exists n, n ∈ ScalarOpacity p0 /\ otf_values v = otf_values n) ->
  keeps_rel (only_curves_changed a) h0 (otf_SetNodeValue a k v).
Proof.
  intros Hv h HR.
  destruct (h !! a) as [p|] eqn:Hp.
  2:{ unfold otf_SetNodeValue, st_bind at 1, deref, st_bind, st_get, st_some.
      by rewrite Hp. }
  rewrite (otf_SetNodeValue_run _ _ _ _ _ Hp). cbn.
  intros b. pose proof (HR b) as Hb. destruct (decide (b = a)) as [->|Hne].
  - rewrite lookup_insert_eq. rewrite Hp in Hb.
    destruct (h0 !! a) as [p0|]; [|done].
    destruct Hb as [_ (Ho & Hc & Hconf & Href & Hov & Hcv)].
    split; [done|].
    split; [cbn; by rewrite length_SetNodeValue|].
    do 3 (split; [done|]). split; [|done].
    cbn. intros n' Hn'. apply elem_of_SetNodeValue in Hn' as [->|Hn'].
    + by apply Hv.
    + by apply Hov.
  - by rewrite lookup_insert_ne.
Qed.

Lemma ctf_SetNodeValue_keeps a h0 k v :
  (forall p0, h0 !! a = Some p0 ->
     exists n, n ∈ RGBTransferFunction p0 /\ ctf_values v = ctf_values n) ->
  keeps_rel (only_curves_changed a) h0 (ctf_SetNodeValue a k v).
Proof.
  intros Hv h HR.
  destruct (h !! a) as [p|] eqn:Hp.
  2:{ unfold ctf_SetNodeValue, st_bind at 1, deref, st_bind, st_get, st_some.
      by rewrite Hp. }
  rewrite (ctf_SetNodeValue_run _ _ _ _ _ Hp). cbn.
  intros b. pose proof (HR b) as Hb. destruct (decide (b = a)) as [->|Hne].
  - rewrite lookup_insert_eq. rewrite Hp in Hb.
    destruct (h0 !! a) as [p0|]; [|done].
    destruct Hb as [_ (Ho & Hc & Hconf & Href & Hov & Hcv)].
    split; [done|].
    split; [done|].
    split; [cbn; by rewrite length_SetNodeValue|].
    do 2 (split; [done|]). split; [done|].
    cbn. intros n' Hn'. apply elem_of_SetNodeValue in Hn' as [->|Hn'].
    + by apply Hv.
    + by apply Hcv.
  - by rewrite lookup_insert_ne.
Qed.

(** The loop writes nodes read from the curve in [h0], moved. *)
Lemma otf_scale_loop_keeps a s otf_v h0 kv :
  Forall (fun kn => forall p0, h0 !! a = Some p0 -> snd kn ∈ ScalarOpacity p0) kv ->
  keeps_rel (only_curves_changed a) h0 (otf_scale_loop a s otf_v kv).
Proof.
  induction kv as [|[k vk] kv IH]; cbn [otf_scale_loop]; intros Hkv.
  - apply keeps_rel_ret.
  - apply Forall_cons in Hkv as [Hvk Hkv].
    apply keeps_rel_bind; [apply keeps_rel_read_only, read_only_some|]. intros x.
    apply keeps_rel_bind; [|intros _; by apply IH].
    apply otf_SetNodeValue_keeps. intros p0 Hp0. exists vk. split; [|done].
    by apply Hvk.
Qed.

Lemma ctf_scale_loop_keeps a s ctf_v h0 kv :
  Forall (fun kn => forall p0, h0 !! a = Some p0 -> snd kn ∈ RGBTransferFunction p0)
    kv ->
  keeps_rel (only_curves_changed a) h0 (ctf_scale_loop a s ctf_v kv).
Proof.
  induction kv as [|[k vk] kv IH]; cbn [ctf_scale_loop]; intros Hkv.
  - apply keeps_rel_ret.
  - apply Forall_cons in Hkv as [Hvk Hkv].
    apply keeps_rel_bind; [apply keeps_rel_read_only, read_only_some|]. intros x.
    apply keeps_rel_bind; [|intros _; by apply IH].
    apply ctf_SetNodeValue_keeps. intros p0 Hp0. exists vk. split; [|done].
    by apply Hvk.
Qed.

(** The nodes the first loop reads are nodes of the curve. *)
Lemma enumerate_nodes {A : Type} (l : list A) :
  Forall (fun kn : nat * A => snd kn ∈ l) (enumerate l).
Proof.
  apply Forall_forall. intros [k x] Hin. unfold enumerate in Hin.
  apply elem_of_zip_seq in Hin as (j & -> & Hj). cbn.
  by eapply list_elem_of_lookup_2.
Qed.

Lemma deref_None a h : h !! a = None -> deref a h = (Raise AttributeError, h).
Proof. intros H. unfold deref, st_bind, st_get, st_some. by rewrite H. Qed.

Lemma st_bind_keeps_after {A B : Type} a h0 h (m : stM prop_store A)
    (k : A -> stM prop_store B) :
  only_curves_changed a h0 (snd (m h)) ->
  (forall x h', m h = (Ok x, h') -> only_curves_changed a h0 (snd (k x h'))) ->
  only_curves_changed a h0 (snd (st_bind m k h)).
Proof.
  intros Hm Hk. unfold st_bind.
  destruct (m h) as [[x|e|] h'] eqn:E; cbn in *; [by apply Hk | done | done].
Qed.

Lemma UpdatePropertyOTFScale_frame a otf_s h :
  only_curves_changed a h (snd (UpdatePropertyOTFScale a otf_s h)).
Proof.
  destruct otf_s as [s|];
    [|rewrite read_only_OTF_query; apply only_curves_changed_refl].
  unfold UpdatePropertyOTFScale.
  destruct (h !! a) as [prop|] eqn:Hp.
  2:{ unfold st_bind at 1. rewrite (deref_None _ _ Hp).
      apply only_curves_changed_refl. }
  st_step (deref_run _ _ _ Hp).
  unfold st_bind at 1.
  rewrite (run_read_only (authored_conf a) h _ (read_only_authored_conf a) eq_refl).
  destruct (fst (authored_conf a h)) as [conf| |];
    try apply only_curves_changed_refl.
  unfold st_bind at 1.
  destruct (opacity_transfer_function conf) as [otf|]; cbn [st_some st_ret st_raise];
    [|apply only_curves_changed_refl].
  unfold st_bind at 1.
  destruct (AddPoint otf) as [otf_v|]; cbn [st_some st_ret st_raise];
    [|apply only_curves_changed_refl].
  assert (Hkv : Forall (fun kn : nat * otf_node =>
                          forall p0, h !! a = Some p0 -> snd kn ∈ ScalarOpacity p0)
                  (enumerate (ScalarOpacity prop))).
  { eapply Forall_impl; [apply enumerate_nodes|].
    intros kn Hkn p0 Hp0. cbn in Hkn. congruence. }
  apply st_bind_keeps_after.
  - apply (otf_scale_loop_keeps a s otf_v h _ Hkv). apply only_curves_changed_refl.
  - intros u h' Hrun. cbn.
    replace h' with (snd (otf_scale_loop a s otf_v (enumerate (ScalarOpacity prop)) h))
      by (by rewrite Hrun).
    apply (otf_scale_loop_keeps a s otf_v h _ Hkv). apply only_curves_changed_refl.
Qed.

Lemma UpdatePropertyCTFScale_frame a ctf_s h :
  only_curves_changed a h (snd (UpdatePropertyCTFScale a ctf_s h)).
Proof.
  destruct ctf_s as [s|];
    [|rewrite read_only_CTF_query; apply only_curves_changed_refl].
  unfold UpdatePropertyCTFScale.
  destruct (h !! a) as [prop|] eqn:Hp.
  2:{ unfold st_bind at 1. rewrite (deref_None _ _ Hp).
      apply only_curves_changed_refl. }
  st_step (deref_run _ _ _ Hp).
  unfold st_bind at 1.
  rewrite (run_read_only (authored_conf a) h _ (read_only_authored_conf a) eq_refl).
  destruct (fst (authored_conf a h)) as [conf| |];
    try apply only_curves_changed_refl.
  unfold st_bind at 1.
  destruct (color_transfer_function conf) as [ctf|]; cbn [st_some st_ret st_raise];
    [|apply only_curves_changed_refl].
  unfold st_bind at 1.
  destruct (AddRGBPoint ctf) as [ctf_v|]; cbn [st_some st_ret st_raise];
    [|apply only_curves_changed_refl].
  assert (Hkv : Forall (fun kn : nat * ctf_node =>
                          forall p0, h !! a = Some p0 ->
                                     snd kn ∈ RGBTransferFunction p0)
                  (enumerate (RGBTransferFunction prop))).
  { eapply Forall_impl; [apply enumerate_nodes|].
    intros kn Hkn p0 Hp0. cbn in Hkn. congruence. }
  apply st_bind_keeps_after.
  - apply (ctf_scale_loop_keeps a s ctf_v h _ Hkv). apply only_curves_changed_refl.
  - intros u h' Hrun. cbn.
    replace h' with (snd (ctf_scale_loop a s ctf_v
                            (enumerate (RGBTransferFunction prop)) h))
      by (by rewrite Hrun).
    apply (ctf_scale_loop_keeps a s ctf_v h _ Hkv). apply only_curves_changed_refl.
Qed.

Lemma same_but_curves_trans p1 p2 p3 :
  same_but_curves p1 p2 -> same_but_curves p2 p3 -> same_but_curves p1 p3.
Proof.
  intros (Ho & Hc & Hf & Hr & Hov & Hcv) (Ho' & Hc' & Hf' & Hr' & Hov' & Hcv').
  do 4 (split; [congruence|]). split.
  - intros n3 Hn3. destruct (Hov' n3 Hn3) as (n2 & Hn2 & E2).
    destruct (Hov n2 Hn2) as (n1 & Hn1 & E1). exists n1. split; [done|congruence].
  - intros n3 Hn3. destruct (Hcv' n3 Hn3) as (n2 & Hn2 & E2).
    destruct (Hcv n2 Hn2) as (n1 & Hn1 & E1). exists n1. split; [done|congruence].
Qed.

Lemma only_curves_changed_trans a h1 h2 h3 :
  only_curves_changed a h1 h2 -> only_curves_changed a h2 h3 ->
  only_curves_changed a h1 h3.
Proof.
  intros H12 H23 b. specialize (H12 b). specialize (H23 b).
  destruct (h1 !! b), (h2 !! b), (h3 !! b); try done.
  destruct H12 as [He Hs], H23 as [He' Hs']. split.
  - intros Hne. by rewrite He', He.
  - by eapply same_but_curves_trans.
Qed.

End ScalerFrame.

(** X4.  Rescaling touches nothing but the two curves of one property:
    whatever the argument, and whether the call returns or raises,
    [SetColorScale] and the two update functions leave every other
    property as it was (a property this one was copied from included) and
    keep, for the property they are called on, its authored configuration,
    its source property and the number of nodes of both curves; and every
    node of a curve afterwards carries the values (opacity or color,
    midpoint, sharpness) of some node of that curve before.  Which node
    carries which values may change, and values may be lost: a write that
    moves a node makes the toolkit sort the nodes again. *)
Theorem SetColorScale_changes_curves_only
    (obj_prop : nat) (scale : scale_arg) (s : option Q) (h : prop_store) :
  only_curves_changed obj_prop h (snd (SetColorScale obj_prop scale h))
  /\ only_curves_changed obj_prop h (snd (UpdatePropertyOTFScale obj_prop s h))
  /\ only_curves_changed obj_prop h (snd (UpdatePropertyCTFScale obj_prop s h)).
Proof.
  split; [|split; [apply UpdatePropertyOTFScale_frame
                  | apply UpdatePropertyCTFScale_frame]].
  unfold SetColorScale. apply st_bind_keeps_after.
  - destruct scale as [x|l]; [apply only_curves_changed_refl|].
    unfold st_bind, st_some.
    destruct (l !! 0); cbn; [|apply only_curves_changed_refl].
    destruct (l !! 1); cbn; apply only_curves_changed_refl.
  - intros ss h0 Hss.
    assert (h0 = h) as ->.
    { destruct scale as [x|l]; [by injection Hss|].
      revert Hss. unfold st_bind, st_some.
      destruct (l !! 0); cbn; [|done]. destruct (l !! 1); cbn; [|done].
      by intros [= _ <-]. }
    apply st_bind_keeps_after; [apply UpdatePropertyOTFScale_frame|].
    intros u1 h1 H1.
    assert (Hh1 : only_curves_changed obj_prop h h1).
    { replace h1 with (snd (UpdatePropertyOTFScale obj_prop (Some (fst ss)) h))
        by (by rewrite H1).
      apply UpdatePropertyOTFScale_frame. }
    apply st_bind_keeps_after.
    + eapply only_curves_changed_trans; [exact Hh1|].
      apply UpdatePropertyCTFScale_frame.
    + intros u2 h2 H2. cbn.
      eapply only_curves_changed_trans; [exact Hh1|].
      replace h2 with (snd (UpdatePropertyCTFScale obj_prop (Some (snd ss)) h1))
        by (by rewrite H2).
      apply UpdatePropertyCTFScale_frame.
Qed.

Section ScalerBounds.

Lemma otf_scale_loop_app a s otf_v kv1 kv2 h :
  otf_scale_loop a s otf_v (kv1 ++ kv2) h
  = st_bind (otf_scale_loop a s otf_v kv1)
      (fun _ => otf_scale_loop a s otf_v kv2) h.
Proof.
  revert h. induction kv1 as [|[k vk] kv1 IH]; intros h; [done|].
  cbn [app otf_scale_loop]. unfold st_bind in *.
  destruct (st_some IndexError (row_position otf_v k) h) as [[x|e|] h1]; try done.
  destruct (otf_SetNodeValue a k (otf_set_x (s * x) vk) h1) as [[u|e|] h2];
    try done.
Qed.

Lemma zip_seq_app {A : Type} (l1 l2 : list A) (k : nat) :
  zip (seq k (length (l1 ++ l2))) (l1 ++ l2)
  = zip (seq k (length l1)) l1 ++ zip (seq (k + length l1) (length l2)) l2.
Proof.
  revert k. induction l1 as [|x l1 IH]; intros k; cbn.
  - by rewrite Nat.add_0_r.
  - f_equal. rewrite IH. by rewrite Nat.add_succ_r.
Qed.

End ScalerBounds.

(** X5.  How [UpdatePropertyOTFScale] meets the end of the authored
    table, when every write leaves the nodes in order (so that the toolkit
    moves no node).  When the curve has no more nodes than the table has
    rows, the update returns and node [k] gets [s] times the position of
    row [k]; rows beyond the curve are not used.  When the curve has more
    nodes than the table has rows, the update raises [IndexError], and it
    has by then rescaled the nodes that have a row and left the others as
    they were. *)
Theorem UpdatePropertyOTFScale_table_bounds
    (h : prop_store) (a : nat) (prop : VolumeProperty)
    (otf_v ctf_v : list (list Q)) (oxs : list Q) (s : Q) :
  h !! a = Some prop ->
  authored_tables h a = Some (otf_v, ctf_v) ->
  positions_of otf_v oxs ->
  writes_in_order [] (Qmult s <$> oxs) (otf_x <$> ScalarOpacity prop) = true ->
  let pf := ScalarOpacity prop in
  let rescaled (nodes : list otf_node) :=
    zip_with (fun nd x => otf_set_x (s * x) nd) nodes oxs in
  (length pf <= length otf_v ->
   UpdatePropertyOTFScale a (Some s) h
   = (Ok None,
      <[a := MkVolumeProperty (rescaled pf)
               (RGBTransferFunction prop) (prop_conf prop) (ref_prop prop)]> h))
  /\ (length otf_v < length pf ->
      UpdatePropertyOTFScale a (Some s) h
      = (Raise IndexError,
         <[a := MkVolumeProperty
                  (rescaled (take (length otf_v) pf) ++ drop (length otf_v) pf)
                  (RGBTransferFunction prop) (prop_conf prop) (ref_prop prop)]> h)).
Proof.
  intros Hh Ht Hpos Hord pf rescaled.
  destruct (authored_tables_run _ _ _ _ Ht) as (conf & otf & ctf & Hc & Ho & Hov & _).
  pose proof (Forall2_length _ _ _ Hpos) as Hlen.
  assert (Hrun : UpdatePropertyOTFScale a (Some s) h
                 = st_bind (otf_scale_loop a s otf_v (enumerate pf))
                     (fun _ => st_ret None) h).
  { unfold UpdatePropertyOTFScale.
    st_step (deref_run _ _ _ Hh). st_step Hc. st_step Ho. by st_step Hov. }
  rewrite Hrun. split; intros Hcmp.
  - unfold enumerate, st_bind.
    pose proof (otf_scale_loop_stretch a s otf_v pf [] [] oxs h prop Hh)
      as Hloop.
    cbn [length app fmap list_fmap] in Hloop. rewrite Hloop.
    + by rewrite app_nil_r.
    + by rewrite app_nil_r.
    + lia.
    + intros j x Hx. cbn. by eapply positions_of_lookup.
    + by rewrite app_nil_r.
  - set (m := length otf_v) in *.
    assert (Hsplit : pf = take m pf ++ drop m pf) by (by rewrite take_drop).
    destruct (drop m pf) as [|vm tl] eqn:Hdrop.
    { apply (f_equal length) in Hdrop. rewrite length_drop in Hdrop. cbn in Hdrop. lia. }
    unfold enumerate. rewrite Hsplit at 1 2.
    rewrite zip_seq_app. unfold st_bind at 1. rewrite otf_scale_loop_app.
    assert (Htake : length (take m pf) = m) by (rewrite length_take; lia).
    unfold st_bind at 1.
    pose proof (otf_scale_loop_stretch a s otf_v (take m pf) [] (vm :: tl) oxs h prop Hh)
      as Hloop.
    cbn [length app fmap list_fmap] in Hloop. cbn [Nat.add]. rewrite Hloop.
    + cbn [length seq zip zip_with otf_scale_loop]. rewrite Htake.
      unfold st_bind at 1.
      assert (Hnone : row_position otf_v m = None).
      { unfold row_position. by rewrite lookup_ge_None_2. }
      rewrite Hnone. cbn. done.
    + by rewrite <- Hsplit.
    + lia.
    + intros j x Hx. cbn. by eapply positions_of_lookup.
    + by rewrite <- Hsplit.
Qed.

Lemma UpdatePropertyOTFScale_table_bounds_witness :
  fst (UpdatePropertyOTFScale 0 (Some 2%Q) three_point_store) = Ok None.
Proof.
  destruct (UpdatePropertyOTFScale_table_bounds three_point_store 0
              (MkVolumeProperty
                 [OtfNode (1 * 0) 0 (1 # 2) 0; OtfNode (1 * 100) (1 # 2) (1 # 2) 0]
                 [CtfNode (0 * 1) 0 0 0 (1 # 2) 0; CtfNode (255 * 1) 1 1 1 (1 # 2) 0]
                 (MkPropConf (Some three_point_otf) (Some two_point_ctf)) None)
              [[0; 0]; [100; 1 # 2]; [200; 1]]%Q
              [[0; 0; 0; 0]; [255; 1; 1; 1]]%Q
              [0; 100; 200]%Q 2%Q) as [Hok _].
  - vm_compute. reflexivity.
  - vm_compute. reflexivity.
  - repeat constructor.
  - reflexivity.
  - rewrite Hok; [reflexivity | cbn; lia].
Defined.

Section ScalerSequence.

Lemma SetColorScale_seq_run h a prop otf_v ctf_v oxs cxs l so sc :
  h !! a = Some prop ->
  authored_tables h a = Some (otf_v, ctf_v) ->
  positions_of otf_v oxs ->
  positions_of ctf_v cxs ->
  length (ScalarOpacity prop) = length otf_v ->
  length (RGBTransferFunction prop) = length ctf_v ->
  l !! 0 = Some so -> l !! 1 = Some sc ->
  writes_in_order [] (Qmult so <$> oxs) (otf_x <$> ScalarOpacity prop) = true ->
  writes_in_order [] (Qmult sc <$> cxs) (ctf_x <$> RGBTransferFunction prop) = true ->
  SetColorScale a (ScaleSeq l) h
  = (Ok tt,
     <[a := MkVolumeProperty
              (zip_with (fun nd x => otf_set_x (so * x) nd) (ScalarOpacity prop) oxs)
              (zip_with (fun nd x => ctf_set_x (sc * x) nd)
                 (RGBTransferFunction prop) cxs)
              (prop_conf prop) (ref_prop prop)]> h).
Proof.
  intros Hh Ht Hopos Hcpos Holen Hclen Hso Hsc Hoord Hcord.
  set (prop1 := MkVolumeProperty
                  (zip_with (fun nd x => otf_set_x (so * x) nd) (ScalarOpacity prop) oxs)
                  (RGBTransferFunction prop) (prop_conf prop) (ref_prop prop)).
  assert (Ht1 : authored_tables (<[a := prop1]> h) a = Some (otf_v, ctf_v))
    by (by rewrite (authored_tables_insert h a prop prop1)).
  assert (Hh1 : <[a := prop1]> h !! a = Some prop1) by apply lookup_insert_eq.
  unfold SetColorScale. unfold st_bind at 1. unfold st_bind at 1.
  rewrite Hso. cbn [st_some st_ret]. unfold st_bind at 1.
  rewrite Hsc. cbn [st_some st_ret fst snd].
  st_step (UpdatePropertyOTFScale_run h a prop otf_v ctf_v oxs so Hh Ht Hopos Holen Hoord).
  fold prop1.
  st_step (UpdatePropertyCTFScale_run _ a prop1 otf_v ctf_v cxs sc Hh1 Ht1 Hcpos Hclen Hcord).
  cbn [ScalarOpacity RGBTransferFunction prop_conf ref_prop prop1].
  by rewrite insert_insert_eq.
Qed.

End ScalerSequence.

(** X6.  [SetColorScale] with a sequence.  A sequence with fewer than two
    entries raises [IndexError] and leaves the store as it was.  With at
    least two entries, for a property whose curves have as many nodes as
    the authored tables have rows and whose final authored positions are
    nonzero, and when every write of the two scaled tables leaves the nodes
    in order (so that the toolkit moves no node), the call returns and
    [GetColorScale] afterwards reads back the first entry for the opacity
    curve and the second for the color curve; further entries are
    ignored. *)
Theorem SetColorScale_sequence
    (h : prop_store) (a : nat) (prop : VolumeProperty)
    (otf_v ctf_v : list (list Q)) (oxs cxs : list Q) (ox cx : Q) (l : list Q) :
  h !! a = Some prop ->
  authored_tables h a = Some (otf_v, ctf_v) ->
  positions_of otf_v oxs ->
  positions_of ctf_v cxs ->
  length (ScalarOpacity prop) = length otf_v ->
  length (RGBTransferFunction prop) = length ctf_v ->
  last oxs = Some ox -> last cxs = Some cx ->
  ~ (ox == 0)%Q -> ~ (cx == 0)%Q ->
  (length l < 2 -> SetColorScale a (ScaleSeq l) h = (Raise IndexError, h))
  /\ (forall so sc, l !! 0 = Some so -> l !! 1 = Some sc ->
      writes_in_order [] (Qmult so <$> oxs) (otf_x <$> ScalarOpacity prop) = true ->
      writes_in_order [] (Qmult sc <$> cxs) (ctf_x <$> RGBTransferFunction prop)
      = true ->
      exists ro rc h',
        st_bind (SetColorScale a (ScaleSeq l)) (fun _ => GetColorScale a) h
        = (Ok (ro, rc), h')
        /\ (ro == so)%Q /\ (rc == sc)%Q).
Proof.
  intros Hh Ht Hopos Hcpos Holen Hclen Hlo Hlc Hnz Hcnz.
  pose proof (Forall2_length _ _ _ Hopos) as Hol.
  pose proof (Forall2_length _ _ _ Hcpos) as Hcl.
  split.
  - intros Hlen. unfold SetColorScale, st_bind, st_some.
    destruct l as [|x [|y l]]; [done | done | cbn in Hlen; lia].
  - intros so sc Hso Hsc Hoord Hcord.
    set (pf' := zip_with (fun nd x => otf_set_x (so * x) nd) (ScalarOpacity prop) oxs).
    set (cf' := zip_with (fun nd x => ctf_set_x (sc * x) nd)
                  (RGBTransferFunction prop) cxs).
    set (prop2 := MkVolumeProperty pf' cf' (prop_conf prop) (ref_prop prop)).
    assert (Ht2 : authored_tables (<[a := prop2]> h) a = Some (otf_v, ctf_v))
      by (by rewrite (authored_tables_insert h a prop prop2)).
    assert (Hh2 : <[a := prop2]> h !! a = Some prop2) by apply lookup_insert_eq.
    assert (exists on, last (ScalarOpacity prop) = Some on) as [on Hon].
    { destruct (ScalarOpacity prop) as [|n ns] eqn:E using rev_ind.
      - destruct oxs; [done | cbn in *; lia].
      - rewrite last_snoc. eauto. }
    assert (exists cn, last (RGBTransferFunction prop) = Some cn) as [cn Hcn].
    { destruct (RGBTransferFunction prop) as [|n ns] eqn:E using rev_ind.
      - destruct cxs; [done | cbn in *; lia].
      - rewrite last_snoc. eauto. }
    exists (otf_x (otf_set_x (so * ox) on) / ox)%Q,
           (ctf_x (ctf_set_x (sc * cx) cn) / cx)%Q, (<[a := prop2]> h).
    split.
    + unfold st_bind at 1.
      rewrite (SetColorScale_seq_run h a prop otf_v ctf_v oxs cxs l so sc) by done.
      fold pf' cf' prop2.
      apply (GetColorScale_run _ a prop2 otf_v ctf_v
               (otf_set_x (so * ox) on) (ctf_set_x (sc * cx) cn) ox cx Hh2 Ht2).
      * apply (last_zip_with (fun nd x => otf_set_x (so * x) nd));
          [lia | exact Hon | exact Hlo].
      * apply (last_zip_with (fun nd x => ctf_set_x (sc * x) nd));
          [lia | exact Hcn | exact Hlc].
      * by eapply positions_of_last.
      * by eapply positions_of_last.
    + cbn. split; by apply Qdiv_mult_l.
Qed.

Lemma SetColorScale_sequence_witness :
  exists ro rc h',
    st_bind (SetColorScale 0 (ScaleSeq [3; 5; 7]%Q)) (fun _ => GetColorScale 0)
      default_store
    = (Ok (ro, rc), h')
    /\ (ro == 3)%Q /\ (rc == 5)%Q.
Proof.
  destruct (SetColorScale_sequence default_store 0
              (MkVolumeProperty
                 [OtfNode 800 0 (1 # 2) 0; OtfNode (40 * 255) (2 # 10) (1 # 2) 0]
                 [CtfNode 0 0 0 0 (1 # 2) 0; CtfNode (64 * 40) 1 0 0 (1 # 2) 0;
                  CtfNode (128 * 40) 0 0 1 (1 # 2) 0;
                  CtfNode (192 * 40) 0 1 0 (1 # 2) 0;
                  CtfNode (255 * 40) 0 (2 # 10) 0 (1 # 2) 0]
                 (MkPropConf (Some default_otf) (Some default_ctf)) None)
              [[20; 0]; [255; 2 # 10]]%Q
              [[0; 0; 0; 0]; [64; 1; 0; 0]; [128; 0; 0; 1];
               [192; 0; 1; 0]; [255; 0; 2 # 10; 0]]%Q
              [20; 255]%Q [0; 64; 128; 192; 255]%Q 255%Q 255%Q [3; 5; 7]%Q)
    as [_ Hseq].
  - vm_compute. reflexivity.
  - vm_compute. reflexivity.
  - repeat constructor.
  - repeat constructor.
  - reflexivity.
  - reflexivity.
  - reflexivity.
  - reflexivity.
  - done.
  - done.
  - exact (Hseq 3%Q 5%Q eq_refl eq_refl eq_refl eq_refl).
Defined.

(** ** AddObjectProperty and ModifyObjectProperty *)

Section PropertyBookProofs.
Variable own_curves : PropConf -> result (list otf_node * list ctf_node).

Lemma in_store_run {A : Type} (m : stM prop_store A) b r h :
  m (property_store b) = (r, h) ->
  in_store m b = (r, MkPropertyBook (object_properties b) h).
Proof. intros H. unfold in_store. by rewrite H. Qed.

Lemma property_named_run name b a :
  object_properties b !! name = Some a -> property_named name b = (Ok a, b).
Proof. intros H. unfold property_named, st_bind, st_get, st_some. by rewrite H. Qed.

Lemma property_named_missing name b :
  object_properties b !! name = None -> property_named name b = (Raise KeyError, b).
Proof. intros H. unfold property_named, st_bind, st_get, st_some. by rewrite H. Qed.

Lemma fresh_address_unused (h : prop_store) : h !! fresh (dom h) = None.
Proof. apply not_elem_of_dom. apply is_fresh. Qed.

(** The authored tables of a property copied from [r] are those of [r]'s
    own configuration. *)
Lemma authored_conf_derived h n p r rp :
  h !! n = Some p -> ref_prop p = Some r -> h !! r = Some rp ->
  authored_conf n h = (Ok (prop_conf rp), h).
Proof.
  intros Hn Hr Hrp. unfold authored_conf.
  st_step (deref_run _ _ _ Hn). rewrite Hr.
  by st_step (deref_run _ _ _ Hrp).
Qed.

End PropertyBookProofs.

(** X7.  A property derived with [copy_from] and its own two scales: the
    new name is registered to a new property object whose curves are the
    source's curves with every position set to the scale times the
    position authored for the source, the node values being those of the
    source; the source property and every other property stay as they
    were.  This needs the source's curves to have as many nodes as its
    authored tables have rows, and every write of the two scaled tables to
    leave the nodes in order (so that the toolkit moves no node). *)
Theorem AddObjectProperty_copy_from_scales
    (own_curves : PropConf -> result (list otf_node * list ctf_node))
    (b : PropertyBook) (name source : string) (r : nat) (rp : VolumeProperty)
    (otf : otf_conf) (ctf : ctf_conf) (otf_v ctf_v : list (list Q))
    (oxs cxs : list Q) (conf : PropConf) (oc : otf_conf) (cc : ctf_conf) (so sc : Q) :
  String.prefix "volume" name = true ->
  object_properties b !! source = Some r ->
  property_store b !! r = Some rp ->
  opacity_transfer_function (prop_conf rp) = Some otf -> AddPoint otf = Some otf_v ->
  color_transfer_function (prop_conf rp) = Some ctf -> AddRGBPoint ctf = Some ctf_v ->
  positions_of otf_v oxs ->
  positions_of ctf_v cxs ->
  length (ScalarOpacity rp) = length otf_v ->
  length (RGBTransferFunction rp) = length ctf_v ->
  opacity_transfer_function conf = Some oc -> opacity_scale oc = Some so ->
  color_transfer_function conf = Some cc -> trans_scale cc = Some sc ->
  writes_in_order [] (Qmult so <$> oxs) (otf_x <$> ScalarOpacity rp) = true ->
  writes_in_order [] (Qmult sc <$> cxs) (ctf_x <$> RGBTransferFunction rp) = true ->
  let n := fresh (dom (property_store b)) in
  let derived :=
    MkVolumeProperty
      (zip_with (fun nd x => otf_set_x (so * x) nd) (ScalarOpacity rp) oxs)
      (zip_with (fun nd x => ctf_set_x (sc * x) nd) (RGBTransferFunction rp) cxs)
      conf (Some r) in
  AddObjectProperty own_curves name (Some source) conf b
  = (Ok tt, MkPropertyBook (<[name := n]> (object_properties b))
              (<[n := derived]> (property_store b)))
  /\ property_store b !! n = None
  /\ <[n := derived]> (property_store b) !! r = Some rp
  /\ otf_x <$> ScalarOpacity derived = Qmult so <$> oxs
  /\ ctf_x <$> RGBTransferFunction derived = Qmult sc <$> cxs.
Proof.
  intros Hpre Hsrc Hrp Hotf Hov Hctf Hcv Hopos Hcpos Holen Hclen Hoc Hso Hcc Hsc
    Hoord Hcord n derived.
  pose proof (fresh_address_unused (property_store b)) as Hfresh. fold n in Hfresh.
  assert (Hne : n <> r) by (intros ->; congruence).
  pose proof (Forall2_length _ _ _ Hopos) as Hol.
  pose proof (Forall2_length _ _ _ Hcpos) as Hcl.
  split; [|split; [done|split; [by rewrite lookup_insert_ne|split]]].
  - unfold AddObjectProperty. rewrite Hpre.
    st_step (property_named_run _ _ _ Hsrc).
    st_step (in_store_run (deref r) b _ _ (deref_run _ _ _ Hrp)).
    unfold st_bind at 1. unfold new_property at 1, st_bind at 1, st_get at 1.
    cbn [property_store object_properties]. unfold st_bind at 1, st_put at 1, st_ret at 1.
    fold n.
    set (copy := MkVolumeProperty (ScalarOpacity rp) (RGBTransferFunction rp)
                   conf (Some r)).
    set (h1 := <[n := copy]> (property_store b)).
    unfold st_bind at 1. unfold register_property at 1, st_bind at 1, st_get at 1.
    unfold st_put at 1. cbn [property_store object_properties].
    set (book1 := MkPropertyBook (<[name := n]> (object_properties b)) h1).
    (* the tables the scaler finds for the copy are the source's *)
    assert (Hn1 : h1 !! n = Some copy) by apply lookup_insert_eq.
    assert (Hr1 : h1 !! r = Some rp) by (unfold h1; by rewrite lookup_insert_ne).
    assert (Ht1 : authored_tables h1 n = Some (otf_v, ctf_v)).
    { unfold authored_tables.
      rewrite (authored_conf_derived h1 n copy r rp Hn1 eq_refl Hr1). cbn.
      rewrite Hotf. cbn. rewrite Hov. cbn. rewrite Hctf. cbn. by rewrite Hcv. }
    unfold ModifyObjectProperty.
    st_step (property_named_run name book1 n (lookup_insert_eq _ _ _)).
    rewrite Hpre, Hoc, Hso, Hcc, Hsc.
    unfold st_bind at 1. unfold st_bind at 1.
    rewrite (in_store_run (UpdatePropertyOTFScale n (Some so)) book1 _ _
               (UpdatePropertyOTFScale_run h1 n copy otf_v ctf_v oxs so
                  Hn1 Ht1 Hopos Holen Hoord)).
    unfold book1.
    cbn [st_ret ScalarOpacity RGBTransferFunction prop_conf ref_prop copy
           object_properties property_store].
    set (prop1 := MkVolumeProperty _ (RGBTransferFunction rp) conf (Some r)).
    assert (Hn2 : <[n := prop1]> h1 !! n = Some prop1) by apply lookup_insert_eq.
    assert (Ht2 : authored_tables (<[n := prop1]> h1) n = Some (otf_v, ctf_v))
      by (by rewrite (authored_tables_insert h1 n copy prop1)).
    unfold st_bind at 1.
    rewrite (in_store_run (UpdatePropertyCTFScale n (Some sc))
               (MkPropertyBook (<[name := n]> (object_properties b))
                  (<[n := prop1]> h1)) _ _
               (UpdatePropertyCTFScale_run _ n prop1 otf_v ctf_v cxs sc
                  Hn2 Ht2 Hcpos Hclen Hcord)).
    cbn [st_ret ScalarOpacity RGBTransferFunction prop_conf ref_prop prop1
           object_properties].
    unfold h1. by rewrite !insert_insert_eq.
  - apply fmap_zip_with_r; [done | cbn; lia].
  - apply fmap_zip_with_r; [done | cbn; lia].
Qed.

(** [EasyObjectImporter]'s [colorscale = 2] on the default scene: the new
    property is at twice the authored positions. *)
Lemma AddObjectProperty_copy_from_scales_witness :
  exists b',
    AddObjectProperty (fun _ => Raise KeyError) "volume.001" (Some "volume")
      (colorscale_conf 2) default_book = (Ok tt, b')
    /\ object_properties b' !! "volume.001" = Some 1.
Proof.
  destruct (AddObjectProperty_copy_from_scales (fun _ => Raise KeyError)
              default_book "volume.001" "volume" 0
              (MkVolumeProperty
                 [OtfNode 800 0 (1 # 2) 0; OtfNode (40 * 255) (2 # 10) (1 # 2) 0]
                 [CtfNode 0 0 0 0 (1 # 2) 0; CtfNode (64 * 40) 1 0 0 (1 # 2) 0;
                  CtfNode (128 * 40) 0 0 1 (1 # 2) 0;
                  CtfNode (192 * 40) 0 1 0 (1 # 2) 0;
                  CtfNode (255 * 40) 0 (2 # 10) 0 (1 # 2) 0]
                 (MkPropConf (Some default_otf) (Some default_ctf)) None)
              default_otf default_ctf
              [[20; 0]; [255; 2 # 10]]%Q
              [[0; 0; 0; 0]; [64; 1; 0; 0]; [128; 0; 0; 1];
               [192; 0; 1; 0]; [255; 0; 2 # 10; 0]]%Q
              [20; 255]%Q [0; 64; 128; 192; 255]%Q
              (colorscale_conf 2) (OtfConf None (Some 2%Q)) (CtfConf None (Some 2%Q))
              2%Q 2%Q) as [Hrun _].
  - reflexivity.
  - reflexivity.
  - vm_compute. reflexivity.
  - reflexivity.
  - reflexivity.
  - reflexivity.
  - reflexivity.
  - repeat constructor.
  - repeat constructor.
  - reflexivity.
  - reflexivity.
  - reflexivity.
  - reflexivity.
  - reflexivity.
  - reflexivity.
  - vm_compute. reflexivity.
  - vm_compute. reflexivity.
  - eexists. split; [exact Hrun|]. vm_compute. reflexivity.
Defined.

(** X8.  How [AddObjectProperty] and [ModifyObjectProperty] fail.  A name
    that does not start with ["volume"] raises a [NameError] (the unbound
    [object_property]); a [copy_from] that is not registered raises
    [KeyError]; modifying an unregistered name raises [KeyError]: in these
    cases nothing is changed.  But when the source of a [copy_from] has no
    authored opacity table in its own configuration, as a property that
    was itself created from scales only, and the new configuration gives
    an opacity scale, the call raises [KeyError] after the new name has
    been registered to an unscaled copy of the source. *)
Theorem AddObjectProperty_failures
    (own_curves : PropConf -> result (list otf_node * list ctf_node))
    (b : PropertyBook) (name source : string) (conf : PropConf) :
  (forall copy_from,
     String.prefix "volume" name = false ->
     AddObjectProperty own_curves name copy_from conf b = (Raise NameError, b))
  /\ (String.prefix "volume" name = true ->
      object_properties b !! source = None ->
      AddObjectProperty own_curves name (Some source) conf b = (Raise KeyError, b))
  /\ (object_properties b !! name = None ->
      ModifyObjectProperty name conf b = (Raise KeyError, b))
  /\ (forall r rp oc so,
        String.prefix "volume" name = true ->
        object_properties b !! source = Some r ->
        property_store b !! r = Some rp ->
        opacity_transfer_function (prop_conf rp) ≫= AddPoint = None ->
        opacity_transfer_function conf = Some oc ->
        opacity_scale oc = Some so ->
        let n := fresh (dom (property_store b)) in
        AddObjectProperty own_curves name (Some source) conf b
        = (Raise KeyError,
           MkPropertyBook (<[name := n]> (object_properties b))
             (<[n := MkVolumeProperty (ScalarOpacity rp) (RGBTransferFunction rp)
                       conf (Some r)]> (property_store b)))).
Proof.
  split; [|split; [|split]].
  - intros copy_from Hpre. unfold AddObjectProperty. by rewrite Hpre.
  - intros Hpre Hsrc. unfold AddObjectProperty. rewrite Hpre.
    unfold st_bind. by rewrite (property_named_missing _ _ Hsrc).
  - intros Hname. unfold ModifyObjectProperty, st_bind.
    by rewrite (property_named_missing _ _ Hname).
  - intros r rp oc so Hpre Hsrc Hrp Hnone Hoc Hso n.
    pose proof (fresh_address_unused (property_store b)) as Hfresh. fold n in Hfresh.
    assert (Hne : n <> r) by (intros ->; congruence).
    unfold AddObjectProperty. rewrite Hpre.
    st_step (property_named_run _ _ _ Hsrc).
    st_step (in_store_run (deref r) b _ _ (deref_run _ _ _ Hrp)).
    unfold st_bind at 1. unfold new_property at 1, st_bind at 1, st_get at 1.
    cbn [property_store object_properties]. unfold st_bind at 1, st_put at 1, st_ret at 1.
    fold n.
    set (copy := MkVolumeProperty (ScalarOpacity rp) (RGBTransferFunction rp)
                   conf (Some r)).
    set (h1 := <[n := copy]> (property_store b)).
    unfold st_bind at 1. unfold register_property at 1, st_bind at 1, st_get at 1.
    unfold st_put at 1. cbn [property_store object_properties].
    assert (Hn1 : h1 !! n = Some copy) by apply lookup_insert_eq.
    assert (Hr1 : h1 !! r = Some rp) by (unfold h1; by rewrite lookup_insert_ne).
    assert (Hupd : UpdatePropertyOTFScale n (Some so) h1 = (Raise KeyError, h1)).
    { unfold UpdatePropertyOTFScale.
      st_step (deref_run _ _ _ Hn1).
      st_step (authored_conf_derived h1 n copy r rp Hn1 eq_refl Hr1).
      unfold st_bind at 1.
      destruct (opacity_transfer_function (prop_conf rp)) as [otf|]; [|done].
      cbn in Hnone. cbn [st_some st_ret]. unfold st_bind at 1. by rewrite Hnone. }
    unfold ModifyObjectProperty.
    st_step (property_named_run name
               (MkPropertyBook (<[name := n]> (object_properties b)) h1) n
               (lookup_insert_eq _ _ _)).
    rewrite Hpre, Hoc, Hso.
    unfold st_bind at 1. unfold st_bind at 1.
    by rewrite (in_store_run (UpdatePropertyOTFScale n (Some so))
                  (MkPropertyBook (<[name := n]> (object_properties b)) h1) _ _ Hupd).
Qed.

(** ** SplitSWCTree: what holds for every input *)

Section SplitterShape.

Lemma SplitSWCTree_stages fuel tr0 :
  SplitSWCTree fuel tr0
  = let* parent := relabel_parents tr0 in
    mapR (one_process fuel (child_counts tr0 parent) parent)
      (nonzero_minus_1 (child_counts tr0 parent)).
Proof.
  unfold SplitSWCTree, relabel_parents, child_counts.
  destruct (max_list _) as [max_id| |]; cbn; [|done|done].
  destruct (np_zeros _) as [a0| |]; cbn; [|done|done].
  destruct (np_set a0 _ _) as [a1| |]; cbn; [|done|done].
  destruct (assign_arange a1 _ _) as [a2| |]; cbn; [|done|done].
  destruct (mapR (np_get a2) (map row_id tr0)) as [ids'| |]; cbn; [|done|done].
  done.
Qed.

Lemma mapR_Forall2 {A B : Type} (f : A -> result B) l bs :
  mapR f l = Ok bs -> Forall2 (fun a b => f a = Ok b) l bs.
Proof.
  revert bs. induction l as [|a l IH]; intros bs; cbn.
  - intros [= <-]. constructor.
  - intros H. apply bind_Ok in H as (b & Hb & H).
    apply bind_Ok in H as (bs' & Hbs & [= <-]).
    constructor; [done | by apply IH].
Qed.

Lemma histogram_length a edges : length (histogram a edges) = length edges - 1.
Proof.
  induction edges as [|lo [|hi rest] IH]; cbn in *; [done | done |].
  rewrite IH. lia.
Qed.

Lemma child_counts_length tr0 parent :
  length (child_counts tr0 parent) = length tr0 - 1.
Proof.
  unfold child_counts, np_arange.
  by rewrite histogram_length, length_map, length_seq.
Qed.

Lemma nonzero_minus_1_bound a e :
  e ∈ nonzero_minus_1 a -> (0 <= e < Z.of_nat (length a))%Z.
Proof.
  unfold nonzero_minus_1. intros Hin.
  apply list_elem_of_In, in_map_iff in Hin as ([k x] & <- & Hin).
  apply list_elem_of_In, list_elem_of_filter in Hin as [_ Hin].
  apply elem_of_zip_seq in Hin as (j & -> & Hj). cbn.
  apply lookup_lt_Some in Hj. lia.
Qed.

Lemma nonzero_minus_1_length a : length (nonzero_minus_1 a) <= length a.
Proof.
  unfold nonzero_minus_1. rewrite length_map.
  etransitivity; [apply length_filter|].
  rewrite length_zip_with, length_seq. lia.
Qed.

(** The walk only appends to the filament. *)
Lemma walk_up_extends n_child parent :
  forall fuel i filament r,
    walk_up fuel n_child parent i filament = Ok r ->
    exists rest, r = filament ++ rest.
Proof.
  induction fuel as [|fuel IH]; intros i filament r; cbn; [done|].
  destruct (np_get n_child i) as [c| |]; cbn; [|done|done].
  destruct ((c =? 1)%Z && negb (i =? -1)%Z).
  - destruct (np_get parent i) as [p| |]; cbn; [|done|done].
    intros H. apply IH in H as [rest ->].
    exists ([i] ++ rest). by rewrite app_assoc.
  - intros [= <-]. destruct (i =? -1)%Z; [exists []; by rewrite app_nil_r | eauto].
Qed.

Lemma one_process_last fuel n_child parent eid seg :
  one_process fuel n_child parent eid = Ok seg -> last seg = Some eid.
Proof.
  unfold one_process. intros H.
  apply bind_Ok in H as (p & _ & H). apply bind_Ok in H as (fil & Hw & [= <-]).
  apply walk_up_extends in Hw as [rest ->].
  rewrite rev_app_distr. cbn. apply last_snoc.
Qed.

End SplitterShape.

(** X9.  What every result of [SplitSWCTree] looks like.  An empty table
    raises [ValueError].  When the function returns, for any input, there
    are at most [n - 1] segments for [n] rows, every segment is non-empty
    and ends at a distinct row index below [n - 1]: no segment ends at the
    last row. *)
Theorem SplitSWCTree_segment_ends (fuel : nat) (tr0 : list swc_row)
    (segs : list (list Z)) :
  SplitSWCTree fuel [] = Raise ValueError
  /\ (SplitSWCTree fuel tr0 = Ok segs ->
      length segs <= length tr0 - 1
      /\ (exists ends,
            Forall2 (fun seg e => last seg = Some e) segs ends
            /\ NoDup ends
            /\ Forall (fun e => (0 <= e < Z.of_nat (length tr0 - 1))%Z) ends)).
Proof.
  split; [done|].
  rewrite SplitSWCTree_stages. intros H.
  apply bind_Ok in H as (parent & _ & H).
  pose proof (child_counts_length tr0 parent) as Hlen.
  set (n_child := child_counts tr0 parent) in *.
  apply mapR_Forall2 in H. split.
  - rewrite <- (Forall2_length _ _ _ H), <- Hlen. apply nonzero_minus_1_length.
  - exists (nonzero_minus_1 n_child). split; [|split].
    + apply Forall2_flip. eapply Forall2_impl; [exact H|].
      intros e seg. apply one_process_last.
    + unfold nonzero_minus_1. apply NoDup_fmap_2_strong.
      * intros [k x] [k' x'] Hin Hin' Hk. cbn in Hk.
        apply list_elem_of_filter in Hin as [_ Hin].
        apply list_elem_of_filter in Hin' as [_ Hin'].
        apply elem_of_zip_seq in Hin as (j & -> & Hj).
        apply elem_of_zip_seq in Hin' as (j' & -> & Hj').
        assert (j = j') as -> by lia. congruence.
      * apply NoDup_filter. apply (NoDup_fmap_1 fst).
        rewrite fst_zip by (by rewrite length_seq). apply NoDup_seq.
    + apply Forall_forall. intros e He. rewrite <- Hlen.
      by apply nonzero_minus_1_bound.
Qed.

Section SplitterChains.

Lemma is_chain_snoc parent filament x y :
  is_chain parent (filament ++ [x]) ->
  np_get parent x = Ok y ->
  is_chain parent ((filament ++ [x]) ++ [y]).
Proof.
  induction filament as [|a fil IH]; cbn [app].
  - intros _ Hxy. cbn. by split.
  - destruct fil as [|b fil]; cbn [app] in *.
    + intros [Hax _] Hxy. cbn. by repeat split.
    + intros [Hab Hrest] Hxy. split; [done|]. by apply IH.
Qed.

(** The walk keeps the filament a chain of non-negative entries, when it
    starts from one whose last entry has [i] for parent. *)
Lemma np_get_nonneg {A : Type} (a : list A) (i : Z) (v : A) :
  np_get a i = Ok v -> (0 <= i)%Z ->
  (i < Z.of_nat (length a))%Z /\ a !! Z.to_nat i = Some v.
Proof.
  unfold np_get, np_index. intros H Hi.
  destruct ((0 <=? i)%Z && (i <? Z.of_nat (length a))%Z) eqn:Hin.
  - apply andb_true_iff in Hin as [_ Hlt%Z.ltb_lt].
    destruct (a !! Z.to_nat i) as [w|]; [|done]. by injection H as ->.
  - destruct ((- Z.of_nat (length a) <=? i)%Z && (i <? 0)%Z) eqn:Hneg; [|done].
    apply andb_true_iff in Hneg as [_ Hlt%Z.ltb_lt]. lia.
Qed.

Lemma np_get_elem {A : Type} (a : list A) (i : Z) (v : A) :
  np_get a i = Ok v -> v ∈ a.
Proof.
  unfold np_get. destruct (np_index _ i) as [j|]; [|done].
  destruct (a !! j) as [w|] eqn:Hw; [|done]. intros [= <-].
  apply list_elem_of_lookup. eauto.
Qed.

(** What the walk keeps and what it ends on, when it starts from a chain
    whose last entry has [i] for parent: the filament stays a chain of
    row indices that the child counts cover; every entry the loop appends
    has child count 1; and the walk stops either on a row without parent,
    or by appending a row whose child count is not 1. *)
Lemma walk_up_inv n_child parent :
  Forall (fun p => (-1 <= p)%Z) parent ->
  forall fuel i filament x r,
    is_chain parent (filament ++ [x]) ->
    Forall (fun e => (0 <= e < Z.of_nat (length n_child))%Z) (filament ++ [x]) ->
    np_get parent x = Ok i ->
    walk_up fuel n_child parent i (filament ++ [x]) = Ok r ->
    is_chain parent r
    /\ Forall (fun e => (0 <= e < Z.of_nat (length n_child))%Z) r
    /\ exists middle top,
         r = (filament ++ [x]) ++ middle ++ top
         /\ Forall (fun e => np_get n_child e = Ok 1%Z) middle
         /\ ((top = [] /\ exists l, last r = Some l /\ np_get parent l = Ok (-1)%Z)
             \/ exists t c, top = [t] /\ np_get n_child t = Ok c /\ c <> 1%Z).
Proof.
  intros Hpar. induction fuel as [|fuel IH]; intros i filament x r Hch Hpos Hx;
    cbn; [done|].
  assert (Hi : (-1 <= i)%Z).
  { rewrite Forall_forall in Hpar. apply Hpar. by apply (np_get_elem _ x). }
  destruct (np_get n_child i) as [c| |] eqn:Hc; cbn; [|done|done].
  assert (Hbound : i <> (-1)%Z ->
            Forall (fun e => (0 <= e < Z.of_nat (length n_child))%Z)
              ((filament ++ [x]) ++ [i])).
  { intros Hne. apply Forall_app. split; [done|].
    constructor; [|constructor].
    destruct (np_get_nonneg n_child i c Hc) as [Hlt _]; lia. }
  destruct ((c =? 1)%Z && negb (i =? -1)%Z) eqn:Hcond.
  - destruct (np_get parent i) as [p| |] eqn:Hp; cbn; [|done|done].
    apply andb_true_iff in Hcond as [Hc1 Hne].
    apply Z.eqb_eq in Hc1 as ->. apply negb_true_iff, Z.eqb_neq in Hne.
    intros Hw.
    destruct (IH p (filament ++ [x]) i r) as (Hch' & Hpos' & middle & top & -> & Hmid & Htop);
      [by apply is_chain_snoc | by apply Hbound | done | done |].
    split; [done|]. split; [done|].
    exists (i :: middle), top. split; [|split; [by constructor | done]].
    by rewrite <- !(assoc_L (++)).
  - intros [= <-]. destruct (i =? -1)%Z eqn:Hm1.
    + apply Z.eqb_eq in Hm1 as ->. split; [done|]. split; [done|].
      exists [], []. split; [by rewrite !app_nil_r|]. split; [constructor|].
      left. split; [done|]. exists x. by rewrite last_snoc.
    + apply Z.eqb_neq in Hm1. cbn [negb] in Hcond.
      rewrite andb_true_r in Hcond. apply Z.eqb_neq in Hcond.
      split; [by apply is_chain_snoc|]. split; [by apply Hbound|].
      exists [], [i]. split; [done|]. split; [constructor|].
      right. by exists i, c.
Qed.

Lemma consecutive_edges_snoc seg x :
  consecutive_edges (seg ++ [x])
  = consecutive_edges seg
    ++ match last seg with Some y => [(x, y)] | None => [] end.
Proof.
  induction seg as [|a seg IH]; [done|].
  destruct seg as [|b seg]; [done|].
  change (consecutive_edges ((a :: b :: seg) ++ [x]))
    with ((b, a) :: consecutive_edges ((b :: seg) ++ [x])).
  rewrite IH. done.
Qed.

Lemma is_chain_edges parent filament c p :
  is_chain parent filament ->
  (c, p) ∈ consecutive_edges (rev filament) ->
  np_get parent c = Ok p.
Proof.
  induction filament as [|x fil IH]; [by intros _ ?%elem_of_nil|].
  destruct fil as [|y fil]; [by intros _ ?%elem_of_nil|].
  intros [Hxy Hch]. change (rev (x :: y :: fil)) with (rev (y :: fil) ++ [x]).
  rewrite consecutive_edges_snoc.
  assert (Hlast : last (rev (y :: fil)) = Some y).
  { cbn. apply last_snoc. }
  rewrite Hlast.
  intros [Hin | Hin]%elem_of_app; [by apply IH|].
  apply list_elem_of_singleton in Hin. by injection Hin as -> ->.
Qed.

Lemma head_rev {A : Type} (l : list A) : head (rev l) = last l.
Proof.
  induction l as [|a l IH] using rev_ind; [done|].
  by rewrite rev_app_distr, last_snoc.
Qed.

Lemma one_process_inv fuel n_child parent eid seg :
  Forall (fun p => (-1 <= p)%Z) parent ->
  (0 <= eid < Z.of_nat (length n_child))%Z ->
  one_process fuel n_child parent eid = Ok seg ->
  Forall (fun e => (0 <= e < Z.of_nat (length n_child))%Z) seg
  /\ (forall c p, (c, p) ∈ consecutive_edges seg -> np_get parent c = Ok p)
  /\ segment_shape n_child parent eid seg.
Proof.
  intros Hpar Heid. unfold one_process. intros H.
  apply bind_Ok in H as (p & Hp & H). apply bind_Ok in H as (fil & Hw & [= <-]).
  destruct (walk_up_inv n_child parent Hpar fuel p [] eid fil)
    as (Hch & Hpos & middle & top & Hfil & Hmid & Htop);
    [done | by constructor; [|constructor] | done | done |].
  split; [|split].
  - apply Forall_forall. intros e He. rewrite Forall_forall in Hpos. apply Hpos.
    by apply list_elem_of_In, in_rev, list_elem_of_In.
  - intros c q. by apply is_chain_edges.
  - exists (rev top), (rev middle). split; [|split].
    + rewrite Hfil. cbn [app]. change (eid :: middle ++ top) with ([eid] ++ middle ++ top).
      by rewrite !rev_app_distr, <- (assoc_L (++)).
    + apply Forall_forall. intros e He. rewrite Forall_forall in Hmid. apply Hmid.
      by apply list_elem_of_In, in_rev, list_elem_of_In.
    + destruct Htop as [[-> (l & Hl & Hpl)] | (t & c & -> & Ht)].
      * left. split; [done|]. exists l. by rewrite head_rev.
      * right. by exists t, c.
Qed.

Lemma np_set_Forall {A : Type} (P : A -> Prop) (a a' : list A) k v :
  Forall P a -> P v -> np_set a k v = Ok a' -> Forall P a'.
Proof.
  unfold np_set. destruct (np_index _ k) as [j|]; [|done].
  intros Ha Hv [= <-]. by apply Forall_insert.
Qed.

Lemma assign_arange_Forall idx :
  forall arr k arr',
    Forall (fun v => (-1 <= v)%Z) arr -> (0 <= k)%Z ->
    assign_arange arr idx k = Ok arr' -> Forall (fun v => (-1 <= v)%Z) arr'.
Proof.
  induction idx as [|i idx IH]; intros arr k arr' Harr Hk; cbn.
  - by intros [= <-].
  - intros H. apply bind_Ok in H as (arr1 & Hset & H).
    apply (IH arr1 (k + 1)%Z); [|lia|done].
    apply (np_set_Forall _ arr _ i k); [done | lia | done].
Qed.

(** The relabelled parent column holds row indices or the sentinel: never
    less than -1. *)
Lemma relabel_parents_range tr0 parent :
  relabel_parents tr0 = Ok parent -> Forall (fun p => (-1 <= p)%Z) parent.
Proof.
  unfold relabel_parents. intros H.
  apply bind_Ok in H as (max_id & _ & H).
  apply bind_Ok in H as (a0 & Ha0 & H).
  apply bind_Ok in H as (a1 & Ha1 & H).
  apply bind_Ok in H as (a2 & Ha2 & H).
  apply bind_Ok in H as (ids' & _ & H).
  assert (Hall : Forall (fun v => (-1 <= v)%Z) a2).
  { apply (assign_arange_Forall (map row_id tr0) a1 0%Z a2); [|done|done].
    apply (np_set_Forall _ a0 _ (-1)%Z (-1)%Z); [|done|done].
    unfold np_zeros in Ha0. destruct (_ <? 0)%Z; [done|]. injection Ha0 as <-.
    apply Forall_replicate. lia. }
  apply mapR_Forall2 in H. rewrite Forall_forall in Hall.
  apply Forall_forall. intros p Hp.
  apply list_elem_of_lookup in Hp as [j Hj].
  destruct (Forall2_lookup_r _ _ _ _ _ H Hj) as (q & _ & Hq).
  apply Hall. by apply (np_get_elem _ q).
Qed.

Lemma np_get_of_nat {A : Type} (a : list A) (j : nat) (x : A) :
  a !! j = Some x -> np_get a (Z.of_nat j) = Ok x.
Proof.
  intros Hj. pose proof (lookup_lt_Some _ _ _ Hj) as Hlt.
  unfold np_get, np_index.
  assert (Hin : ((0 <=? Z.of_nat j)%Z && (Z.of_nat j <? Z.of_nat (length a))%Z) = true).
  { apply andb_true_iff. split; [apply Z.leb_le | apply Z.ltb_lt]; lia. }
  rewrite Hin, Nat2Z.id. by rewrite Hj.
Qed.

Lemma nonzero_minus_1_count a e :
  e ∈ nonzero_minus_1 a -> exists c, np_get a e = Ok c /\ c <> 1%Z.
Proof.
  unfold nonzero_minus_1. intros Hin.
  apply list_elem_of_In, in_map_iff in Hin as ([k x] & <- & Hin).
  apply list_elem_of_In, list_elem_of_filter in Hin as [Hx Hin].
  apply elem_of_zip_seq in Hin as (j & -> & Hj). cbn in *.
  exists x. split; [by apply np_get_of_nat | lia].
Qed.

(** Every segment returned, with the relabelled parent column it was
    walked in. *)
Lemma SplitSWCTree_segments fuel tr0 segs :
  SplitSWCTree fuel tr0 = Ok segs ->
  exists parent,
    relabel_parents tr0 = Ok parent
    /\ Forall (fun seg =>
         exists eid,
           eid ∈ nonzero_minus_1 (child_counts tr0 parent)
           /\ one_process fuel (child_counts tr0 parent) parent eid = Ok seg)
       segs.
Proof.
  rewrite SplitSWCTree_stages. intros H.
  apply bind_Ok in H as (parent & Hpar & H). exists parent. split; [done|].
  apply mapR_Forall2 in H. apply Forall_forall. intros seg Hseg.
  apply list_elem_of_lookup in Hseg as [j Hj].
  destruct (Forall2_lookup_r _ _ _ _ _ H Hj) as (eid & Heid & Hrun).
  exists eid. split; [|done]. apply list_elem_of_lookup. eauto.
Qed.

(** X10. Whenever [SplitSWCTree] returns, every returned segment is a
    path of the tree read from the root side: each entry is a row index
    between 0 and n-2 (n the number of rows), and of two neighbouring
    entries the first is the relabelled parent of the second.  So the
    last row of the table occurs in no segment, whatever the tree. *)
Theorem SplitSWCTree_segments_follow_parents fuel tr0 segs :
  SplitSWCTree fuel tr0 = Ok segs ->
  exists parent,
    relabel_parents tr0 = Ok parent
    /\ Forall (fun seg =>
         Forall (fun e => (0 <= e < Z.of_nat (length tr0 - 1))%Z) seg
         /\ forall c p, (c, p) ∈ consecutive_edges seg -> np_get parent c = Ok p)
       segs.
Proof.
  intros H. apply SplitSWCTree_segments in H as (parent & Hpar & Hsegs).
  exists parent. split; [done|].
  eapply Forall_impl; [exact Hsegs|]. cbn. intros seg (eid & Heid & Hrun).
  apply one_process_inv in Hrun as (Hpos & Hedges & _).
  - rewrite child_counts_length in Hpos. by split.
  - by apply (relabel_parents_range tr0).
  - by apply nonzero_minus_1_bound.
Qed.

Lemma SplitSWCTree_segments_follow_parents_witness :
  exists parent,
    relabel_parents example_tree = Ok parent
    /\ Forall (fun seg =>
         Forall (fun e => (0 <= e < Z.of_nat (length example_tree - 1))%Z) seg
         /\ forall c p, (c, p) ∈ consecutive_edges seg -> np_get parent c = Ok p)
       [[0]; [0; 1]; [0; 2]; [1; 3]]%Z.
Proof.
  apply (SplitSWCTree_segments_follow_parents 10 example_tree). reflexivity.
Defined.

(** X11. Whenever [SplitSWCTree] returns, every segment is cut where the
    code's child counts say so: it ends (leaf side) on a row whose count is
    not 1, every row strictly inside it has count 1, and it starts (root
    side) either on a row whose count is not 1 or on a row whose relabelled
    parent is -1. *)
Theorem SplitSWCTree_segments_are_maximal fuel tr0 segs :
  SplitSWCTree fuel tr0 = Ok segs ->
  exists parent,
    relabel_parents tr0 = Ok parent
    /\ Forall (fun seg =>
         exists eid c,
           np_get (child_counts tr0 parent) eid = Ok c /\ c <> 1%Z
           /\ segment_shape (child_counts tr0 parent) parent eid seg)
       segs.
Proof.
  intros H. apply SplitSWCTree_segments in H as (parent & Hpar & Hsegs).
  exists parent. split; [done|].
  eapply Forall_impl; [exact Hsegs|]. cbn. intros seg (eid & Heid & Hrun).
  destruct (nonzero_minus_1_count _ _ Heid) as (c & Hc & Hne).
  exists eid, c. split; [done|]. split; [done|].
  apply one_process_inv in Hrun as (_ & _ & Hshape); [done | |].
  - by apply (relabel_parents_range tr0).
  - by apply nonzero_minus_1_bound.
Qed.

Lemma SplitSWCTree_segments_are_maximal_witness :
  exists parent,
    relabel_parents example_tree = Ok parent
    /\ Forall (fun seg =>
         exists eid c,
           np_get (child_counts example_tree parent) eid = Ok c /\ c <> 1%Z
           /\ segment_shape (child_counts example_tree parent) parent eid seg)
       [[0]; [0; 1]; [0; 2]; [1; 3]]%Z.
Proof.
  apply (SplitSWCTree_segments_are_maximal 10 example_tree). reflexivity.
Defined.

End SplitterChains.

Section SplitterRelabel.

Lemma fold_max_ge (l : list Z) :
  forall x, (x <= fold_left Z.max l x)%Z
            /\ forall y, y ∈ l -> (y <= fold_left Z.max l x)%Z.
Proof.
  induction l as [|a l IH]; intros x; cbn.
  - split; [lia | by intros y ?%elem_of_nil].
  - destruct (IH (Z.max x a)) as [Hx Hl]. split; [lia|].
    intros y [-> | Hy]%elem_of_cons; [lia | by apply Hl].
Qed.

Lemma max_list_bound (l : list Z) (m : Z) :
  max_list l = Ok m -> forall y, y ∈ l -> (y <= m)%Z.
Proof.
  destruct l as [|x l]; cbn; [done|]. intros [= <-] y.
  destruct (fold_max_ge l x) as [Hx Hl].
  intros [-> | Hy]%elem_of_cons; [done | by apply Hl].
Qed.

Lemma index_of_elem (ids : list Z) (i j : Z) :
  index_of ids i = Some j -> i ∈ ids.
Proof.
  revert j. induction ids as [|a ids IH]; intros j; cbn; [done|].
  destruct (a =? i)%Z eqn:Hai.
  - apply Z.eqb_eq in Hai as ->. intros _. apply elem_of_cons. by left.
  - destruct (index_of ids i) as [j'|]; [|done]. intros _.
    apply elem_of_cons. right. by apply (IH j').
Qed.

Lemma index_of_lookup (ids : list Z) :
  NoDup ids ->
  forall k i, ids !! k = Some i -> index_of ids i = Some (Z.of_nat k).
Proof.
  induction 1 as [|a ids Ha _ IH]; intros k i; [done|].
  destruct k as [|k]; cbn.
  - intros [= ->]. by rewrite Z.eqb_refl.
  - intros Hk. destruct (a =? i)%Z eqn:Hai.
    + apply Z.eqb_eq in Hai as ->. exfalso. apply Ha.
      apply list_elem_of_lookup. eauto.
    + rewrite (IH k i Hk). cbn. f_equal. lia.
Qed.

Lemma np_get_last {A : Type} (a : list A) (v : A) :
  a !! (length a - 1) = Some v -> np_get a (-1) = Ok v.
Proof.
  intros Hv. pose proof (lookup_lt_Some _ _ _ Hv) as Hlt.
  unfold np_get, np_index. cbn [Z.leb Z.compare andb].
  assert (Hin : ((- Z.of_nat (length a) <=? -1)%Z && (-1 <? 0)%Z) = true).
  { apply andb_true_iff. split; [apply Z.leb_le; lia | done]. }
  rewrite Hin.
  replace (Z.to_nat (-1 + Z.of_nat (length a))) with (length a - 1) by lia.
  by rewrite Hv.
Qed.

Lemma np_set_nonneg {A : Type} (a : list A) (i : Z) (v : A) :
  (0 <= i < Z.of_nat (length a))%Z ->
  np_set a i v = Ok (<[Z.to_nat i := v]> a).
Proof.
  intros Hi. unfold np_set, np_index.
  assert (Hin : ((0 <=? i)%Z && (i <? Z.of_nat (length a))%Z) = true).
  { apply andb_true_iff. split; [apply Z.leb_le | apply Z.ltb_lt]; lia. }
  by rewrite Hin.
Qed.

(** The fancy assignment [arr[idx] = arange(k, k + len(idx))] for distinct
    in-range indices: entry [idx[j]] holds [k + j], the others are kept. *)
Lemma assign_arange_spec (idx : list Z) :
  NoDup idx ->
  forall arr k,
    Forall (fun i => (0 <= i < Z.of_nat (length arr))%Z) idx ->
    exists arr',
      assign_arange arr idx k = Ok arr'
      /\ length arr' = length arr
      /\ (forall i j, index_of idx i = Some j ->
                      arr' !! Z.to_nat i = Some (k + j)%Z)
      /\ (forall n, Z.of_nat n ∉ idx -> arr' !! n = arr !! n).
Proof.
  induction 1 as [|i0 idx Hi0 _ IH]; intros arr k Hidx.
  - exists arr. by repeat split.
  - apply Forall_cons in Hidx as [Hb Hidx]. cbn [assign_arange].
    rewrite (np_set_nonneg arr i0 k Hb). cbn [bind].
    destruct (IH (<[Z.to_nat i0 := k]> arr) (k + 1)%Z)
      as (arr' & Hrun & Hlen & Hin & Hout).
    { by rewrite length_insert. }
    exists arr'. split; [done|]. split; [by rewrite Hlen, length_insert|].
    split.
    + intros i j. cbn [index_of]. destruct (i0 =? i)%Z eqn:Hii.
      * apply Z.eqb_eq in Hii as <-. intros [= <-].
        rewrite Hout by (rewrite Z2Nat.id by lia; done).
        rewrite list_lookup_insert_eq by lia. f_equal. lia.
      * destruct (index_of idx i) as [j'|] eqn:Hj'; [|done]. intros [= <-].
        rewrite (Hin i j' Hj'). f_equal. lia.
    + intros n Hn. apply not_elem_of_cons in Hn as [Hne Hn].
      rewrite (Hout n Hn). apply list_lookup_insert_ne. lia.
Qed.

Lemma mapR_map {A B : Type} (f : A -> result B) (g : A -> B) (l : list A) :
  (forall a, a ∈ l -> f a = Ok (g a)) -> mapR f l = Ok (map g l).
Proof.
  induction l as [|a l IH]; intros Hfg; [done|]. cbn.
  rewrite (Hfg a) by (apply elem_of_cons; by left). cbn.
  rewrite IH; [done|]. intros b Hb. apply Hfg. apply elem_of_cons. by right.
Qed.

Lemma int32_wrap_small (z : Z) :
  (-2147483648 <= z < 2147483648)%Z -> int32_wrap z = z.
Proof.
  intros Hz. unfold int32_wrap. rewrite Z.mod_small by lia. lia.
Qed.

Lemma max_list_elem (l : list Z) (m : Z) : max_list l = Ok m -> m ∈ l.
Proof.
  destruct l as [|x l]; cbn; [done|]. intros [= <-].
  revert x. induction l as [|a l IH]; intros x; cbn.
  - apply elem_of_cons. by left.
  - specialize (IH (Z.max x a)). apply elem_of_cons in IH as [IH | IH].
    + destruct (Z.max_spec x a) as [[_ Hm] | [_ Hm]]; rewrite IH, Hm.
      * apply elem_of_cons. right. apply elem_of_cons. by left.
      * apply elem_of_cons. by left.
    + apply elem_of_cons. right. apply elem_of_cons. by right.
Qed.

(** Ids below 2^31 - 2 keep [max_id + 2] inside [int32]. *)
Lemma int32_ids_no_wrap tr0 m :
  proper_ids tr0 -> int32_ids tr0 ->
  max_list (map row_id tr0) = Ok m -> int32_wrap (m + 2) = (m + 2)%Z.
Proof.
  intros (_ & Hpos & _) Hsmall Hm. apply max_list_elem in Hm.
  apply list_elem_of_In, in_map_iff in Hm as (r & <- & Hr).
  apply list_elem_of_In in Hr. unfold int32_ids in Hsmall.
  rewrite Forall_forall in Hpos, Hsmall.
  specialize (Hpos r Hr). specialize (Hsmall r Hr). cbn in *.
  apply int32_wrap_small. lia.
Qed.

Lemma assign_arange_in_range idx :
  forall arr k arr' i,
    assign_arange arr idx k = Ok arr' -> i ∈ idx -> (0 <= i)%Z ->
    (i < Z.of_nat (length arr))%Z.
Proof.
  induction idx as [|i0 idx IH]; intros arr k arr' i; cbn.
  - by intros _ ?%elem_of_nil.
  - intros H Hin Hi. apply bind_Ok in H as (arr1 & Hset & H).
    assert (Hlen : length arr1 = length arr).
    { unfold np_set in Hset. destruct (np_index _ i0) as [j|]; [|done].
      injection Hset as <-. apply length_insert. }
    apply elem_of_cons in Hin as [-> | Hin].
    + unfold np_set, np_index in Hset.
      destruct ((0 <=? i0)%Z && (i0 <? Z.of_nat (length arr))%Z) eqn:Hr.
      * apply andb_true_iff in Hr as [_ Hr%Z.ltb_lt]. done.
      * destruct ((- Z.of_nat (length arr) <=? i0)%Z && (i0 <? 0)%Z) eqn:Hn; [|done].
        apply andb_true_iff in Hn as [_ Hn%Z.ltb_lt]. lia.
    + rewrite <- Hlen. by apply (IH arr1 (k + 1)%Z arr').
Qed.

(** When the relabelling returns for non-negative ids, [max_id + 2] has
    not wrapped: the array had room for the entry of [max_id]. *)
Lemma relabelled_no_wrap tr0 parent m :
  proper_ids tr0 -> relabel_parents tr0 = Ok parent ->
  max_list (map row_id tr0) = Ok m -> int32_wrap (m + 2) = (m + 2)%Z.
Proof.
  intros (_ & Hpos & _) Hrun Hm. unfold relabel_parents in Hrun.
  rewrite Hm in Hrun. cbn [bind] in Hrun.
  apply bind_Ok in Hrun as (a0 & Ha0 & Hrun).
  apply bind_Ok in Hrun as (a1 & Ha1 & Hrun).
  apply bind_Ok in Hrun as (a2 & Ha2 & _).
  pose proof (max_list_elem _ _ Hm) as Hin.
  assert (Hm0 : (0 <= m)%Z).
  { apply list_elem_of_In, in_map_iff in Hin as (r & <- & Hr).
    rewrite Forall_forall in Hpos. by apply Hpos, list_elem_of_In. }
  pose proof (assign_arange_in_range _ _ _ _ _ Ha2 Hin Hm0) as Hroom.
  assert (Hlen : Z.of_nat (length a1) = int32_wrap (m + 2)).
  { unfold np_set in Ha1. destruct (np_index _ _) as [j|]; [|done].
    injection Ha1 as <-. rewrite length_insert.
    unfold np_zeros in Ha0. destruct (_ <? 0)%Z eqn:Hneg; [done|].
    injection Ha0 as <-. rewrite length_replicate.
    apply Z.ltb_ge in Hneg. lia. }
  rewrite Hlen in Hroom. unfold int32_wrap in *.
  pose proof (Z.mod_eq (m + 2 + 2147483648) 4294967296 ltac:(lia)) as Hmod.
  assert (Hq : (0 <= (m + 2 + 2147483648) / 4294967296)%Z)
    by (apply Z.div_pos; lia).
  lia.
Qed.

(** For a table with distinct non-negative ids whose parent ids are ids of
    the table or -1, the relabelling returns, and puts the row index of
    the parent where the parent id was. *)
Lemma relabel_parents_proper tr0 :
  tr0 <> [] -> proper_ids tr0 ->
  (forall m, max_list (map row_id tr0) = Ok m -> int32_wrap (m + 2) = (m + 2)%Z) ->
  relabel_parents tr0
  = Ok (map (fun r => parent_index (map row_id tr0) (row_parent r)) tr0).
Proof.
  intros Hne (Hnodup & Hpos & Hpar) Hwrap. unfold relabel_parents.
  set (ids := map row_id tr0).
  assert (Hids : forall i, i ∈ ids -> (0 <= i)%Z).
  { intros i Hi. apply list_elem_of_In, in_map_iff in Hi as (r & <- & Hr).
    rewrite Forall_forall in Hpos. by apply Hpos, list_elem_of_In. }
  destruct (max_list ids) as [m| |] eqn:Hm; cbn [bind].
  2:{ destruct tr0; [done | by cbn in Hm]. }
  2:{ destruct tr0; [done | by cbn in Hm]. }
  pose proof (max_list_bound ids m Hm) as Hmax.
  assert (Hm0 : (0 <= m)%Z).
  { destruct tr0 as [|r tr0]; [done|].
    assert (Hr : row_id r ∈ ids) by (apply elem_of_cons; by left).
    specialize (Hmax _ Hr). specialize (Hids _ Hr). lia. }
  rewrite (Hwrap m Hm).
  unfold np_zeros. destruct (m + 2 <? 0)%Z eqn:Hlt; [apply Z.ltb_lt in Hlt; lia|].
  cbn [bind]. set (a0 := replicate (Z.to_nat (m + 2)) 0%Z).
  assert (Hlen0 : length a0 = Z.to_nat (m + 2)) by apply length_replicate.
  assert (Hset : np_set a0 (-1) (-1)%Z = Ok (<[Z.to_nat (m + 1) := (-1)%Z]> a0)).
  { unfold np_set, np_index. cbn [Z.leb Z.compare andb].
    assert (Hin : ((- Z.of_nat (length a0) <=? -1)%Z && (-1 <? 0)%Z) = true).
    { apply andb_true_iff. split; [apply Z.leb_le; lia | done]. }
    rewrite Hin. do 2 f_equal. lia. }
  rewrite Hset. cbn [bind]. set (a1 := <[Z.to_nat (m + 1) := (-1)%Z]> a0).
  assert (Hlen1 : length a1 = Z.to_nat (m + 2)).
  { unfold a1. by rewrite length_insert. }
  destruct (assign_arange_spec ids Hnodup a1 0%Z)
    as (a2 & Hrun & Hlen2 & Hin & Hout).
  { apply Forall_forall. intros i Hi. specialize (Hmax _ Hi).
    specialize (Hids _ Hi). lia. }
  rewrite Hrun. cbn [bind].
  assert (Hget : forall x, x = (-1)%Z \/ x ∈ ids ->
                           np_get a2 x = Ok (parent_index ids x)).
  { intros x [-> | Hx].
    - unfold parent_index. cbn [Z.eqb]. apply np_get_last.
      rewrite Hlen2, Hlen1.
      replace (Z.to_nat (m + 2) - 1) with (Z.to_nat (m + 1)) by lia.
      rewrite Hout.
      + unfold a1. apply list_lookup_insert_eq. lia.
      + intros Hbad. specialize (Hmax _ Hbad). lia.
    - pose proof (Hids _ Hx) as Hx0.
      apply list_elem_of_lookup in Hx as [k Hk].
      pose proof (index_of_lookup ids Hnodup k x Hk) as Hidx.
      unfold parent_index. destruct (x =? -1)%Z eqn:Hx1;
        [apply Z.eqb_eq in Hx1; lia|].
      rewrite Hidx. cbn [default].
      rewrite <- (Z2Nat.id x) at 1 by lia. apply np_get_of_nat.
      rewrite (Hin x _ Hidx). f_equal. }
  rewrite (mapR_map (np_get a2) (parent_index ids) ids)
    by (intros x Hx; apply Hget; by right).
  cbn [bind]. rewrite <- (map_map row_parent (parent_index ids)).
  apply mapR_map. intros x Hx.
  apply list_elem_of_In, in_map_iff in Hx as (r & <- & Hr).
  apply Hget. rewrite Forall_forall in Hpar. by apply Hpar, list_elem_of_In.
Qed.

(** X12. For a non-empty table with distinct non-negative ids below
    2^31 - 2 (so that the [int32] sum [max_id + 2] does not wrap) whose
    parent ids are ids of the table or -1, the relabelling stage of
    [SplitSWCTree] does not raise, and the relabelled parent column has one
    entry per row: -1 where the parent id is -1, and the row index of the
    parent row otherwise. *)
Theorem relabel_parents_row_indices tr0 :
  tr0 <> [] -> proper_ids tr0 -> int32_ids tr0 ->
  exists parent,
    relabel_parents tr0 = Ok parent
    /\ length parent = length tr0
    /\ forall j r, tr0 !! j = Some r ->
         (row_parent r = (-1)%Z -> parent !! j = Some (-1)%Z)
         /\ (forall k r', tr0 !! k = Some r' -> row_id r' = row_parent r ->
                          parent !! j = Some (Z.of_nat k)).
Proof.
  intros Hne Hproper Hsmall. eexists.
  split; [apply (relabel_parents_proper tr0 Hne Hproper);
          intros m; by apply int32_ids_no_wrap|].
  split; [by rewrite length_map|].
  intros j r Hj. rewrite list_lookup_fmap, Hj. cbn. split.
  - intros ->. done.
  - intros k r' Hk Hid. destruct Hproper as (Hnodup & Hpos & _).
    assert (Hidk : map row_id tr0 !! k = Some (row_parent r)).
    { rewrite list_lookup_fmap, Hk. cbn. by f_equal. }
    unfold parent_index. rewrite (index_of_lookup _ Hnodup _ _ Hidk).
    destruct (row_parent r =? -1)%Z eqn:Hm1; [|done].
    apply Z.eqb_eq in Hm1. rewrite Forall_forall in Hpos.
    assert (Hr' : r' ∈ tr0) by (apply list_elem_of_lookup; eauto).
    specialize (Hpos r' Hr'). cbn in Hpos. lia.
Qed.

Lemma relabel_parents_row_indices_witness :
  exists parent,
    relabel_parents example_tree = Ok parent
    /\ length parent = length example_tree
    /\ forall j r, example_tree !! j = Some r ->
         (row_parent r = (-1)%Z -> parent !! j = Some (-1)%Z)
         /\ (forall k r', example_tree !! k = Some r' ->
                          row_id r' = row_parent r ->
                          parent !! j = Some (Z.of_nat k)).
Proof.
  apply (relabel_parents_row_indices example_tree).
  - done.
  - split; [by apply (bool_decide_unpack _)|].
    split; [by apply (bool_decide_unpack _)|].
    repeat constructor; cbn;
      first [by left | right; by apply (bool_decide_unpack _)].
  - by apply (bool_decide_unpack _).
Defined.

Lemma index_of_Some (ids : list Z) :
  forall i j, index_of ids i = Some j ->
              (0 <= j)%Z /\ ids !! Z.to_nat j = Some i.
Proof.
  induction ids as [|a ids IH]; intros i j; cbn; [done|].
  destruct (a =? i)%Z eqn:Hai.
  - apply Z.eqb_eq in Hai as ->. by intros [= <-].
  - destruct (index_of ids i) as [j'|] eqn:Hj'; [|done]. intros [= <-].
    destruct (IH i j' Hj') as [Hj0 Hlook]. split; [lia|].
    replace (Z.to_nat (Z.succ j')) with (S (Z.to_nat j')) by lia. done.
Qed.

Lemma consecutive_edges_elems seg c p :
  (c, p) ∈ consecutive_edges seg -> c ∈ seg /\ p ∈ seg.
Proof.
  induction seg as [|a seg IH]; [by intros ?%elem_of_nil|].
  destruct seg as [|b seg]; [by intros ?%elem_of_nil|].
  change (consecutive_edges (a :: b :: seg))
    with ((b, a) :: consecutive_edges (b :: seg)).
  intros [[= -> ->] | Hin]%elem_of_cons.
  - split; [apply elem_of_cons; right|]; apply elem_of_cons; by left.
  - destruct (IH Hin) as [Hc Hp]. split; apply elem_of_cons; by right.
Qed.

(** A link of the relabelled parent column between two row indices is a
    link of the table: the parent id of the one row is the id of the
    other. *)
Lemma relabelled_link tr0 c p :
  proper_ids tr0 ->
  (0 <= c)%Z -> (0 <= p)%Z ->
  np_get (map (fun r => parent_index (map row_id tr0) (row_parent r)) tr0) c
  = Ok p ->
  (exists rc rp,
     tr0 !! Z.to_nat c = Some rc /\ tr0 !! Z.to_nat p = Some rp
     /\ row_parent rc = row_id rp)
  /\ (c, p) ∈ tree_edges tr0.
Proof.
  intros (Hnodup & Hpos & Hpar) Hc Hp Hget.
  apply np_get_nonneg in Hget as [_ Hlook]; [|done].
  rewrite list_lookup_fmap in Hlook.
  destruct (tr0 !! Z.to_nat c) as [rc|] eqn:Hrc; [|done].
  cbn in Hlook. injection Hlook as Hidx. unfold parent_index in Hidx.
  destruct (row_parent rc =? -1)%Z eqn:Hm1; [lia|].
  destruct (index_of (map row_id tr0) (row_parent rc)) as [p'|] eqn:Hp';
    cbn in Hidx; [subst p' | lia].
  destruct (index_of_Some _ _ _ Hp') as [_ Hrp].
  rewrite list_lookup_fmap in Hrp.
  destruct (tr0 !! Z.to_nat p) as [rp|] eqn:Hrp'; [|done].
  cbn in Hrp. injection Hrp as Hid. split.
  - by exists rc, rp.
  - unfold tree_edges. apply list_elem_of_omap. exists rc.
    split; [apply list_elem_of_lookup; eauto|].
    rewrite Hm1, Hp'.
    assert (Hidc : map row_id tr0 !! Z.to_nat c = Some (row_id rc)).
    { by rewrite list_lookup_fmap, Hrc. }
    rewrite (index_of_lookup _ Hnodup _ _ Hidc). cbn. by rewrite Z2Nat.id.
Qed.

(** X13. For a table with distinct non-negative ids whose parent ids are
    ids of the table or -1: whenever [SplitSWCTree] returns, two
    neighbouring entries of a segment are the row indices of a parent row
    and of one of its child rows (the parent id of the second row is the id
    of the first), so every edge the segments imply is an edge of the
    tree. *)
Theorem SplitSWCTree_segments_are_tree_paths fuel tr0 segs :
  proper_ids tr0 ->
  SplitSWCTree fuel tr0 = Ok segs ->
  (forall seg c p, seg ∈ segs -> (c, p) ∈ consecutive_edges seg ->
     exists rc rp,
       tr0 !! Z.to_nat c = Some rc /\ tr0 !! Z.to_nat p = Some rp
       /\ row_parent rc = row_id rp)
  /\ (forall e, e ∈ segment_edges segs -> e ∈ tree_edges tr0).
Proof.
  intros Hproper Hrun.
  assert (Hne : tr0 <> []) by (by intros ->).
  apply SplitSWCTree_segments in Hrun as (parent & Hpar & Hsegs).
  assert (Hwrap : forall m, max_list (map row_id tr0) = Ok m ->
                            int32_wrap (m + 2) = (m + 2)%Z).
  { intros m. by apply (relabelled_no_wrap tr0 parent). }
  pose proof (relabel_parents_proper tr0 Hne Hproper Hwrap) as Hpar'.
  rewrite Hpar' in Hpar. injection Hpar as <-.
  set (parent := map _ tr0) in *.
  assert (Hlink : forall seg c p, seg ∈ segs -> (c, p) ∈ consecutive_edges seg ->
            (0 <= c)%Z /\ (0 <= p)%Z /\ np_get parent c = Ok p).
  { intros seg c p Hseg Hcp. rewrite Forall_forall in Hsegs.
    destruct (Hsegs seg Hseg) as (eid & Heid & Hone).
    apply one_process_inv in Hone as (Hpos & Hedges & _).
    - destruct (consecutive_edges_elems _ _ _ Hcp) as [Hcin Hpin].
      rewrite Forall_forall in Hpos.
      pose proof (Hpos c Hcin). pose proof (Hpos p Hpin).
      split; [lia|]. split; [lia|]. by apply Hedges.
    - apply (relabel_parents_range tr0). exact Hpar'.
    - by apply nonzero_minus_1_bound. }
  split.
  - intros seg c p Hseg Hcp. destruct (Hlink seg c p Hseg Hcp) as (Hc & Hp & Hget).
    by apply relabelled_link.
  - intros [c p] He. unfold segment_edges in He.
    apply list_elem_of_In, in_concat in He as (es & Hes & He).
    apply in_map_iff in Hes as (seg & <- & Hseg).
    apply list_elem_of_In in Hseg, He.
    destruct (Hlink seg c p Hseg He) as (Hc & Hp & Hget).
    by apply relabelled_link.
Qed.

Lemma SplitSWCTree_segments_are_tree_paths_witness :
  (forall seg c p, seg ∈ [[0]; [0; 1]; [0; 2]; [1; 3]]%Z ->
     (c, p) ∈ consecutive_edges seg ->
     exists rc rp,
       example_tree !! Z.to_nat c = Some rc
       /\ example_tree !! Z.to_nat p = Some rp
       /\ row_parent rc = row_id rp)
  /\ (forall e, e ∈ segment_edges [[0]; [0; 1]; [0; 2]; [1; 3]]%Z ->
                e ∈ tree_edges example_tree).
Proof.
  apply (SplitSWCTree_segments_are_tree_paths 10 example_tree).
  - split; [by apply (bool_decide_unpack _)|].
    split; [by apply (bool_decide_unpack _)|].
    repeat constructor; cbn;
      first [by left | right; by apply (bool_decide_unpack _)].
  - reflexivity.
Defined.

End SplitterRelabel.

Section SplitterReturns.

Lemma sorted_rows_proper tr0 : sorted_rows tr0 -> proper_ids tr0.
Proof.
  intros (Hnodup & Hpos & Hsorted). split; [done|]. split; [done|].
  apply Forall_forall. intros r Hr. apply list_elem_of_lookup in Hr as [j Hj].
  destruct (Hsorted j r Hj) as [Hm1 | (k & _ & Hk)]; [by left | right].
  apply list_elem_of_lookup. eauto.
Qed.

(** In a sorted table the relabelled parent of a row is -1 or the index of
    an earlier row. *)
Lemma sorted_rows_parent_below tr0 j p :
  sorted_rows tr0 ->
  map (fun r => parent_index (map row_id tr0) (row_parent r)) tr0 !! j = Some p ->
  (-1 <= p < Z.of_nat j)%Z.
Proof.
  intros (Hnodup & Hpos & Hsorted). rewrite list_lookup_fmap.
  destruct (tr0 !! j) as [r|] eqn:Hr; [|done]. cbn. intros [= <-].
  unfold parent_index.
  destruct (Hsorted j r Hr) as [-> | (k & Hkj & Hk)]; [cbn; lia|].
  destruct (row_parent r =? -1)%Z; [lia|].
  rewrite (index_of_lookup _ Hnodup _ _ Hk). cbn. lia.
Qed.

(** The walk returns when parents lie below their children and the child
    counts cover the row it starts from: one unit of fuel per row on the
    way up. *)
Lemma walk_up_returns n_child parent :
  (forall j p, parent !! j = Some p -> (-1 <= p < Z.of_nat j)%Z) ->
  length n_child < length parent ->
  n_child <> [] ->
  forall fuel i filament,
    (-1 <= i < Z.of_nat (length n_child))%Z ->
    (i + 1 < Z.of_nat fuel)%Z ->
    exists r, walk_up fuel n_child parent i filament = Ok r.
Proof.
  intros Hbelow Hlen Hne. induction fuel as [|fuel IH]; intros i filament Hi Hfuel;
    [lia|]. cbn [walk_up].
  assert (Hc : exists c, np_get n_child i = Ok c).
  { destruct (decide (i = -1)%Z) as [-> | Hi1].
    - destruct (n_child !! (length n_child - 1)) as [c|] eqn:Hc.
      + exists c. by apply np_get_last.
      + apply lookup_ge_None in Hc. destruct n_child; [done | cbn in Hc; lia].
    - destruct (n_child !! Z.to_nat i) as [c|] eqn:Hc.
      + exists c. rewrite <- (Z2Nat.id i) by lia. by apply np_get_of_nat.
      + apply lookup_ge_None in Hc. lia. }
  destruct Hc as [c ->]. cbn [bind].
  destruct ((c =? 1)%Z && negb (i =? -1)%Z) eqn:Hcond; [|eauto].
  apply andb_true_iff in Hcond as [_ Hi1]. apply negb_true_iff, Z.eqb_neq in Hi1.
  destruct (parent !! Z.to_nat i) as [p|] eqn:Hp.
  - assert (Hgp : np_get parent i = Ok p).
    { rewrite <- (Z2Nat.id i) by lia. by apply np_get_of_nat. }
    rewrite Hgp. cbn [bind]. specialize (Hbelow _ _ Hp). apply IH; lia.
  - apply lookup_ge_None in Hp. lia.
Qed.

Lemma mapR_returns {A B : Type} (f : A -> result B) (l : list A) :
  (forall a, a ∈ l -> exists b, f a = Ok b) -> exists bs, mapR f l = Ok bs.
Proof.
  induction l as [|a l IH]; intros Hf; [by exists []|]. cbn.
  destruct (Hf a) as [b ->]; [apply elem_of_cons; by left|]. cbn.
  destruct IH as [bs ->]; [|by eexists].
  intros a' Ha'. apply Hf. apply elem_of_cons. by right.
Qed.

(** X14. For a non-empty table in the order the source assumes (distinct
    non-negative ids, every parent id -1 or the id of an earlier row) whose
    ids are below 2^31 - 2 (so that the [int32] sum [max_id + 2] does not
    wrap), [SplitSWCTree] returns: it raises nothing, and its walks end
    within as many steps as the table has rows, so the loop cannot run
    forever. *)
Theorem SplitSWCTree_returns_on_sorted tr0 (k : nat) :
  tr0 <> [] -> sorted_rows tr0 -> int32_ids tr0 ->
  exists segs, SplitSWCTree (length tr0 + k) tr0 = Ok segs.
Proof.
  intros Hne Hsorted Hsmall.
  cut (exists segs, SplitSWCTree (length tr0) tr0 = Ok segs).
  { intros [segs Hsegs]. exists segs. by apply SplitSWCTree_fuel_mono. }
  rewrite SplitSWCTree_stages.
  rewrite (relabel_parents_proper tr0 Hne (sorted_rows_proper tr0 Hsorted))
    by (intros m; apply int32_ids_no_wrap; [by apply sorted_rows_proper | done]).
  cbn [bind]. set (parent := map _ tr0).
  assert (Hplen : length parent = length tr0) by apply length_map.
  pose proof (child_counts_length tr0 parent) as Hclen.
  set (n_child := child_counts tr0 parent) in *.
  apply mapR_returns. intros eid Heid.
  apply nonzero_minus_1_bound in Heid.
  unfold one_process.
  destruct (parent !! Z.to_nat eid) as [p|] eqn:Hp.
  2:{ apply lookup_ge_None in Hp. lia. }
  assert (Hgp : np_get parent eid = Ok p).
  { rewrite <- (Z2Nat.id eid) by lia. by apply np_get_of_nat. }
  rewrite Hgp. cbn [bind]. pose proof (sorted_rows_parent_below tr0 _ _ Hsorted Hp) as Hpb.
  destruct (walk_up_returns n_child parent) with (fuel := length tr0) (i := p)
    (filament := [eid]) as [r ->]; [| | | | | by eexists].
  - intros j q. by apply sorted_rows_parent_below.
  - destruct tr0; [done | cbn in *; lia].
  - intros Hnil. rewrite Hnil in Heid. cbn in Heid. lia.
  - lia.
  - lia.
Qed.

Lemma SplitSWCTree_returns_on_sorted_witness :
  exists segs, SplitSWCTree (length example_tree + 0) example_tree = Ok segs.
Proof.
  apply (SplitSWCTree_returns_on_sorted example_tree 0).
  - done.
  - split; [by apply (bool_decide_unpack _)|].
    split; [by apply (bool_decide_unpack _)|].
    intros [|[|[|[|[|j]]]]] r; cbn; intros [= <-]; cbn;
      [ by left
      | right; exists 0; split; [lia | done]
      | right; exists 0; split; [lia | done]
      | right; exists 1; split; [lia | done]
      | right; exists 1; split; [lia | done] ].
  - by apply (bool_decide_unpack _).
Defined.

End SplitterReturns.

Section SmoothRotation.

Lemma Qsum_snoc (l : list Q) (x : Q) : (Qsum (l ++ [x]) == Qsum l + x)%Q.
Proof.
  induction l as [|a l IH]; cbn.
  - ring.
  - change (fold_right Qplus 0%Q (l ++ [x])) with (Qsum (l ++ [x])).
    change (fold_right Qplus 0%Q l) with (Qsum l). rewrite IH. ring.
Qed.

Variables (dps dur t0 : Q).
Hypothesis dur_nonneg : (0 <= dur)%Q.

Lemma stop_exec h : exec_obj (stop h) = exec_obj h.
Proof. unfold stop. destruct (timerId h) as [id|]; [|done]. by destruct (id =? 0)%Z. Qed.

Lemma stop_times h :
  th_time_start (stop h) = th_time_start h /\ duration (stop h) = duration h.
Proof. unfold stop. destruct (timerId h) as [id|]; [|done]. by destruct (id =? 0)%Z. Qed.

Lemma callback_inv (now : Q) (h : timerHandler) :
  rotation_inv dps dur t0 h ->
  exists h',
    callback now h = (Ok tt, h')
    /\ rotation_inv dps dur t0 h'
    /\ ((t0 <= now)%Q -> time_last_update (exec_obj h') = Some (clamped dur t0 now)).
Proof.
  intros (Hts & Hdur & Hdps & Hrs & Hlen & tl & Htl & Hlo & Hhi & Hsum).
  unfold callback, clamped. rewrite Hts, Hdur.
  set (t_now := if Qlt_le_dec dur (now - t0) then (t0 + dur)%Q else now).
  set (h1 := if Qlt_le_dec dur (now - t0) then stop h else h).
  assert (He : exec_obj h1 = exec_obj h).
  { unfold h1. destruct (Qlt_le_dec _ _); [apply stop_exec | done]. }
  assert (Ht1 : th_time_start h1 = t0 /\ duration h1 = dur).
  { unfold h1. destruct (Qlt_le_dec _ _); [|done].
    destruct (stop_times h) as [-> ->]. done. }
  destruct Ht1 as [Ht1 Hd1].
  assert (Hnow : (t_now <= t0 + dur)%Q).
  { unfold t_now. destruct (Qlt_le_dec _ _) as [Hexp | Hin]; Lqa.lra. }
  unfold execSmoothRotation_call. rewrite He, Hrs.
  destruct (Qlt_le_dec t_now t0) as [Hbefore | Hafter].
  - eexists. split; [reflexivity|]. split.
    + unfold rotation_inv. cbn.
      do 5 (split; [done|]). exists tl. by repeat split.
    + intros Hge. exfalso. unfold t_now in Hbefore.
      destruct (Qlt_le_dec dur (now - t0)) as [Hexp | Hin]; Lqa.lra.
  - rewrite Htl. eexists. split; [reflexivity|]. split.
    + unfold rotation_inv. cbn. rewrite Hdps.
      do 4 (split; [done|]). split; [rewrite length_app; cbn; lia|].
      exists t_now. split; [done|]. split; [done|]. split; [done|].
      rewrite Qsum_snoc, Hsum. ring.
    + intros _. done.
Qed.

Lemma timer_events_inv (clocks : list Q) :
  forall h,
    rotation_inv dps dur t0 h ->
    exists h',
      timer_events clocks h = (Ok tt, h')
      /\ rotation_inv dps dur t0 h'
      /\ (forall now, last clocks = Some now -> (t0 <= now)%Q ->
            time_last_update (exec_obj h') = Some (clamped dur t0 now)).
Proof.
  induction clocks as [|now clocks IH]; intros h Hinv.
  - exists h. split; [done|]. split; [done|]. by intros now.
  - destruct (callback_inv now h Hinv) as (h1 & Hrun & Hinv1 & Hlast1).
    destruct (IH h1 Hinv1) as (h2 & Hrun2 & Hinv2 & Hlast2).
    exists h2. split; [|split; [done|]].
    + cbn [timer_events]. unfold st_bind. by rewrite Hrun.
    + intros t Ht Hge. destruct clocks as [|now' clocks].
      * injection Ht as <-. cbn in Hrun2. injection Hrun2 as <-. by apply Hlast1.
      * by apply Hlast2.
Qed.

Lemma start_inv (new_id : Z) :
  rotation_inv dps dur t0 (start t0 new_id (timerHandler_init dur (execSmoothRotation_init dps))).
Proof.
  repeat split; try done. exists t0. split; [done|]. split; [apply Qle_refl|].
  split; [Lqa.lra|]. cbn. ring.
Qed.

End SmoothRotation.

(** X15. A rotation started at clock [t0] for a non-negative duration:
    whatever clock readings the timer events come with, every callback
    returns, each rotation is followed by one render, and the angles passed
    to [Azimuth] add up to the rate times the time from [t0] to the last
    update, which lies between [t0] and [t0 + duration].  After a callback
    whose reading is not before [t0], the last update is that reading cut
    at [t0 + duration]: the total is the rate times the duration once a
    reading past the end has come, and stays there. *)
Theorem smooth_rotation_total (dps dur t0 : Q) (new_id : Z) (clocks : list Q) :
  (0 <= dur)%Q ->
  exists h tl,
    timer_events clocks
      (start t0 new_id (timerHandler_init dur (execSmoothRotation_init dps)))
    = (Ok tt, h)
    /\ length (azimuth_calls (exec_obj h)) = render_calls (exec_obj h)
    /\ time_last_update (exec_obj h) = Some tl
    /\ (t0 <= tl)%Q /\ (tl <= t0 + dur)%Q
    /\ (Qsum (azimuth_calls (exec_obj h)) == dps * (tl - t0))%Q
    /\ (forall now, last clocks = Some now -> (t0 <= now)%Q ->
          tl = if Qlt_le_dec dur (now - t0) then (t0 + dur)%Q else now).
Proof.
  intros Hdur.
  destruct (timer_events_inv dps dur t0 Hdur clocks _ (start_inv dps dur t0 Hdur new_id))
    as (h & Hrun & Hinv & Hlast).
  destruct Hinv as (_ & _ & _ & _ & Hlen & tl & Htl & Hlo & Hhi & Hsum).
  exists h, tl. repeat split; try done.
  intros now Hnow Hge. specialize (Hlast now Hnow Hge).
  rewrite Htl in Hlast. by injection Hlast.
Qed.

Lemma smooth_rotation_total_witness :
  exists h tl,
    timer_events [1; 4; 9; 12]%Q
      (start 2 1 (timerHandler_init 6 (execSmoothRotation_init 60)))
    = (Ok tt, h)
    /\ length (azimuth_calls (exec_obj h)) = render_calls (exec_obj h)
    /\ time_last_update (exec_obj h) = Some tl
    /\ (2 <= tl)%Q /\ (tl <= 2 + 6)%Q
    /\ (Qsum (azimuth_calls (exec_obj h)) == 60 * (tl - 2))%Q
    /\ (forall now, last [1; 4; 9; 12]%Q = Some now -> (2 <= now)%Q ->
          tl = if Qlt_le_dec 6 (now - 2) then (2 + 6)%Q else now).
Proof.
  apply (smooth_rotation_total 60 6 2 1 [1; 4; 9; 12]%Q). done.
Defined.

Section KeyboardModifiers.

Lemma modifier_text_inj c a s c' a' s' :
  modifier_text c a s = modifier_text c' a' s' <->
  first_modifier c a s = first_modifier c' a' s'.
Proof.
  unfold modifier_text, first_modifier.
  destruct c, a, s, c', a', s'; cbn; split; intros H; done.
Qed.

Lemma is_kbd_modifier_first ctrl alt shift u :
  is_kbd_modifier ctrl alt shift u = true <->
  first_modifier ctrl alt shift
  = first_modifier (char_in char_C (upper u)) (char_in char_A (upper u))
      (char_in char_S (upper u)).
Proof.
  unfold is_kbd_modifier. rewrite String.eqb_eq, modifier_text_inj.
  split; intros H; by symmetry.
Qed.

End KeyboardModifiers.

(** X16. What [is_kbd_modifier] tests, for an ASCII pattern [u]: it is
    true exactly when the first of Ctrl, Alt, Shift that is held is the
    first of C, A, S that occurs in [u] (in either case).  So the two
    patterns the code uses are exact: [''] holds only with no modifier held
    and ['S'] only with Shift alone.  But the test is not one of all three
    keys: with Ctrl held, a pattern naming C holds whatever Alt and Shift
    are. *)
Theorem is_kbd_modifier_tests_first_key (ctrl alt shift : bool) (u : string) :
  is_ascii u ->
  (is_kbd_modifier ctrl alt shift u = true <->
   first_modifier ctrl alt shift
   = first_modifier (char_in char_C (upper u)) (char_in char_A (upper u))
       (char_in char_S (upper u)))
  /\ (is_kbd_modifier ctrl alt shift "" = true <->
      ctrl = false /\ alt = false /\ shift = false)
  /\ (is_kbd_modifier ctrl alt shift "S" = true <->
      ctrl = false /\ alt = false /\ shift = true)
  /\ (char_in char_C (upper u) = true -> is_kbd_modifier true alt shift u = true).
Proof.
  intros _. split; [apply is_kbd_modifier_first|]. split; [|split].
  - destruct ctrl, alt, shift; cbn; split; intros H; try done;
      by destruct H as (? & ? & ?).
  - destruct ctrl, alt, shift; cbn; split; intros H; try done;
      by destruct H as (? & ? & ?).
  - intros HC. apply is_kbd_modifier_first. by rewrite HC.
Qed.

Lemma is_kbd_modifier_tests_first_key_witness :
  (is_kbd_modifier true false true "c" = true <->
   first_modifier true false true
   = first_modifier (char_in char_C (upper "c")) (char_in char_A (upper "c"))
       (char_in char_S (upper "c")))
  /\ (is_kbd_modifier true false true "" = true <->
      true = false /\ false = false /\ true = false)
  /\ (is_kbd_modifier true false true "S" = true <->
      true = false /\ false = false /\ true = true)
  /\ (char_in char_C (upper "c") = true -> is_kbd_modifier true false true "c" = true).
Proof.
  apply (is_kbd_modifier_tests_first_key true false true "c").
  repeat constructor.
Defined.

Section LeftButton.

Lemma press_button_spec c a s self :
  left_button_press_event c a s self
  = match press_button (Press c a s) with
    | Some b => MkStyle (Some b) (base_calls self ++ [ButtonDown b])
    | None => self
    end.
Proof. unfold left_button_press_event. by destruct c, a, s. Qed.

Lemma downs_snoc_down calls b : downs (calls ++ [ButtonDown b]) = downs calls ++ [b].
Proof. unfold downs. by rewrite omap_app. Qed.

Lemma downs_snoc_up calls b : downs (calls ++ [ButtonUp b]) = downs calls.
Proof. unfold downs. rewrite omap_app. cbn. by rewrite app_nil_r. Qed.

Lemma ups_snoc_down calls b : ups (calls ++ [ButtonDown b]) = ups calls.
Proof. unfold ups. rewrite omap_app. cbn. by rewrite app_nil_r. Qed.

Lemma ups_snoc_up calls b : ups (calls ++ [ButtonUp b]) = ups calls ++ [b].
Proof. unfold ups. by rewrite omap_app. Qed.

Lemma ups_follow_downs_snoc_down calls b :
  forall cur,
    ups_follow_downs cur calls -> ups_follow_downs cur (calls ++ [ButtonDown b]).
Proof.
  induction calls as [|[d|d] calls IH]; intros cur; cbn; [done | |].
  - apply IH.
  - intros [-> H]. split; [done | by apply IH].
Qed.

Lemma ups_follow_downs_snoc_up calls :
  forall cur,
    ups_follow_downs cur calls ->
    ups_follow_downs cur
      (calls ++ [ButtonUp (default LeftButton
                             (match last (downs calls) with
                              | Some d => Some d
                              | None => cur
                              end))]).
Proof.
  induction calls as [|[d|d] calls IH]; intros cur.
  - done.
  - intros H. specialize (IH (Some d) H).
    change (downs (ButtonDown d :: calls)) with (d :: downs calls).
    rewrite last_cons. cbn [app ups_follow_downs].
    by destruct (last (downs calls)).
  - intros [-> H]. split; [done|]. by apply IH.
Qed.

(** What holds of the style after any left-button events. *)
Lemma deliver_all_inv (evs : list left_event) :
  let self := foldl deliver MyInteractorStyle_init evs in
  left_button_press_event_release_fn self = last (downs (base_calls self))
  /\ downs (base_calls self) = omap press_button evs
  /\ length (ups (base_calls self))
     = length (filter (fun e => is_release e = true) evs)
  /\ ups_follow_downs None (base_calls self).
Proof.
  induction evs as [|e evs IH] using rev_ind; [done|].
  cbn zeta in *. rewrite foldl_app. cbn [foldl].
  set (self := foldl deliver MyInteractorStyle_init evs) in *.
  destruct IH as (Hfn & Hdowns & Hups & Hfollow).
  rewrite omap_app, filter_app, length_app.
  destruct e as [c a s|]; cbn [deliver].
  - rewrite press_button_spec.
    assert (Hfilter : filter (fun e => is_release e = true) [Press c a s] = []).
    { by rewrite filter_cons_False. }
    rewrite Hfilter. cbn [length]. rewrite Nat.add_0_r.
    change (omap press_button [Press c a s])
      with (match press_button (Press c a s) with
            | Some y => [y]
            | None => []
            end).
    destruct (press_button (Press c a s)) as [b|].
    + cbn [base_calls left_button_press_event_release_fn].
      rewrite downs_snoc_down, ups_snoc_down, last_snoc, Hdowns.
      do 3 (split; [done|]). by apply ups_follow_downs_snoc_down.
    + by rewrite app_nil_r.
  - assert (Hfilter : filter (fun e => is_release e = true) [Release] = [Release]).
    { by rewrite filter_cons_True. }
    rewrite Hfilter. cbn [omap press_button length]. rewrite app_nil_r.
    pose proof (ups_follow_downs_snoc_up (base_calls self) None Hfollow) as Hup.
    rewrite <- Hfn in Hup. unfold left_button_release_event.
    destruct (left_button_press_event_release_fn self) as [b|] eqn:Hb;
      cbn [base_calls left_button_press_event_release_fn];
      rewrite downs_snoc_up, ups_snoc_up, length_app; cbn [length];
      (split; [done|]); (split; [done|]); (split; [lia|]); exact Hup.
Qed.

End LeftButton.

(** X17. After any series of left-button presses and releases on a new
    style: the base class has gone down once for every press with no
    modifier held (left button) or with Shift alone (middle button), in
    order, and not at all for the other presses; it has gone up once for
    every release; and every up is the one of the latest down before it
    (the left button's if there was none), so a release never lets go of
    the button the latest effective press did not take.  The stored
    release action is that of the latest down. *)
Theorem left_button_events_pair_up (evs : list left_event) :
  let self := foldl deliver MyInteractorStyle_init evs in
  left_button_press_event_release_fn self = last (downs (base_calls self))
  /\ downs (base_calls self) = omap press_button evs
  /\ length (ups (base_calls self))
     = length (filter (fun e => is_release e = true) evs)
  /\ ups_follow_downs None (base_calls self).
Proof. apply deliver_all_inv. Qed.

Section ImportNames.

Lemma GUIControl_GetNonconflitName_scene scene props prefix :
  exists r,
    (forall fuel, size (dom scene) < fuel ->
       GUIControl_GetNonconflitName fuel scene props prefix "scene"
       = Ok (candidate prefix r))
    /\ (candidate prefix r ∉ dom scene)
    /\ (forall k, k < r -> candidate prefix k ∈ dom scene).
Proof.
  destruct (GetNonconflitName_fresh prefix (dom scene)) as (r & Hrun & Hout & Hall).
  exists r. split; [|done]. intros fuel Hfuel.
  unfold GUIControl_GetNonconflitName. cbn. by rewrite (Hrun fuel Hfuel).
Qed.

Lemma import_objects_spec prefix props (objs : list nat) :
  forall scene fuel,
    size (dom scene) + length objs < fuel ->
    exists rs scene',
      import_objects fuel prefix objs scene props
      = Ok (map (candidate prefix) rs, scene')
      /\ length rs = length objs
      /\ StronglySorted lt rs
      /\ Forall (fun r => candidate prefix r ∉ dom scene) rs
      /\ (forall k v, scene !! k = Some v -> scene' !! k = Some v)
      /\ (forall i r o, rs !! i = Some r -> objs !! i = Some o ->
                        scene' !! candidate prefix r = Some o).
Proof.
  induction objs as [|obj objs IH]; intros scene fuel Hfuel.
  - exists [], scene. repeat split; try done; constructor.
  - cbn [length] in Hfuel.
    destruct (GUIControl_GetNonconflitName_scene scene props prefix)
      as (r & Hrun & Hout & Hall).
    cbn [import_objects]. rewrite (Hrun fuel) by lia. cbn [bind].
    set (scene1 := <[candidate prefix r := obj]> scene).
    assert (Hsize : size (dom scene1) = S (size (dom scene))).
    { unfold scene1. rewrite dom_insert_L, size_union by set_solver.
      rewrite size_singleton. lia. }
    destruct (IH scene1 fuel) as (rs & scene' & Hrest & Hlen & Hsorted & Hfree & Hkeep & Hreg);
      [lia|].
    rewrite Hrest. cbn [bind fst snd].
    assert (Hlater : Forall (fun r' => r < r') rs).
    { eapply Forall_impl; [exact Hfree|]. cbn. intros r' Hr'.
      destruct (decide (r' < r)) as [Hlt | Hge].
      - exfalso. apply Hr'. unfold scene1. rewrite dom_insert_L.
        apply elem_of_union_r. by apply Hall.
      - destruct (decide (r' = r)) as [-> | Hne]; [|lia].
        exfalso. apply Hr'. unfold scene1. rewrite dom_insert_L. set_solver. }
    exists (r :: rs), scene'. split; [done|]. split; [cbn; lia|].
    split; [by constructor|]. split; [|split].
    + constructor; [done|]. eapply Forall_impl; [exact Hfree|]. cbn.
      intros r' Hr' Hin. apply Hr'. unfold scene1. rewrite dom_insert_L.
      by apply elem_of_union_r.
    + intros k v Hk. apply Hkeep. unfold scene1.
      rewrite lookup_insert_ne; [done|]. intros <-.
      apply Hout. apply elem_of_dom. eauto.
    + intros [|i] r' o; cbn.
      * intros [= <-] [= <-]. apply Hkeep. unfold scene1.
        by rewrite lookup_insert_eq.
      * apply Hreg.
Qed.

End ImportNames.

(** X18. Objects imported one after another under the same prefix never
    collide: every import returns (the name search ends within as many
    steps as there are objects), the names given are pairwise distinct
    candidates of the prefix with increasing counters, none is the name of
    an object that was there before, every object that was there before is
    still registered as it was, and each imported object is still
    registered under the name it was given when all are in. *)
Theorem import_objects_never_collide (fuel : nat) (prefix : string)
    (objs : list nat) (scene props : gmap string nat) :
  size (dom scene) + length objs < fuel ->
  exists names scene',
    import_objects fuel prefix objs scene props = Ok (names, scene')
    /\ length names = length objs
    /\ NoDup names
    /\ (exists rs, names = map (candidate prefix) rs /\ StronglySorted lt rs)
    /\ Forall (fun name => name ∉ dom scene) names
    /\ (forall k v, scene !! k = Some v -> scene' !! k = Some v)
    /\ (forall i name o, names !! i = Some name -> objs !! i = Some o ->
                         scene' !! name = Some o).
Proof.
  intros Hfuel.
  destruct (import_objects_spec prefix props objs scene fuel Hfuel)
    as (rs & scene' & Hrun & Hlen & Hsorted & Hfree & Hkeep & Hreg).
  exists (map (candidate prefix) rs), scene'. split; [done|].
  split; [by rewrite length_map|]. split; [|split; [by exists rs|split; [|split]]].
  - apply NoDup_fmap_2_strong.
    + intros x y _ _. apply candidate_inj.
    + clear -Hsorted. induction Hsorted as [|r rs _ IH Hr]; constructor; [|done].
      intros Hin. rewrite List.Forall_forall in Hr.
      apply list_elem_of_In, Hr in Hin. lia.
  - apply Forall_forall. intros name Hname.
    apply list_elem_of_In, in_map_iff in Hname as (r & <- & Hr).
    rewrite Forall_forall in Hfree. by apply Hfree, list_elem_of_In.
  - done.
  - intros i name o Hname Ho. rewrite list_lookup_fmap in Hname.
    destruct (rs !! i) as [r|] eqn:Hr; [|done]. injection Hname as <-.
    by apply (Hreg i).
Qed.

Lemma import_objects_never_collide_witness :
  exists names scene',
    import_objects 4 "volume" [7; 8] {["volume" := 1]} ∅ = Ok (names, scene')
    /\ length names = length [7; 8]
    /\ NoDup names
    /\ (exists rs, names = map (candidate "volume") rs /\ StronglySorted lt rs)
    /\ Forall (fun name => name ∉ dom ({["volume" := 1]} : gmap string nat)) names
    /\ (forall k v, ({["volume" := 1]} : gmap string nat) !! k = Some v ->
                    scene' !! k = Some v)
    /\ (forall i name o, names !! i = Some name -> [7; 8] !! i = Some o ->
                         scene' !! name = Some o).
Proof.
  apply (import_objects_never_collide 4 "volume" [7; 8] {["volume" := 1]} ∅).
  rewrite dom_singleton_L, size_singleton. cbn. lia.
Defined.

Section MainRenderer.

Lemma find_app_Some {A : Type} (f : A -> bool) (l more : list A) (x : A) :
  find f l = Some x -> find f (l ++ more) = Some x.
Proof.
  induction l as [|a l IH]; cbn; [done|]. destruct (f a); [done | apply IH].
Qed.

Lemma renderer_named_first g first r rs :
  renderers g = (first, r) :: rs -> renderer_named g first = Some r.
Proof.
  intros Hr. unfold renderer_named. rewrite Hr. cbn.
  by rewrite String.eqb_refl.
Qed.

End MainRenderer.

(** X19. [GetMainRenderer] settles on its first answer.  A second call
    returns what the first returned and changes nothing more; the first
    call changes at most the stored name of the main renderer; the answer is
    [None] exactly when there is no renderer and no name is stored; the only
    error is the [KeyError] of a stored name that is no renderer, which
    changes nothing; and once a renderer has been returned, renderers added
    after the existing ones do not change the answer. *)
Theorem GetMainRenderer_settles (g : GUIControl) :
  let r := fst (GetMainRenderer g) in
  let g1 := snd (GetMainRenderer g) in
  GetMainRenderer g1 = (r, g1)
  /\ renderers g1 = renderers g
  /\ scene_objects g1 = scene_objects g
  /\ printed g1 = printed g
  /\ (r = Ok None <->
      renderers g = []
      /\ (main_renderer_name g = None \/ main_renderer_name g = Some EmptyString))
  /\ (forall e, r = Raise e -> e = KeyError /\ g1 = g)
  /\ (forall ren more,
        r = Ok (Some ren) ->
        fst (GetMainRenderer
               (MkGUIControl (renderers g1 ++ more) (scene_objects g1)
                  (main_renderer_name g1) (printed g1)))
        = Ok (Some ren)).
Proof.
  unfold GetMainRenderer, st_bind, st_get. cbn.
  destruct g as [rens objs name out]. cbn.
  assert (Hfirst :
    match rens with
    | [] => True
    | (first, ren) :: rs =>
        forall more,
          fst (GetMainRenderer (MkGUIControl (rens ++ more) objs (Some first) out))
          = Ok (Some ren)
          /\ GetMainRenderer (MkGUIControl rens objs (Some first) out)
              = (Ok (Some ren), MkGUIControl rens objs (Some first) out)
    end).
  { destruct rens as [|[first ren] rs]; [done|]. intros more.
    unfold GetMainRenderer, st_bind, st_get, renderer_named.
    destruct first as [|c n]; [done|].
    cbn -[String.eqb]. by rewrite String.eqb_refl. }
  destruct name as [[|c n]|]; cbn.
  - destruct rens as [|[first ren] rs]; cbn; [intuition congruence|].
    destruct (Hfirst []) as [_ Hagain]. split; [exact Hagain|].
    do 3 (split; [done|]). split; [intuition congruence|]. split; [done|].
    intros ren' more [= <-]. by destruct (Hfirst more) as [Hmore _].
  - unfold st_some, renderer_named. cbn.
    destruct (find _ rens) as [[k ren]|] eqn:Hfind; cbn.
    + rewrite Hfind. cbn. do 4 (split; [done|]).
      split; [intuition congruence|]. split; [done|]. intros ren' more [= <-].
      by rewrite (find_app_Some _ _ _ _ Hfind).
    + rewrite Hfind. cbn. do 4 (split; [done|]).
      split; [intuition congruence|]. split; [|done]. by intros e [= <-].
  - destruct rens as [|[first ren] rs]; cbn; [intuition congruence|].
    destruct (Hfirst []) as [_ Hagain]. split; [exact Hagain|].
    do 3 (split; [done|]). split; [intuition congruence|]. split; [done|].
    intros ren' more [= <-]. by destruct (Hfirst more) as [Hmore _].
Qed.

Section PickerOrder.

(** Filtering an enumeration keeps the indices in increasing order. *)
Lemma filter_zip_seq_order {A : Type} (P : nat * A -> Prop)
    `{!forall x, Decision (P x)} (l : list A) :
  forall k a b x y,
    filter P (zip (seq k (length l)) l) !! a = Some x ->
    filter P (zip (seq k (length l)) l) !! b = Some y ->
    fst x < fst y -> a < b.
Proof.
  induction l as [|h l IH]; intros k a b x y; [done|].
  cbn [length seq zip zip_with]. rewrite filter_cons.
  assert (Hrest : forall c z,
            filter P (zip (seq (S k) (length l)) l) !! c = Some z -> S k <= fst z).
  { intros c [i q] Hc.
    assert (Hin : (i, q) ∈ filter P (zip (seq (S k) (length l)) l)).
    { apply list_elem_of_lookup. eauto. }
    apply list_elem_of_filter in Hin as [_ Hin].
    apply elem_of_zip_seq in Hin as (j & -> & _). cbn. lia. }
  destruct (decide (P (k, h))) as [Hp | Hp]; [|apply IH].
  destruct a as [|a], b as [|b]; cbn.
  - intros [= <-] [= <-]. lia.
  - intros; lia.
  - intros Ha [= <-]. apply Hrest in Ha. cbn. lia.
  - intros Ha Hb Hlt. pose proof (IH (S k) a b x y Ha Hb Hlt). lia.
Qed.

Local Open Scope R_scope.

(** The scan returns the first of the least entries: every earlier entry
    is strictly greater. *)
Lemma argmin_from_first (l : list R) :
  forall (best_i : nat) (best : R) (k : nat),
    (argmin_from best_i best k l = best_i /\ forall x, x ∈ l -> best <= x)
    \/ (exists j m,
          argmin_from best_i best k l = (k + j)%nat
          /\ l !! j = Some m /\ m < best
          /\ forall j' x, (j' < j)%nat -> l !! j' = Some x -> m < x).
Proof.
  induction l as [|x l IH]; intros best_i best k; cbn.
  - left. split; [done|]. by intros x ?%elem_of_nil.
  - destruct (Rlt_dec x best) as [Hlt | Hge].
    + right. destruct (IH k x (S k)) as [[Hj Hall] | (j & m & Hj & Hm & Hlt' & Hfirst)].
      * exists 0%nat, x. rewrite Hj. split; [lia|]. split; [done|]. split; [done|].
        intros j' y Hj'. lia.
      * exists (S j), m. rewrite Hj. split; [lia|]. split; [done|]. split; [lra|].
        intros [|j'] y Hj'; cbn.
        -- intros [= <-]. done.
        -- apply Hfirst. lia.
    + destruct (IH best_i best (S k)) as [[Hj Hall] | (j & m & Hj & Hm & Hlt' & Hfirst)].
      * left. split; [done|].
        intros y [-> | Hy]%elem_of_cons; [lra | by apply Hall].
      * right. exists (S j), m. rewrite Hj. split; [lia|]. split; [done|].
        split; [done|]. intros [|j'] y Hj'; cbn.
        -- intros [= <-]. lra.
        -- apply Hfirst. lia.
Qed.

Lemma argmin_first (l : list R) (j : nat) :
  argmin l = Some j ->
  exists m, l !! j = Some m
            /\ forall j' x, (j' < j)%nat -> l !! j' = Some x -> m < x.
Proof.
  destruct l as [|x l]; [done|]. cbn [argmin]. intros [= <-].
  destruct (argmin_from_first l 0 x 1) as [[Hj Hall] | (j & m & Hj & Hm & Hlt & Hfirst)].
  - exists x. rewrite Hj. split; [done|]. intros j' y Hj'. lia.
  - exists m. rewrite Hj. split; [done|]. intros [|j'] y Hj'; cbn.
    + by intros [= <-].
    + apply Hfirst. lia.
Qed.

(** [PickAt], with the mask and the fancy indexing carried out. *)
Lemma PickAt_run (pk : PointPicker) (posxy : R * R) :
  let sv := filter (fun kq => in_view_tol pk posxy (snd kq) = true)
              (enumerate (pp_p pk)) in
  PickAt pk posxy
  = match sv with
    | [] => Ok NoSelection
    | _ :: _ =>
        match argmin (map (fun kq => angle_dist pk posxy (snd kq)) sv) with
        | None => Raise ValueError
        | Some j =>
            match map fst sv !! j with
            | None => Raise IndexError
            | Some i =>
                match pp_p pk !! i with
                | Some q => Ok (Picked i q)
                | None => Raise IndexError
                end
            end
        end
    end.
Proof.
  intros sv. unfold PickAt. rewrite flatnonzero_map. fold sv.
  rewrite (mapR_lookup (pp_p pk) (angle_dist pk posxy) sv).
  - by destruct sv.
  - intros i q Hin. unfold sv, enumerate in Hin.
    apply list_elem_of_filter in Hin as [_ Hin].
    apply elem_of_zip_seq in Hin as (j & -> & Hj). done.
Qed.

End PickerOrder.

(** X20. [PickAt] breaks ties by index: the point it returns is the first
    of the qualifying points of least angular distance, so every qualifying
    point with a smaller index is strictly farther (in angle) from the
    picker line than the one returned. *)
Theorem PickAt_takes_first_nearest (pk : PointPicker) (posxy : R * R)
    (i : nat) (q : vec3) :
  PickAt pk posxy = Ok (Picked i q) ->
  forall j q',
    j < i -> pp_p pk !! j = Some q' -> qualifies pk posxy q' ->
    (angle_dist pk posxy q < angle_dist pk posxy q')%R.
Proof.
  rewrite PickAt_run.
  set (sv := filter (fun kq => in_view_tol pk posxy (snd kq) = true)
               (enumerate (pp_p pk))).
  intros Hrun j q' Hji Hj Hq'.
  destruct sv as [|s0 sv'] eqn:Hsv; [done|]. rewrite <- Hsv in *. clear Hsv s0 sv'.
  destruct (argmin _) as [a|] eqn:Ha; [|done].
  change (map fst sv) with (fst <$> sv) in Hrun.
  rewrite list_lookup_fmap in Hrun.
  destruct (sv !! a) as [[i0 q0]|] eqn:Hsa; [|done]. cbn in Hrun.
  assert (Hi0 : pp_p pk !! i0 = Some q0).
  { assert (Hin : (i0, q0) ∈ sv) by (apply list_elem_of_lookup; eauto).
    unfold sv, enumerate in Hin. apply list_elem_of_filter in Hin as [_ Hin].
    by apply elem_of_zip_seq in Hin as (k & -> & Hk). }
  rewrite Hi0 in Hrun. injection Hrun as -> ->.
  assert (Hin : (j, q') ∈ sv).
  { unfold sv, enumerate. apply list_elem_of_filter. split.
    - by apply in_view_tol_true.
    - apply elem_of_zip_seq. by exists j. }
  apply list_elem_of_lookup in Hin as [b Hb].
  assert (Hba : b < a).
  { apply (filter_zip_seq_order
             (fun kq => in_view_tol pk posxy (snd kq) = true)
             (pp_p pk) 0 b a (j, q') (i, q)); done. }
  destruct (argmin_first _ _ Ha) as (m & Hm & Hfirst).
  change (map (fun kq => angle_dist pk posxy (snd kq)) sv)
    with ((fun kq => angle_dist pk posxy (snd kq)) <$> sv) in Hm, Hfirst.
  rewrite list_lookup_fmap, Hsa in Hm. injection Hm as <-.
  apply (Hfirst b); [done|]. by rewrite list_lookup_fmap, Hb.
Qed.

Lemma PickAt_takes_first_nearest_witness :
  PickAt axis_picker (0%R, 0%R) = Ok (Picked 1 (Vec3 0 0 (-1)))
  /\ forall j q',
       j < 1 -> pp_p axis_picker !! j = Some q' ->
       qualifies axis_picker (0%R, 0%R) q' ->
       (angle_dist axis_picker (0%R, 0%R) (Vec3 0 0 (-1))
        < angle_dist axis_picker (0%R, 0%R) q')%R.
Proof.
  cut (PickAt axis_picker (0%R, 0%R) = Ok (Picked 1 (Vec3 0 0 (-1)))).
  { intros Hrun. split; [exact Hrun|].
    exact (PickAt_takes_first_nearest axis_picker (0%R, 0%R) 1 (Vec3 0 0 (-1)) Hrun). }
  assert (Ht0 : ray_t axis_picker (0%R, 0%R) (Vec3 (1 / 1000) 0 (-1)) = 1%R).
  { unfold ray_t, ray_direction, ray_origin, transpose_mul, vdot, vsub, vneg.
    cbn. field. }
  assert (Ht1 : ray_t axis_picker (0%R, 0%R) (Vec3 0 0 (-1)) = 1%R).
  { unfold ray_t, ray_direction, ray_origin, transpose_mul, vdot, vsub, vneg.
    cbn. field. }
  assert (Hd0 : ray_dist axis_picker (0%R, 0%R) (Vec3 (1 / 1000) 0 (-1))
                = (1 / 1000)%R).
  { unfold ray_dist. rewrite Ht0. unfold vnorm.
    replace (vdot _ _) with ((1 / 1000) * (1 / 1000))%R.
    - apply sqrt_square. lra.
    - unfold ray_direction, ray_origin, transpose_mul, vdot, vsub, vneg, vscale.
      cbn. field. }
  assert (Hd1 : ray_dist axis_picker (0%R, 0%R) (Vec3 0 0 (-1)) = 0%R).
  { unfold ray_dist. rewrite Ht1. unfold vnorm.
    replace (vdot _ _) with 0%R; [apply sqrt_0|].
    unfold ray_direction, ray_origin, transpose_mul, vdot, vsub, vneg, vscale.
    cbn. field. }
  assert (Hq0 : in_view_tol axis_picker (0%R, 0%R) (Vec3 (1 / 1000) 0 (-1)) = true).
  { apply in_view_tol_true. unfold qualifies, angle_dist.
    rewrite Ht0, Hd0. unfold cam_min_view_distance, selection_angle_tol. lra. }
  assert (Hq1 : in_view_tol axis_picker (0%R, 0%R) (Vec3 0 0 (-1)) = true).
  { apply in_view_tol_true. unfold qualifies, angle_dist.
    rewrite Ht1, Hd1. unfold cam_min_view_distance, selection_angle_tol. lra. }
  rewrite PickAt_run. unfold enumerate. cbn [pp_p axis_picker length seq zip zip_with].
  rewrite !filter_cons, filter_nil. cbn [snd]. rewrite Hq0, Hq1.
  rewrite !decide_True by done. cbn [map snd argmin argmin_from].
  unfold angle_dist. rewrite Ht0, Ht1, Hd0, Hd1.
  destruct (Rlt_dec (0 / 1) (1 / 1000 / 1)) as [Hlt | Hge]; [done|].
  exfalso. apply Hge. lra.
Defined.

(** X21. The distance [PickAt] measures is the distance from the point to
    the picker line: with a picker direction that is not the zero vector,
    no point [o + v * s] of the line is nearer to the point than the one at
    the parameter [t] the code computes (real arithmetic). *)
Theorem ray_dist_is_distance_to_line (pk : PointPicker) (posxy : R * R)
    (q : vec3) (s : R) :
  let v := ray_direction pk posxy in
  let u := vsub q (ray_origin pk) in
  vdot v v <> 0%R ->
  (ray_dist pk posxy q <= vnorm (vsub u (vscale v s)))%R.
Proof.
  intros v u Hv. unfold ray_dist, vnorm. fold v u.
  apply sqrt_le_1_alt. by apply ray_t_least_squares.
Qed.

Lemma ray_dist_is_distance_to_line_witness :
  (ray_dist axis_picker (0%R, 0%R) (Vec3 (1 / 1000) 0 (-1))
   <= vnorm (vsub (vsub (Vec3 (1 / 1000) 0 (-1)) (ray_origin axis_picker))
               (vscale (ray_direction axis_picker (0%R, 0%R)) 2)))%R.
Proof.
  apply (ray_dist_is_distance_to_line axis_picker (0%R, 0%R)
           (Vec3 (1 / 1000) 0 (-1)) 2%R).
  unfold ray_direction, transpose_mul, vdot. cbn. lra.
Defined.

Section ChildCounts.

Lemma count_where_ext (P Q : Z -> bool) (a : list Z) :
  (forall x, P x = Q x) -> count_where P a = count_where Q a.
Proof.
  intros HPQ. unfold count_where. do 2 f_equal.
  apply list_filter_iff. intros x. by rewrite HPQ.
Qed.

Lemma histogram_step (a : list Z) (lo hi : Z) (rest : list Z) :
  histogram a (lo :: hi :: rest)
  = (match rest with
     | [] => count_where (fun x => (lo <=? x) && (x <=? hi))%Z a
     | _ :: _ => count_where (fun x => (lo <=? x) && (x <? hi))%Z a
     end) :: histogram a (hi :: rest).
Proof. reflexivity. Qed.

(** The bins of [np.histogram] for the edges [k, k+1, ..., k+m-1]: bin [j]
    is half-open, [k+j <= x < k+j+1], except the last, which is closed:
    [k+j <= x <= k+j+1]. *)
Lemma histogram_arange (a : list Z) (m : nat) :
  forall (k j : nat),
    S j < m ->
    histogram a (map Z.of_nat (seq k m)) !! j
    = Some (if decide (S (S j) = m)
            then count_where (fun x => (x =? Z.of_nat (k + j))
                                       || (x =? Z.of_nat (k + j) + 1))%Z a
            else count_where (fun x => x =? Z.of_nat (k + j))%Z a).
Proof.
  induction m as [|m IH]; intros k j Hj; [lia|].
  destruct m as [|m]; [lia|].
  change (map Z.of_nat (seq k (S (S m))))
    with (Z.of_nat k :: Z.of_nat (S k) :: map Z.of_nat (seq (S (S k)) m)).
  rewrite histogram_step.
  change (Z.of_nat (S k) :: map Z.of_nat (seq (S (S k)) m))
    with (map Z.of_nat (seq (S k) (S m))).
  rewrite lookup_cons. destruct j as [|j].
  - rewrite Nat.add_0_r. f_equal. destruct m as [|m]; cbn [map seq].
    + rewrite decide_True by done. apply count_where_ext. intros x.
      destruct (x =? Z.of_nat k)%Z eqn:H1, (x =? Z.of_nat k + 1)%Z eqn:H2,
        (Z.of_nat k <=? x)%Z eqn:H3, (x <=? Z.of_nat (S k))%Z eqn:H4; cbn; try done;
        rewrite ?Z.eqb_eq, ?Z.eqb_neq, ?Z.leb_le, ?Z.leb_gt in *; lia.
    + rewrite decide_False by lia. apply count_where_ext. intros x.
      destruct (x =? Z.of_nat k)%Z eqn:H1,
        (Z.of_nat k <=? x)%Z eqn:H3, (x <? Z.of_nat (S k))%Z eqn:H4; cbn; try done;
        rewrite ?Z.eqb_eq, ?Z.eqb_neq, ?Z.leb_le, ?Z.leb_gt, ?Z.ltb_lt, ?Z.ltb_ge in *; lia.
  - rewrite (IH (S k) j) by lia.
    replace (S k + j) with (k + S j) by lia.
    destruct (decide (S (S j) = S m)), (decide (S (S (S j)) = S (S m))); try lia; done.
Qed.

End ChildCounts.

(** X22. What [SplitSWCTree] counts as children.  For a table of [n]
    rows the count array has [n - 1] entries, so the last row has none.
    Entry [j] is the number of rows after the first whose relabelled parent
    is [j], except the last entry, [j = n - 2], which counts the rows whose
    parent is [n - 2] or the last row [n - 1]: with the edges
    [0, ..., n - 1] the histogram has [n - 1] bins and its last bin is
    closed. *)
Theorem child_counts_bins (tr0 : list swc_row) (parent : list Z) (j : nat) :
  S j < length tr0 ->
  length (child_counts tr0 parent) = length tr0 - 1
  /\ child_counts tr0 parent !! j
     = Some (if decide (S (S j) = length tr0)
             then count_where (fun x => (x =? Z.of_nat j)
                                        || (x =? Z.of_nat j + 1))%Z (tail parent)
             else count_where (fun x => x =? Z.of_nat j)%Z (tail parent)).
Proof.
  intros Hj. split; [apply child_counts_length|].
  unfold child_counts, np_arange. by rewrite (histogram_arange _ _ 0 j Hj).
Qed.

Lemma child_counts_bins_witness :
  length (child_counts example_tree [-1; 0; 0; 1; 1]%Z) = length example_tree - 1
  /\ child_counts example_tree [-1; 0; 0; 1; 1]%Z !! 3
     = Some (if decide (S (S 3) = length example_tree)
             then count_where (fun x => (x =? Z.of_nat 3)
                                        || (x =? Z.of_nat 3 + 1))%Z
                    (tail [-1; 0; 0; 1; 1]%Z)
             else count_where (fun x => x =? Z.of_nat 3)%Z
                    (tail [-1; 0; 0; 1; 1]%Z)).
Proof.
  apply (child_counts_bins example_tree [-1; 0; 0; 1; 1]%Z 3). cbn. lia.
Defined.

Section CameraProofs.
Local Open Scope R_scope.

Lemma vdot_nonneg (a : vec3) : 0 <= vdot a a.
Proof.
  unfold vdot. pose proof (Rle_0_sqr (vx a)). pose proof (Rle_0_sqr (vy a)).
  pose proof (Rle_0_sqr (vz a)). unfold Rsqr in *. lra.
Qed.

Lemma vnorm_vscale (a : vec3) (s : R) : vnorm (vscale a s) = vnorm a * Rabs s.
Proof.
  unfold vnorm.
  replace (vdot (vscale a s) (vscale a s)) with (vdot a a * Rsqr s)
    by (unfold vdot, vscale, Rsqr; cbn; ring).
  rewrite sqrt_mult_alt by apply vdot_nonneg. by rewrite sqrt_Rsqr_abs.
Qed.

Lemma vnorm_vdiv_self (a : vec3) : vnorm a <> 0 -> vnorm (vdiv a (vnorm a)) = 1.
Proof.
  intros Hn.
  replace (vdiv a (vnorm a)) with (vscale a (/ vnorm a))
    by (unfold vdiv, vscale; f_equal).
  rewrite vnorm_vscale, Rabs_inv.
  rewrite (Rabs_pos_eq (vnorm a)) by apply sqrt_pos. by field.
Qed.

End CameraProofs.

(** X23. [AlignCameraDirection] puts the second camera on the sphere of
    radius [|dist|] about the origin, looking at the origin along the first
    camera's line of sight: its focal point is the origin, its position is
    the first camera's offset from its focal point scaled by
    [dist / |offset|], and its distance to its focal point is [|dist|],
    however far the first camera is from its own focal point.  The first
    camera must not sit on its focal point (real arithmetic). *)
Theorem AlignCameraDirection_distance (cam2 cam1 : vtkCamera) (dist : R) :
  let r := vsub (Position cam1) (FocalPoint cam1) in
  let cam := AlignCameraDirection cam2 cam1 dist in
  vnorm r <> 0%R ->
  FocalPoint cam = Vec3 0 0 0
  /\ Position cam = vscale r (dist / vnorm r)
  /\ vnorm (vsub (Position cam) (FocalPoint cam)) = Rabs dist.
Proof.
  intros r cam Hr. unfold cam, AlignCameraDirection. fold r. cbn.
  split; [done|]. split.
  - unfold vscale, vdiv. cbn. f_equal; by field.
  - replace (vsub (vscale (vdiv r (vnorm r)) dist) (Vec3 0 0 0))
      with (vscale (vdiv r (vnorm r)) dist)
      by (unfold vsub, vscale; cbn; f_equal; ring).
    rewrite vnorm_vscale, vnorm_vdiv_self by done. ring.
Qed.

Lemma AlignCameraDirection_distance_witness :
  FocalPoint (AlignCameraDirection (MkCamera (Vec3 1 1 1) (Vec3 0 0 0))
                (MkCamera (Vec3 0 0 3) (Vec3 0 0 1)) 4)
  = Vec3 0 0 0
  /\ Position (AlignCameraDirection (MkCamera (Vec3 1 1 1) (Vec3 0 0 0))
                 (MkCamera (Vec3 0 0 3) (Vec3 0 0 1)) 4)
     = vscale (vsub (Vec3 0 0 3) (Vec3 0 0 1))
         (4 / vnorm (vsub (Vec3 0 0 3) (Vec3 0 0 1)))
  /\ vnorm (vsub (Position (AlignCameraDirection (MkCamera (Vec3 1 1 1) (Vec3 0 0 0))
                              (MkCamera (Vec3 0 0 3) (Vec3 0 0 1)) 4))
                 (FocalPoint (AlignCameraDirection (MkCamera (Vec3 1 1 1) (Vec3 0 0 0))
                                (MkCamera (Vec3 0 0 3) (Vec3 0 0 1)) 4)))
     = Rabs 4.
Proof.
  apply (AlignCameraDirection_distance (MkCamera (Vec3 1 1 1) (Vec3 0 0 0))
           (MkCamera (Vec3 0 0 3) (Vec3 0 0 1)) 4%R).
  cbn. unfold vnorm, vsub, vdot. cbn.
  replace ((0 - 0) * (0 - 0) + (0 - 0) * (0 - 0) + (3 - 1) * (3 - 1))%R
    with (2 * 2)%R by ring.
  rewrite sqrt_square by lra. lra.
Defined.

(** X24. The mouse wheel moves the camera along its line of sight and
    never moves the focal point: the offset of the new position from the
    focal point is the old offset times the positive factor
    [1.2 ^ (-direction)], so the camera stays on the line through its old
    position and the focal point, on the same side; the distance to the
    focal point is multiplied by that factor; and wheel actions add up:
    one with direction [a] followed by one with direction [b] is one with
    direction [a + b], so a step forward and a step backward cancel (real
    arithmetic). *)
Theorem mouse_wheel_actions_add_up (a b : Z) (cam : vtkCamera) :
  FocalPoint (mouse_wheel_action a cam) = FocalPoint cam
  /\ (vsub (Position (mouse_wheel_action a cam)) (FocalPoint cam)
      = vscale (vsub (Position cam) (FocalPoint cam)) (powerRZ (12 / 10) (- a))
      /\ (0 < powerRZ (12 / 10) (- a))%R)
  /\ vnorm (vsub (Position (mouse_wheel_action a cam)) (FocalPoint cam))
     = (vnorm (vsub (Position cam) (FocalPoint cam)) * powerRZ (12 / 10) (- a))%R
  /\ mouse_wheel_action b (mouse_wheel_action a cam) = mouse_wheel_action (a + b) cam
  /\ mouse_wheel_action (-1) (mouse_wheel_action 1 cam) = cam.
Proof.
  assert (Hx : (12 / 10 <> 0)%R) by lra.
  assert (Hadd : forall a b, mouse_wheel_action b (mouse_wheel_action a cam)
                             = mouse_wheel_action (a + b) cam).
  { intros a' b'. unfold mouse_wheel_action. cbn [Position FocalPoint].
    replace (- (a' + b'))%Z with (- a' + - b')%Z by lia.
    rewrite (powerRZ_add _ _ _ Hx).
    destruct cam as [[px py pz] [fx fy fz]].
    unfold vadd, vsub, vscale. cbn. f_equal. f_equal; ring. }
  split; [done|]. split; [|split; [|split; [apply Hadd|]]].
  - split; [|apply powerRZ_lt; lra].
    unfold mouse_wheel_action. cbn [Position FocalPoint].
    destruct cam as [[px py pz] [fx fy fz]].
    unfold vadd, vsub, vscale. cbn. f_equal; ring.
  - unfold mouse_wheel_action. cbn [Position FocalPoint].
    replace (vsub (vadd _ _) (FocalPoint cam))
      with (vscale (vsub (Position cam) (FocalPoint cam)) (powerRZ (12 / 10) (- a)))
      by (destruct cam as [[px py pz] [fx fy fz]];
          unfold vadd, vsub, vscale; cbn; f_equal; ring).
    rewrite vnorm_vscale. f_equal. apply Rabs_pos_eq.
    apply powerRZ_le. lra.
  - rewrite Hadd. unfold mouse_wheel_action.
    destruct cam as [[px py pz] [fx fy fz]]. cbn [Position FocalPoint].
    change (- (1 + -1))%Z with 0%Z. change (powerRZ (12 / 10) 0) with 1%R.
    unfold vadd, vsub, vscale. cbn. f_equal. f_equal; ring.
Qed.
